(** * Functional-harmony chord classifier

    A shallow embedding of [functional_harmony.py]: the [EDOSystem]
    dataclass with its [__post_init__] validation, the interval-set
    predicates, [classify_chord] and [generate_interval_quality_list].

    - Python exceptions are modelled by an error monad, [result].
    - A Python set of integers is a [gset Z]; a loop or comprehension
      over it visits [elements], one fixed order among the arbitrary
      ones Python may use.
    - A dictionary keyed by integers is a [gmap Z]; the dictionaries of
      display tables, whose insertion order decides which failure is
      reported, are association lists.
    - A Python float is an IEEE-754 binary64 value, [spec_float] with
      precision 53 and maximal exponent 1024, and the float operations
      are those of [SpecFloat]; an integer operand is converted with
      round-to-nearest-even, failing with [OverflowError] beyond the
      range of doubles. *)

From Stdlib Require Import ZArith QArith Qabs Lia.
From Stdlib Require Import Floats.SpecFloat.
From stdpp Require Import base gmap sets list list_numbers strings sorting pretty.

Local Open Scope Z_scope.

(** ** Exceptions and the error monad *)

Inductive exn : Type :=
  | ValueError (msg : string)
  | KeyError (key : string)
  | ZeroDivisionError
  | OverflowError.

Inductive result (A : Type) : Type :=
  | Ok (a : A)
  | Raise (e : exn).
Arguments Ok {A} a.
Arguments Raise {A} e.

#[global] Instance result_ret : MRet result := λ A a, Ok a.
#[global] Instance result_bind : MBind result := λ A B f m,
  match m with
  | Ok a => f a
  | Raise e => Raise e
  end.

Definition succeeds {A} (m : result A) : Prop := ∃ a, m = Ok a.

(** [a % b] on Python integers: floor remainder, [ZeroDivisionError] on 0. *)
Definition py_mod (a b : Z) : result Z :=
  if bool_decide (b = 0) then Raise ZeroDivisionError else Ok (a `mod` b).

(** ** Python floats (binary64) *)

Definition prec : Z := 53.
Definition emax : Z := 1024.

(** A float literal or small integer constant with an integral value. *)
Definition lit (z : Z) : spec_float := binary_normalize prec emax z 0 false.

(** Implicit int-to-float conversion of an operand: correctly rounded,
    [OverflowError] when the integer is too large for a double. *)
Definition float_of_int (z : Z) : result spec_float :=
  match binary_normalize prec emax z 0 false with
  | S754_infinity _ => Raise OverflowError
  | f => Ok f
  end.

Definition float_mul : spec_float → spec_float → spec_float := SFmul prec emax.
Definition float_sub : spec_float → spec_float → spec_float := SFsub prec emax.
Definition float_abs : spec_float → spec_float := SFabs.
Definition float_lt : spec_float → spec_float → bool := SFltb.
Definition float_le : spec_float → spec_float → bool := SFleb.

Definition float_truediv (x y : spec_float) : result spec_float :=
  match y with
  | S754_zero _ => Raise ZeroDivisionError
  | _ => Ok (SFdiv prec emax x y)
  end.

(** [min(l, key=key)]: the first element whose key is not above any other. *)
Fixpoint min_loop (key : Z → result spec_float) (best : Z) (best_key : spec_float)
    (l : list Z) : result Z :=
  match l with
  | [] => Ok best
  | x :: l' =>
      v ← key x;
      if float_lt v best_key then min_loop key x v l' else min_loop key best best_key l'
  end.

Definition py_min (key : Z → result spec_float) (l : list Z) : result Z :=
  match l with
  | [] => Raise (ValueError "min() arg is an empty sequence")
  | x :: l' => v ← key x; min_loop key x v l'
  end.

(** ** The data model *)

Inductive Quality : Type :=
  | STABLE | MODAL | HOLLOW | UNSTABLE | LEADING | ODD.

Inductive Function : Type :=
  | TONIC | PREDOMINANT | DOMINANT | MEDIANT.

#[global] Instance Quality_eq_dec : EqDecision Quality.
Proof. solve_decision. Defined.

#[global] Instance Function_eq_dec : EqDecision Function.
Proof. solve_decision. Defined.

Definition Quality_to_nat (q : Quality) : nat :=
  match q with
  | STABLE => 0 | MODAL => 1 | HOLLOW => 2 | UNSTABLE => 3 | LEADING => 4 | ODD => 5
  end%nat.

Definition Quality_of_nat (n : nat) : option Quality :=
  match n with
  | 0 => Some STABLE | 1 => Some MODAL | 2 => Some HOLLOW
  | 3 => Some UNSTABLE | 4 => Some LEADING | 5 => Some ODD
  | _ => None
  end%nat.

#[global] Instance Quality_countable : Countable Quality.
Proof.
  apply (inj_countable Quality_to_nat Quality_of_nat).
  intros []; reflexivity.
Defined.

(** The value of a [Quality] member, as written in a quality list. *)
Definition Quality_value (q : Quality) : string :=
  match q with
  | STABLE => "s" | MODAL => "m" | HOLLOW => "h"
  | UNSTABLE => "u" | LEADING => "l" | ODD => "o"
  end.

(** The fields of the [EDOSystem] dataclass, as passed to its constructor. *)
Record EDOFields : Type := mkEDOFields {
  edo : Z;
  interval_quality_list : list string;
  leading_targets : gmap Z Z;
  dominant_leading_intervals : gset Z;
  chord_intervals : list (list Z);
  chord_notation_systems : list (string * list string);
  note_name_systems : list (string * list string);
  current_notation : string;
  current_note_names : string
}.

(** A constructed [EDOSystem]: its fields and the two attributes that
    [__post_init__] sets. *)
Record EDOSystem : Type := mkEDOSystem {
  fields :> EDOFields;
  interval_qualities : gmap Z Quality;
  perfect_fifth : Z
}.

(** ** [EDOSystem.__post_init__] *)

Definition quality_map (q : string) : result Quality :=
  if bool_decide (q = "s") then Ok STABLE
  else if bool_decide (q = "m") then Ok MODAL
  else if bool_decide (q = "h") then Ok HOLLOW
  else if bool_decide (q = "u") then Ok UNSTABLE
  else if bool_decide (q = "l") then Ok LEADING
  else if bool_decide (q = "o") then Ok ODD
  else Raise (KeyError q).

Definition len {A} (l : list A) : Z := Z.of_nat (length l).

Definition qualities_error (self : EDOFields) : string :=
  "Expected " +:+ pretty (edo self) +:+ " qualities, got "
    +:+ pretty (len (interval_quality_list self)).

Definition notation_error (self : EDOFields) (system_name : string)
    (notations : list string) : string :=
  "Notation system '" +:+ system_name +:+ "' has " +:+ pretty (len notations)
    +:+ " names but " +:+ pretty (len (chord_intervals self)) +:+ " chord intervals".

Definition note_names_error (self : EDOFields) (system_name : string)
    (names : list string) : string :=
  "Note name system '" +:+ system_name +:+ "' has " +:+ pretty (len names)
    +:+ " names but edo is " +:+ pretty (edo self).

(** The two validation loops: the first table of the wrong length raises. *)
Fixpoint check_tables (expected : Z) (msg : string → list string → string)
    (tables : list (string * list string)) : result unit :=
  match tables with
  | [] => Ok ()
  | (system_name, entries) :: rest =>
      if bool_decide (len entries ≠ expected)
      then Raise (ValueError (msg system_name entries))
      else check_tables expected msg rest
  end.

(** The key of [min] in [__post_init__]: [abs(i * cent_per_step - 702)]. *)
Definition fifth_key (cent_per_step : spec_float) (i : Z) : result spec_float :=
  fi ← float_of_int i;
  Ok (float_abs (float_sub (float_mul fi cent_per_step) (lit 702))).

Definition cent_per_step_of (edo : Z) : result spec_float :=
  d ← float_of_int edo; float_truediv (lit 1200) d.

Definition post_init (self : EDOFields) : result EDOSystem :=
  if bool_decide (len (interval_quality_list self) ≠ edo self)
  then Raise (ValueError (qualities_error self))
  else
    qs ← mapM quality_map (interval_quality_list self);
    cent_per_step ← cent_per_step_of (edo self);
    fifth ← py_min (fifth_key cent_per_step) (seqZ 0 (edo self));
    _ ← check_tables (len (chord_intervals self)) (notation_error self)
          (chord_notation_systems self);
    _ ← check_tables (edo self) (note_names_error self) (note_name_systems self);
    Ok {| fields := self; interval_qualities := map_seqZ 0 qs; perfect_fifth := fifth |}.

(** ** Interval-set predicates (methods of [EDOSystem]) *)

Definition dict_get (d : gmap Z Quality) (k : Z) : result Quality :=
  match d !! k with
  | Some q => Ok q
  | None => Raise (KeyError (pretty k))
  end.

Definition get_quality (self : EDOSystem) (interval : Z) : result Quality :=
  k ← py_mod interval (edo self);
  dict_get (interval_qualities self) k.

Definition get_qualities (self : EDOSystem) (intervals : gset Z) : result (gset Quality) :=
  qs ← mapM (get_quality self) (elements intervals);
  Ok (list_to_set qs).

Definition has_quality (self : EDOSystem) (intervals : gset Z) (quality : Quality)
    : result bool :=
  qs ← get_qualities self intervals;
  Ok (bool_decide (quality ∈ qs)).

(** [{i % self.edo for i in intervals}] *)
Definition mod_set (self : EDOSystem) (intervals : gset Z) : result (gset Z) :=
  ms ← mapM (λ i, py_mod i (edo self)) (elements intervals);
  Ok (list_to_set ms).

(** The test shared by both leading predicates, on one chord member:
    the target of [interval % edo] is defined and is not sounding. *)
Definition target_absent (self : EDOSystem) (intervals_mod : gset Z) (interval : Z)
    : result bool :=
  k ← py_mod interval (edo self);
  match leading_targets self !! k with
  | Some target =>
      t ← py_mod target (edo self);
      Ok (bool_decide (t ∉ intervals_mod))
  | None => Ok false
  end.

Fixpoint active_leading_loop (self : EDOSystem) (intervals_mod : gset Z)
    (l : list Z) : result bool :=
  match l with
  | [] => Ok false
  | interval :: rest =>
      q ← get_quality self interval;
      if bool_decide (q = LEADING) then
        b ← target_absent self intervals_mod interval;
        if (b : bool) then Ok true else active_leading_loop self intervals_mod rest
      else active_leading_loop self intervals_mod rest
  end.

Definition has_active_leading (self : EDOSystem) (intervals : gset Z) : result bool :=
  intervals_mod ← mod_set self intervals;
  active_leading_loop self intervals_mod (elements intervals).

Fixpoint dominant_leading_loop (self : EDOSystem) (intervals_mod : gset Z)
    (l : list Z) : result bool :=
  match l with
  | [] => Ok false
  | interval :: rest =>
      k ← py_mod interval (edo self);
      if bool_decide (k ∈ dominant_leading_intervals self) then
        b ← target_absent self intervals_mod interval;
        if (b : bool) then Ok true else dominant_leading_loop self intervals_mod rest
      else dominant_leading_loop self intervals_mod rest
  end.

Definition has_dominant_leading (self : EDOSystem) (intervals : gset Z) : result bool :=
  intervals_mod ← mod_set self intervals;
  dominant_leading_loop self intervals_mod (elements intervals).

(** ** [classify_chord] *)

(** [{i for i in intervals if system.get_quality(i) == Quality.STABLE}] *)
Fixpoint stable_filter (system : EDOSystem) (l : list Z) : result (list Z) :=
  match l with
  | [] => Ok []
  | i :: rest =>
      q ← get_quality system i;
      r ← stable_filter system rest;
      Ok (if bool_decide (q = STABLE) then i :: r else r)
  end.

Definition stable_members (system : EDOSystem) (intervals : gset Z) : result (gset Z) :=
  l ← stable_filter system (elements intervals);
  Ok (list_to_set l).

(** [{i for i, q in system.interval_qualities.items()
       if q == Quality.STABLE and i != 0}] *)
Definition stable_interval_values (system : EDOSystem) : gset Z :=
  dom (filter (λ iq : Z * Quality, iq.2 = STABLE ∧ iq.1 ≠ 0) (interval_qualities system)).

(** The generator inside [any]: the outer index [i] selects [x], the
    inner index [j] runs over the members after it. *)
Fixpoint any_after (system : EDOSystem) (values : gset Z) (x : Z) (l : list Z)
    : result bool :=
  match l with
  | [] => Ok false
  | y :: rest =>
      d ← py_mod (y - x) (edo system);
      if bool_decide (d ∈ values) then Ok true else any_after system values x rest
  end.

Fixpoint any_pair (system : EDOSystem) (values : gset Z) (l : list Z) : result bool :=
  match l with
  | [] => Ok false
  | x :: rest =>
      b ← any_after system values x rest;
      if (b : bool) then Ok true else any_pair system values rest
  end.

Definition has_internal_stable (intervals : gset Z) (system : EDOSystem) : result bool :=
  let interval_list := merge_sort Z.le (elements intervals) in
  any_pair system (stable_interval_values system) interval_list.

(** The dominant-shell flag computed by [classify_chord]. *)
Definition is_dominant_shell (intervals : gset Z) (system : EDOSystem) : result bool :=
  stable_intervals ← stable_members system intervals;
  let has_fifth_no_root :=
    bool_decide (0 < size stable_intervals)%nat && bool_decide (0 ∉ intervals) in
  internal ← has_internal_stable intervals system;
  Ok (has_fifth_no_root && negb internal).

Definition classify_chord (intervals : gset Z) (system : EDOSystem) : result Function :=
  has_u ← has_quality system intervals UNSTABLE;
  has_h ← has_quality system intervals HOLLOW;
  has_o ← has_quality system intervals ODD;
  has_active_l ← has_active_leading system intervals;
  has_dom_lead ← has_dominant_leading system intervals;
  shell ← is_dominant_shell intervals system;
  if has_dom_lead && (has_u || shell) then Ok DOMINANT
  else if has_u && negb has_dom_lead then Ok PREDOMINANT
  else if negb has_u && (has_active_l || has_h || has_o) then Ok MEDIANT
  else
    intervals_mod ← mod_set system intervals;
    if bool_decide (0 ∈ intervals) && bool_decide (perfect_fifth system ∈ intervals_mod)
    then Ok TONIC
    else Ok PREDOMINANT.

(** ** [generate_interval_quality_list] *)

(** The [if]/[elif] chain of the loop body. *)
Definition step_quality (step : Z) (cents : spec_float) : string :=
  if bool_decide (step = 0) then "s"
  else if float_lt (lit 0) cents && float_lt cents (lit 160) then "o"
  else if float_le (lit 160) cents && float_lt cents (lit 255) then "u"
  else if float_le (lit 255) cents && float_lt cents (lit 445) then "m"
  else if float_le (lit 445) cents && float_lt cents (lit 560) then "u"
  else if float_le (lit 560) cents && float_lt cents (lit 665) then "o"
  else if float_le (lit 665) cents && float_lt cents (lit 735) then "s"
  else if float_le (lit 735) cents && float_lt cents (lit 850) then "l"
  else if float_le (lit 850) cents && float_lt cents (lit 1040) then "h"
  else if float_le (lit 1040) cents && float_lt cents (lit 1200) then "l"
  else "s".

(** [step * cent_per_step] *)
Definition cents_of (cent_per_step : spec_float) (step : Z) : result spec_float :=
  fs ← float_of_int step;
  Ok (float_mul fs cent_per_step).

Definition generate_interval_quality_list (edo : Z) : result (list string) :=
  cent_per_step ← cent_per_step_of edo;
  mapM (λ step, cents ← cents_of cent_per_step step; Ok (step_quality step cents))
       (seqZ 0 edo).

(** ** The 12-EDO reference system *)

(** Modelled from the spec: the 12-EDO section of [edo_data.md], which the
    module loads at import time, is not part of the sources.  The quality
    list is the one the [Quality] comments describe (root and fifth stable,
    thirds modal, sixth and minor seventh hollow, second and fourth
    unstable, minor second and tritone odd, the half steps above the fifth
    and below the octave leading), which is also the list the generator
    returns for 12; the leading targets (11 to 0, 8 to 7) and the
    dominant-leading step (11) are the least data under which the literal
    12-EDO scenarios of [run_tests] classify as expected.  The chord shapes
    and display tables are placeholders of the right lengths. *)
Definition EDO_12_fields : EDOFields := {|
  edo := 12;
  interval_quality_list := ["s"; "o"; "u"; "m"; "m"; "u"; "o"; "s"; "l"; "h"; "h"; "l"];
  leading_targets := {[ 11 := 0; 8 := 7 ]};
  dominant_leading_intervals := {[ 11 ]};
  chord_intervals := [[0; 4; 7]; [0; 3; 7]];
  chord_notation_systems := [("full", ["maj"; "min"])];
  note_name_systems :=
    [("default", ["C"; "C#"; "D"; "D#"; "E"; "F"; "F#"; "G"; "G#"; "A"; "A#"; "B"]);
     ("numbers", ["0"; "1"; "2"; "3"; "4"; "5"; "6"; "7"; "8"; "9"; "10"; "11"])];
  current_notation := "full";
  current_note_names := "default"
|}.

Definition EDO_12 : EDOSystem := {|
  fields := EDO_12_fields;
  interval_qualities :=
    map_seqZ 0 [STABLE; ODD; UNSTABLE; MODAL; MODAL; UNSTABLE; ODD; STABLE;
                LEADING; HOLLOW; HOLLOW; LEADING];
  perfect_fifth := 7
|}.

(** ** Reading a constructed system *)

(** A system is valid when the constructor produced it. *)
Definition valid (system : EDOSystem) : Prop :=
  ∃ self, post_init self = Ok system.

(** The members of a chord reduced mod [edo], as a set. *)
Definition residues (system : EDOSystem) (intervals : gset Z) : gset Z :=
  set_map (λ i, i `mod` edo system) intervals.

(** The quality tag stored for the residue of [i]. *)
Definition quality_at (system : EDOSystem) (i : Z) : option Quality :=
  interval_qualities system !! (i `mod` edo system).

(** A member whose residue has a leading target that is not sounding. *)
Definition unresolved (system : EDOSystem) (intervals : gset Z) (m : Z) : Prop :=
  ∃ target, leading_targets system !! (m `mod` edo system) = Some target
    ∧ target `mod` edo system ∉ residues system intervals.

(** Two members, the lower first, a nonzero STABLE-tagged step apart. *)
Definition stable_pair (system : EDOSystem) (intervals : gset Z) (a b : Z) : Prop :=
  a ∈ intervals ∧ b ∈ intervals ∧ a < b
    ∧ (b - a) `mod` edo system ≠ 0
    ∧ interval_qualities system !! ((b - a) `mod` edo system) = Some STABLE.

(** The tag read for [i] in a system whose table covers every residue. *)
Definition quality_of (system : EDOSystem) (i : Z) : Quality :=
  default STABLE (quality_at system i).

(** The rule cascade at the end of [classify_chord], on the flags it tests. *)
Definition rules (has_u has_h has_o has_active_l has_dom_lead shell root fifth : bool)
    : Function :=
  if has_dom_lead && (has_u || shell) then DOMINANT
  else if has_u && negb has_dom_lead then PREDOMINANT
  else if negb has_u && (has_active_l || has_h || has_o) then MEDIANT
  else if root && fifth then TONIC
  else PREDOMINANT.

(** The same description with other presentation tables selected. *)
Definition with_presentation (self : EDOFields) (notation note_names : string)
    : EDOFields :=
  {| edo := edo self;
     interval_quality_list := interval_quality_list self;
     leading_targets := leading_targets self;
     dominant_leading_intervals := dominant_leading_intervals self;
     chord_intervals := chord_intervals self;
     chord_notation_systems := chord_notation_systems self;
     note_name_systems := note_name_systems self;
     current_notation := notation;
     current_note_names := note_names |}.

(** Assignment to the two presentation attributes of a constructed system. *)
Definition select_presentation (system : EDOSystem) (notation note_names : string)
    : EDOSystem :=
  {| fields := with_presentation system notation note_names;
     interval_qualities := interval_qualities system;
     perfect_fifth := perfect_fifth system |}.

(** Two systems with the same structural data: everything but the
    display tables and the presentation selection. *)
Definition same_structure (s1 s2 : EDOSystem) : Prop :=
  edo s1 = edo s2
  ∧ leading_targets s1 = leading_targets s2
  ∧ dominant_leading_intervals s1 = dominant_leading_intervals s2
  ∧ interval_qualities s1 = interval_qualities s2
  ∧ perfect_fifth s1 = perfect_fifth s2.

(** ** Reading floats *)

Definition is_nan (f : spec_float) : bool :=
  match f with
  | S754_nan => true
  | _ => false
  end.

Definition is_finite_or_zero (f : spec_float) : bool :=
  match f with
  | S754_zero _ | S754_finite _ _ _ => true
  | _ => false
  end.

(** [SFcompare] orders the floats that are not NaN as it orders these
    triples lexicographically. *)
Definition rank (f : spec_float) : Z * Z * Z :=
  match f with
  | S754_nan => (0, 0, 0)
  | S754_zero _ => (0, 0, 0)
  | S754_infinity s => (if s then -2 else 2, 0, 0)
  | S754_finite false m e => (1, e, Z.pos m)
  | S754_finite true m e => (-1, - e, - Z.pos m)
  end.

Definition lt3 (a b : Z * Z * Z) : Prop :=
  a.1.1 < b.1.1 ∨ (a.1.1 = b.1.1 ∧ (a.1.2 < b.1.2 ∨ (a.1.2 = b.1.2 ∧ a.2 < b.2))).

Definition eq3 (a b : Z * Z * Z) : Prop :=
  a.1.1 = b.1.1 ∧ a.1.2 = b.1.2 ∧ a.2 = b.2.

(** ** The cents buckets of the generator, as a table *)

Record bucket : Type := mkBucket {
  lo : Z;
  lo_open : bool;
  hi : Z;
  tag : string
}.

Definition cents_buckets : list bucket :=
  [ mkBucket 0 true 160 "o";
    mkBucket 160 false 255 "u";
    mkBucket 255 false 445 "m";
    mkBucket 445 false 560 "u";
    mkBucket 560 false 665 "o";
    mkBucket 665 false 735 "s";
    mkBucket 735 false 850 "l";
    mkBucket 850 false 1040 "h";
    mkBucket 1040 false 1200 "l" ].


(** ** The two numeric claims read over the rationals *)

Definition Qlt_bool (x y : Q) : bool := negb (Qle_bool y x).

(** [step * 1200/edo], exactly. *)
Definition exact_cents (edo step : Z) : Q :=
  (inject_Z step * (inject_Z 1200 / inject_Z edo))%Q.

Definition in_bucket_exact (b : bucket) (cents : Q) : bool :=
  (if lo_open b then Qlt_bool (inject_Z (lo b)) cents
   else Qle_bool (inject_Z (lo b)) cents)
  && Qlt_bool cents (inject_Z (hi b)).

(** The quality the bucket table assigns to a step when cents are exact. *)
Definition stated_quality (edo step : Z) : option string :=
  if bool_decide (step = 0) then Some "s"
  else tag <$> List.find (λ b, in_bucket_exact b (exact_cents edo step)) cents_buckets.

(** [|i * (1200/edo) - 702|], exactly. *)
Definition exact_distance (edo i : Z) : Q :=
  Qabs (inject_Z i * (inject_Z 1200 / inject_Z edo) - inject_Z 702)%Q.

(** The lowest index in [0, edo) at minimal exact distance from 702 cents. *)
Definition stated_fifth (edo : Z) : Z :=
  foldl (λ best i,
           if Qlt_bool (exact_distance edo i) (exact_distance edo best) then i else best)
        0 (seqZ 0 edo).

(** A system built from the generator's quality list alone. *)
Definition generated_fields (n : Z) : result EDOFields :=
  qs ← generate_interval_quality_list n;
  Ok {| edo := n;
        interval_quality_list := qs;
        leading_targets := ∅;
        dominant_leading_intervals := ∅;
        chord_intervals := [];
        chord_notation_systems := [];
        note_name_systems := [];
        current_notation := "full";
        current_note_names := "default" |}.

(** The six codes of [quality_map]. *)
Definition known_code (q : string) : Prop :=
  q ∈ ["s"; "m"; "h"; "u"; "l"; "o"].

(** A table whose length is not the expected one. *)
Definition bad_table (expected : Z) (t : string * list string) : Prop :=
  len t.2 ≠ expected.

#[global] Instance known_code_dec (q : string) : Decision (known_code q).
Proof. unfold known_code. apply _. Defined.

#[global] Instance bad_table_dec (expected : Z) (t : string * list string) :
  Decision (bad_table expected t).
Proof. unfold bad_table. apply _. Defined.

(** A two-step description with a misspelt quality code and an empty
    notation table for its one chord shape. *)
Definition unknown_code_fields : EDOFields := {|
  edo := 2;
  interval_quality_list := ["s"; "x"];
  leading_targets := ∅;
  dominant_leading_intervals := ∅;
  chord_intervals := [[0; 1]];
  chord_notation_systems := [("full", [])];
  note_name_systems := [("numbers", ["0"; "1"])];
  current_notation := "full";
  current_note_names := "default"
|}.

(** A description with [edo = 0] and no entries at all. *)
Definition zero_edo_fields : EDOFields := {|
  edo := 0;
  interval_quality_list := [];
  leading_targets := ∅;
  dominant_leading_intervals := ∅;
  chord_intervals := [];
  chord_notation_systems := [];
  note_name_systems := [];
  current_notation := "full";
  current_note_names := "default"
|}.

(** The reference description with the last entry of one note-name
    table dropped. *)
Definition EDO_12_truncated : EDOFields := {|
  edo := 12;
  interval_quality_list := interval_quality_list EDO_12_fields;
  leading_targets := leading_targets EDO_12_fields;
  dominant_leading_intervals := dominant_leading_intervals EDO_12_fields;
  chord_intervals := chord_intervals EDO_12_fields;
  chord_notation_systems := chord_notation_systems EDO_12_fields;
  note_name_systems :=
    [("default", ["C"; "C#"; "D"; "D#"; "E"; "F"; "F#"; "G"; "G#"; "A"; "A#"; "B"]);
     ("numbers", ["0"; "1"; "2"; "3"; "4"; "5"; "6"; "7"; "8"; "9"; "10"])];
  current_notation := "full";
  current_note_names := "default"
|}.

(** A 12-EDO description that also marks the fourth (step 5) as a
    dominant-leading step, resolving to the major third (step 4). *)
Definition EDO_12_fourth_fields : EDOFields := {|
  edo := 12;
  interval_quality_list := interval_quality_list EDO_12_fields;
  leading_targets := {[ 11 := 0; 8 := 7; 5 := 4 ]};
  dominant_leading_intervals := {[ 11; 5 ]};
  chord_intervals := chord_intervals EDO_12_fields;
  chord_notation_systems := chord_notation_systems EDO_12_fields;
  note_name_systems := note_name_systems EDO_12_fields;
  current_notation := "full";
  current_note_names := "default"
|}.

Definition EDO_12_fourth : EDOSystem := {|
  fields := EDO_12_fourth_fields;
  interval_qualities := interval_qualities EDO_12;
  perfect_fifth := 7
|}.

(** The EDO sizes the module loads from its data file, and the size
    [generate_27edo.py] generates. *)
Definition registry_sizes : list Z := [12; 15; 17; 19; 20; 22; 23; 26; 27; 31; 53].

(** The generated list read against the bucket table with exact cents. *)
Definition generator_matches_table (n : Z) : bool :=
  match generate_interval_quality_list n with
  | Ok l => bool_decide (Some <$> l = stated_quality n <$> seqZ 0 n)
  | Raise _ => false
  end.

(** The perfect fifth stored when the generated description is constructed. *)
Definition constructed_fifth (n : Z) : result Z :=
  self ← generated_fields n;
  system ← post_init self;
  Ok (perfect_fifth system).

(** ** Dictionaries with string keys, in insertion order *)

(** [d[k]], raising [KeyError] for a key that is not there. *)
Fixpoint dict_lookup {V} (d : list (string * V)) (k : string) : result V :=
  match d with
  | [] => Raise (KeyError k)
  | (k', v) :: d' => if bool_decide (k' = k) then Ok v else dict_lookup d' k
  end.

(** [d[k] = v]: a key already there keeps its place and takes the new
    value, a new key goes last. *)
Fixpoint dict_set {V} (d : list (string * V)) (k : string) (v : V)
    : list (string * V) :=
  match d with
  | [] => [(k, v)]
  | (k', v') :: d' =>
      if bool_decide (k' = k) then (k', v) :: d' else (k', v') :: dict_set d' k v
  end.

(** [{k: v for k, v in pairs}] *)
Definition dict_of_pairs {V} (pairs : list (string * V)) : list (string * V) :=
  foldl (λ d kv, dict_set d kv.1 kv.2) [] pairs.

(** ** The display methods of [EDOSystem] *)

(** The [chord_types] property. *)
Definition chord_types (self : EDOSystem) : result (list (string * list Z)) :=
  names ← dict_lookup (chord_notation_systems self) (current_notation self);
  Ok (dict_of_pairs (zip names (chord_intervals self))).

Definition get_note_names (self : EDOSystem) : result (list string) :=
  dict_lookup (note_name_systems self) (current_note_names self).

(** ** [analyze_chord] *)

(** The dictionary [analyze_chord] returns, one field per key. *)
Module Analysis.
Record t : Type := mk {
  name : string;
  intervals : list Z;
  qualities : list (Z * Quality);
  has_unstable : bool;
  has_active_leading : bool;
  has_hollow : bool;
  has_odd : bool;
  has_dominant_leading : bool;
  function : Function
}.
End Analysis.

Definition analyze_chord (intervals : gset Z) (system : EDOSystem) (name : string)
    : result Analysis.t :=
  qualities ← mapM (λ i, q ← get_quality system i; Ok (i, q))
                   (merge_sort Z.le (elements intervals));
  let quality_set : gset Quality := list_to_set (qualities.*2) in
  has_active_l ← has_active_leading system intervals;
  has_dom_lead ← has_dominant_leading system intervals;
  function ← classify_chord intervals system;
  Ok {| Analysis.name := name;
        Analysis.intervals := merge_sort Z.le (elements intervals);
        Analysis.qualities := qualities;
        Analysis.has_unstable := bool_decide (UNSTABLE ∈ quality_set);
        Analysis.has_active_leading := has_active_l;
        Analysis.has_hollow := bool_decide (HOLLOW ∈ quality_set);
        Analysis.has_odd := bool_decide (ODD ∈ quality_set);
        Analysis.has_dominant_leading := has_dom_lead;
        Analysis.function := function |}.

(** ** The chords of the function tables *)

(** [{(root + i) % system.edo for i in chord_intervals}], the chord that
    [print_triad_table], [run_comprehensive_chromatic_tests] and
    [generate_html_table] build for a root and a chord shape. *)
Definition transposed_chord (system : EDOSystem) (root : Z) (chord_intervals : list Z)
    : result (gset Z) :=
  ms ← mapM (λ i, py_mod (root + i) (edo system)) chord_intervals;
  Ok (list_to_set ms).

(** The function written into the cell of that root and shape. *)
Definition table_cell (system : EDOSystem) (root : Z) (chord_intervals : list Z)
    : result Function :=
  intervals ← transposed_chord system root chord_intervals;
  classify_chord intervals system.

(** ** [generate_all_triads] *)

(** [[i for i, q in enumerate(qualities) if q == 'm' and i > 0]] *)
Definition modal_thirds (qualities : list string) : list Z :=
  (filter (λ iq : Z * string, iq.2 = "m" ∧ 0 < iq.1)
          (zip (seqZ 0 (len qualities)) qualities)).*1.

(** The two nested loops: a triad [(0, third1, fifth)] per pair of thirds. *)
Definition stacked_triads (edo : Z) (thirds : list Z) : result (list (Z * Z * Z)) :=
  rows ← mapM (λ third1,
                 mapM (λ third2,
                         fifth ← py_mod (third1 + third2) edo;
                         Ok (0, third1, fifth))
                      thirds)
              thirds;
  Ok (concat rows).

(** The order of the sort keys [(x[2], x[1])]. *)
Definition triad_key_le (a b : Z * Z * Z) : Prop :=
  a.2 < b.2 ∨ (a.2 = b.2 ∧ a.1.2 ≤ b.1.2).

#[global] Instance triad_key_le_dec (a b : Z * Z * Z) : Decision (triad_key_le a b).
Proof. unfold triad_key_le. apply _. Defined.

Definition generate_all_triads (edo : Z) (qualities : option (list string))
    : result (list (Z * Z * Z)) :=
  qualities ← match qualities with
              | Some qs => Ok qs
              | None => generate_interval_quality_list edo
              end;
  triads ← stacked_triads edo (modal_thirds qualities);
  Ok (merge_sort triad_key_le triads).

(** ** What [print_generated_triads] computes before it prints *)

(** The loop over [triads] that keeps in [unique_triads] the triads not
    yet in [seen]. *)
Fixpoint unique_loop (seen : gset (Z * Z * Z)) (triads : list (Z * Z * Z))
    : list (Z * Z * Z) :=
  match triads with
  | [] => []
  | triad :: rest =>
      if bool_decide (triad ∈ seen) then unique_loop seen rest
      else triad :: unique_loop ({[ triad ]} ∪ seen) rest
  end.

Definition unique_triads (triads : list (Z * Z * Z)) : list (Z * Z * Z) :=
  unique_loop ∅ triads.

(** [sorted(set(t[1] for t in triads))] *)
Definition thirds_used (triads : list (Z * Z * Z)) : list Z :=
  merge_sort Z.le (elements (list_to_set ((λ t, t.1.2) <$> triads) : gset Z)).

(** The search, for one row, of the first [t2] in [thirds_list] with
    [(third1 + t2) % edo == fifth]; [None] prints the row with [?]. *)
Fixpoint second_third (edo third1 fifth : Z) (thirds_list : list Z)
    : result (option Z) :=
  match thirds_list with
  | [] => Ok None
  | t2 :: rest =>
      r ← py_mod (third1 + t2) edo;
      if bool_decide (r = fifth) then Ok (Some t2)
      else second_third edo third1 fifth rest
  end.

(** The triads [generate_27edo.py] lists by hand. *)
Definition triads_27 : list (Z * Z * Z) :=
  [(0, 6, 12); (0, 6, 13); (0, 7, 13); (0, 6, 14); (0, 7, 14); (0, 8, 14);
   (0, 6, 15); (0, 7, 15); (0, 8, 15); (0, 9, 15); (0, 6, 16); (0, 7, 16);
   (0, 8, 16); (0, 9, 16); (0, 10, 16); (0, 7, 17); (0, 8, 17); (0, 9, 17);
   (0, 10, 17); (0, 8, 18); (0, 9, 18); (0, 10, 18); (0, 9, 19); (0, 10, 19);
   (0, 10, 20)].

(** The reference description without its two leading blocks and
    without display tables, and the system it constructs. *)
Definition EDO_12_bare_fields : EDOFields := {|
  edo := 12;
  interval_quality_list := interval_quality_list EDO_12_fields;
  leading_targets := ∅;
  dominant_leading_intervals := ∅;
  chord_intervals := [];
  chord_notation_systems := [];
  note_name_systems := [];
  current_notation := "full";
  current_note_names := "default"
|}.

Definition EDO_12_bare : EDOSystem := {|
  fields := EDO_12_bare_fields;
  interval_qualities := interval_qualities EDO_12;
  perfect_fifth := 7
|}.

(** The reference description with its leading blocks and no display
    tables, and the system it constructs. *)
Definition EDO_12_no_tables_fields : EDOFields := {|
  edo := 12;
  interval_quality_list := interval_quality_list EDO_12_fields;
  leading_targets := leading_targets EDO_12_fields;
  dominant_leading_intervals := dominant_leading_intervals EDO_12_fields;
  chord_intervals := [];
  chord_notation_systems := [];
  note_name_systems := [];
  current_notation := "full";
  current_note_names := "default"
|}.

Definition EDO_12_no_tables : EDOSystem := {|
  fields := EDO_12_no_tables_fields;
  interval_qualities := interval_qualities EDO_12;
  perfect_fifth := 7
|}.

(** * Properties *)

(** ** The error monad *)

Lemma bind_Ok {A B} (m : result A) (k : A → result B) (b : B) :
  m ≫= k = Ok b ↔ ∃ a, m = Ok a ∧ k a = Ok b.
Proof.
  destruct m as [a|e]; simpl; split.
  - intros H. exists a. split; [reflexivity | exact H].
  - intros (a' & [= <-] & H). exact H.
  - intros [=].
  - intros (a' & [=] & _).
Qed.

Lemma mapM_Ok_fmap {A B} (f : A → result B) (g : A → B) (l : list A) :
  (∀ x, x ∈ l → f x = Ok (g x)) → mapM f l = Ok (g <$> l).
Proof.
  induction l as [|x l IH]; intros Hf; [reflexivity |].
  simpl. rewrite Hf by left. simpl.
  rewrite IH; [reflexivity |]. intros y Hy. apply Hf. by right.
Qed.

Lemma mapM_Ok_length {A B} (f : A → result B) (l : list A) (k : list B) :
  mapM f l = Ok k → length k = length l.
Proof.
  revert k. induction l as [|x l IH]; intros k; simpl.
  - by intros [= <-].
  - intros H. apply bind_Ok in H as (y & _ & H).
    apply bind_Ok in H as (k' & Hk' & [= <-]). simpl. by rewrite (IH k').
Qed.

Lemma mapM_Ok_lookup {A B} (f : A → result B) (l : list A) (k : list B) (i : nat) (x : A) :
  mapM f l = Ok k → l !! i = Some x → ∃ y, f x = Ok y ∧ k !! i = Some y.
Proof.
  revert k i. induction l as [|x' l IH]; intros k i; simpl; [by intros _ [=] |].
  intros H Hi. apply bind_Ok in H as (y & Hy & H).
  apply bind_Ok in H as (k' & Hk' & [= <-]).
  destruct i as [|i]; simpl in *.
  - injection Hi as <-. eauto.
  - eauto.
Qed.

Lemma py_mod_Ok (a b : Z) : b ≠ 0 → py_mod a b = Ok (a `mod` b).
Proof. intros Hb. unfold py_mod. by rewrite bool_decide_eq_false_2. Qed.

(** ** What construction establishes *)

Lemma float_of_int_0 : float_of_int 0 = Ok (S754_zero false).
Proof. reflexivity. Qed.

Lemma cent_per_step_of_pos (e : Z) (c : spec_float) :
  cent_per_step_of e = Ok c → e ≠ 0.
Proof. intros H ->. discriminate H. Qed.

Lemma post_init_inv (self : EDOFields) (system : EDOSystem) :
  post_init self = Ok system →
  fields system = self
  ∧ len (interval_quality_list self) = edo self
  ∧ ∃ qs c,
      mapM quality_map (interval_quality_list self) = Ok qs
      ∧ interval_qualities system = map_seqZ 0 qs
      ∧ cent_per_step_of (edo self) = Ok c
      ∧ py_min (fifth_key c) (seqZ 0 (edo self)) = Ok (perfect_fifth system)
      ∧ check_tables (len (chord_intervals self)) (notation_error self)
          (chord_notation_systems self) = Ok ()
      ∧ check_tables (edo self) (note_names_error self) (note_name_systems self) = Ok ().
Proof.
  unfold post_init. case_bool_decide as Hlen; [discriminate |].
  intros H.
  apply bind_Ok in H as (qs & Hqs & H).
  apply bind_Ok in H as (c & Hc & H).
  apply bind_Ok in H as (fifth & Hfifth & H).
  apply bind_Ok in H as ([] & Hn & H).
  apply bind_Ok in H as ([] & Hm & H).
  injection H as <-. simpl.
  split; [reflexivity |]. split; [lia |].
  exists qs, c. by repeat split.
Qed.

Lemma valid_edo_pos (system : EDOSystem) : valid system → 0 < edo system.
Proof.
  intros [self H]. apply post_init_inv in H as (<- & Hlen & qs & c & _ & _ & Hc & _).
  apply cent_per_step_of_pos in Hc. unfold len in Hlen. lia.
Qed.

Lemma valid_lookup (system : EDOSystem) (k : Z) :
  valid system → 0 ≤ k < edo system → is_Some (interval_qualities system !! k).
Proof.
  intros [self H] Hk.
  apply post_init_inv in H as (<- & Hlen & qs & c & Hqs & -> & _).
  rewrite lookup_map_seqZ_0 by lia.
  apply lookup_lt_is_Some. rewrite (mapM_Ok_length _ _ _ Hqs).
  unfold len in Hlen. lia.
Qed.

Lemma valid_quality_at (system : EDOSystem) (i : Z) :
  valid system → is_Some (quality_at system i).
Proof.
  intros Hv. apply valid_lookup; [done |].
  apply Z.mod_pos_bound, valid_edo_pos, Hv.
Qed.

(** ** The predicates on a valid system *)

Section predicates.
Context (system : EDOSystem) (Hv : valid system).

Local Abbreviation e := (edo system).

Lemma edo_nonzero : e ≠ 0.
Proof using Hv. pose proof (valid_edo_pos system Hv). lia. Qed.

Lemma get_quality_Ok (i : Z) : get_quality system i = Ok (quality_of system i).
Proof using Hv.
  unfold get_quality. rewrite py_mod_Ok by apply edo_nonzero. simpl.
  destruct (valid_quality_at system i Hv) as [q Hq].
  unfold quality_of. rewrite Hq. unfold quality_at in Hq.
  unfold dict_get. by rewrite Hq.
Qed.

Lemma quality_of_at (i : Z) (q : Quality) :
  quality_of system i = q ↔ quality_at system i = Some q.
Proof using Hv.
  unfold quality_of. destruct (valid_quality_at system i Hv) as [q' ->].
  simpl. naive_solver.
Qed.

Lemma get_qualities_Ok (X : gset Z) :
  get_qualities system X = Ok (set_map (quality_of system) X).
Proof using Hv.
  unfold get_qualities.
  rewrite (mapM_Ok_fmap _ (quality_of system)); [reflexivity |].
  intros i _. apply get_quality_Ok.
Qed.

Lemma has_quality_spec (X : gset Z) (q : Quality) :
  ∃ b, has_quality system X q = Ok b
       ∧ (b = true ↔ ∃ m, m ∈ X ∧ quality_at system m = Some q).
Proof using Hv.
  unfold has_quality. rewrite get_qualities_Ok. simpl.
  eexists. split; [reflexivity |].
  rewrite bool_decide_eq_true, elem_of_map.
  split; intros (m & H1 & H2); exists m.
  - split; [done |]. by apply quality_of_at.
  - split; [| done]. symmetry. by apply quality_of_at.
Qed.

Lemma mod_set_Ok (X : gset Z) : mod_set system X = Ok (residues system X).
Proof using Hv.
  unfold mod_set.
  rewrite (mapM_Ok_fmap _ (λ i, i `mod` e)); [reflexivity |].
  intros i _. apply py_mod_Ok, edo_nonzero.
Qed.

Lemma target_absent_spec (X : gset Z) (m : Z) :
  ∃ b, target_absent system (residues system X) m = Ok b
       ∧ (b = true ↔ unresolved system X m).
Proof using Hv.
  unfold target_absent, unresolved.
  rewrite py_mod_Ok by apply edo_nonzero. simpl.
  destruct (leading_targets system !! (m `mod` e)) as [t|].
  - rewrite py_mod_Ok by apply edo_nonzero. simpl.
    eexists. split; [reflexivity |]. rewrite bool_decide_eq_true.
    split; [by eauto |]. by intros (t' & [= <-] & H).
  - exists false. split; [reflexivity |].
    split; [done |]. by intros (t' & [=] & _).
Qed.

Lemma active_leading_loop_spec (X : gset Z) (l : list Z) :
  ∃ b, active_leading_loop system (residues system X) l = Ok b
       ∧ (b = true ↔ ∃ m, m ∈ l ∧ quality_at system m = Some LEADING
                          ∧ unresolved system X m).
Proof using Hv.
  induction l as [|m l (b & IH & Hb)]; simpl.
  - exists false. split; [reflexivity |]. split; [done |].
    intros (m & Hm & _). by apply elem_of_nil in Hm.
  - rewrite get_quality_Ok. simpl.
    destruct (target_absent_spec X m) as (t & Ht & Htb).
    case_bool_decide as Hq.
    + rewrite Ht. simpl. destruct t.
      * exists true. split; [reflexivity |]. split; [| done]. intros _.
        exists m. split; [by left |]. split; [by apply quality_of_at | by apply Htb].
      * exists b. split; [exact IH |]. rewrite Hb.
        split; intros (m' & Hm' & Hl & Hu).
        -- exists m'. split; [by right | done].
        -- apply elem_of_cons in Hm' as [-> | Hm'].
           ++ apply Htb in Hu. discriminate.
           ++ by exists m'.
    + exists b. split; [exact IH |]. rewrite Hb.
      split; intros (m' & Hm' & Hl & Hu).
      * exists m'. split; [by right | done].
      * apply elem_of_cons in Hm' as [-> | Hm'].
        -- apply quality_of_at in Hl. contradiction.
        -- by exists m'.
Qed.

Lemma has_active_leading_spec (X : gset Z) :
  ∃ b, has_active_leading system X = Ok b
       ∧ (b = true ↔ ∃ m, m ∈ X ∧ quality_at system m = Some LEADING
                          ∧ unresolved system X m).
Proof using Hv.
  unfold has_active_leading. rewrite mod_set_Ok. simpl.
  destruct (active_leading_loop_spec X (elements X)) as (b & -> & Hb).
  exists b. split; [reflexivity |]. rewrite Hb.
  by setoid_rewrite elem_of_elements.
Qed.

Lemma dominant_leading_loop_spec (X : gset Z) (l : list Z) :
  ∃ b, dominant_leading_loop system (residues system X) l = Ok b
       ∧ (b = true ↔ ∃ m, m ∈ l ∧ m `mod` e ∈ dominant_leading_intervals system
                          ∧ unresolved system X m).
Proof using Hv.
  induction l as [|m l (b & IH & Hb)]; simpl.
  - exists false. split; [reflexivity |]. split; [done |].
    intros (m & Hm & _). by apply elem_of_nil in Hm.
  - rewrite py_mod_Ok by apply edo_nonzero. simpl.
    destruct (target_absent_spec X m) as (t & Ht & Htb).
    case_bool_decide as Hq.
    + rewrite Ht. simpl. destruct t.
      * exists true. split; [reflexivity |]. split; [| done]. intros _.
        exists m. split; [by left |]. split; [done | by apply Htb].
      * exists b. split; [exact IH |]. rewrite Hb.
        split; intros (m' & Hm' & Hl & Hu).
        -- exists m'. split; [by right | done].
        -- apply elem_of_cons in Hm' as [-> | Hm'].
           ++ apply Htb in Hu. discriminate.
           ++ by exists m'.
    + exists b. split; [exact IH |]. rewrite Hb.
      split; intros (m' & Hm' & Hl & Hu).
      * exists m'. split; [by right | done].
      * apply elem_of_cons in Hm' as [-> | Hm'].
        -- contradiction.
        -- by exists m'.
Qed.

Lemma has_dominant_leading_spec (X : gset Z) :
  ∃ b, has_dominant_leading system X = Ok b
       ∧ (b = true ↔ ∃ m, m ∈ X ∧ m `mod` e ∈ dominant_leading_intervals system
                          ∧ unresolved system X m).
Proof using Hv.
  unfold has_dominant_leading. rewrite mod_set_Ok. simpl.
  destruct (dominant_leading_loop_spec X (elements X)) as (b & -> & Hb).
  exists b. split; [reflexivity |]. rewrite Hb.
  by setoid_rewrite elem_of_elements.
Qed.

End predicates.

(** ** The dominant shell *)

Lemma StronglySorted_le_lt (l : list Z) :
  StronglySorted Z.le l → NoDup l → StronglySorted Z.lt l.
Proof.
  induction 1 as [|x l Hs IH Hx]; intros Hnd; [constructor |].
  apply NoDup_cons in Hnd as [Hx' Hnd].
  constructor; [by apply IH |].
  rewrite Forall_forall in Hx |- *. intros y Hy.
  assert (x ≠ y) by (intros ->; contradiction).
  specialize (Hx y Hy). lia.
Qed.

Lemma sorted_elements_lt (X : gset Z) :
  StronglySorted Z.lt (merge_sort Z.le (elements X)).
Proof.
  apply StronglySorted_le_lt.
  - apply (StronglySorted_merge_sort Z.le).
  - rewrite merge_sort_Permutation. apply NoDup_elements.
Qed.

Lemma elem_of_sorted_elements (X : gset Z) (x : Z) :
  x ∈ merge_sort Z.le (elements X) ↔ x ∈ X.
Proof. by rewrite merge_sort_Permutation, elem_of_elements. Qed.

Section shell.
Context (system : EDOSystem) (Hv : valid system).

Local Abbreviation e := (edo system).

Lemma elem_of_stable_interval_values (d : Z) :
  d ∈ stable_interval_values system
  ↔ d ≠ 0 ∧ interval_qualities system !! d = Some STABLE.
Proof.
  unfold stable_interval_values. rewrite elem_of_dom. split.
  - intros [q Hq]. apply map_lookup_filter_Some in Hq as [Hq [Hs Hd]].
    simpl in *. by subst q.
  - intros [Hd Hq]. exists STABLE. by apply map_lookup_filter_Some.
Qed.

Lemma any_after_spec (x : Z) (l : list Z) :
  ∃ b, any_after system (stable_interval_values system) x l = Ok b
       ∧ (b = true ↔ ∃ y, y ∈ l ∧ (y - x) `mod` e ∈ stable_interval_values system).
Proof using Hv.
  induction l as [|y l (b & IH & Hb)]; simpl.
  - exists false. split; [reflexivity |]. split; [done |].
    intros (y & Hy & _). by apply elem_of_nil in Hy.
  - rewrite py_mod_Ok by by apply edo_nonzero. simpl.
    case_bool_decide as Hd.
    + exists true. split; [reflexivity |]. split; [| done]. intros _.
      exists y. split; [by left | done].
    + exists b. split; [exact IH |]. rewrite Hb.
      split; intros (y' & Hy' & Hs).
      * exists y'. split; [by right | done].
      * apply elem_of_cons in Hy' as [-> | Hy']; [contradiction |]. by exists y'.
Qed.

Lemma any_pair_spec (l : list Z) :
  StronglySorted Z.lt l →
  ∃ b, any_pair system (stable_interval_values system) l = Ok b
       ∧ (b = true ↔ ∃ x y, x ∈ l ∧ y ∈ l ∧ x < y
                            ∧ (y - x) `mod` e ∈ stable_interval_values system).
Proof using Hv.
  induction 1 as [|x l Hs (b & IH & Hb) Hx]; simpl.
  - exists false. split; [reflexivity |]. split; [done |].
    intros (x & y & Hx & _). by apply elem_of_nil in Hx.
  - rewrite Forall_forall in Hx.
    destruct (any_after_spec x l) as (a & -> & Ha). simpl.
    destruct a.
    + exists true. split; [reflexivity |]. split; [| done]. intros _.
      destruct Ha as [(y & Hy & Hd) _]; [done |].
      exists x, y. split; [by left |]. split; [by right |]. split; [by apply Hx | done].
    + exists b. split; [exact IH |]. rewrite Hb.
      split; intros (x' & y' & Hx' & Hy' & Hlt & Hd).
      * exists x', y'. split; [by right |]. split; [by right | done].
      * apply elem_of_cons in Hx' as [-> | Hx'];
          apply elem_of_cons in Hy' as [-> | Hy'].
        -- lia.
        -- assert (false = true) as [=]. apply Ha. by exists y'.
        -- specialize (Hx x' Hx'). lia.
        -- by exists x', y'.
Qed.

Lemma has_internal_stable_spec (X : gset Z) :
  ∃ b, has_internal_stable X system = Ok b
       ∧ (b = true ↔ ∃ x y, stable_pair system X x y).
Proof using Hv.
  unfold has_internal_stable.
  destruct (any_pair_spec _ (sorted_elements_lt X)) as (b & -> & Hb).
  exists b. split; [reflexivity |]. rewrite Hb. unfold stable_pair.
  split; intros (x & y & H); exists x, y.
  - destruct H as (Hx & Hy & Hlt & Hd).
    apply elem_of_sorted_elements in Hx, Hy.
    apply elem_of_stable_interval_values in Hd. tauto.
  - destruct H as (Hx & Hy & Hlt & Hd & Hq).
    rewrite !elem_of_sorted_elements, elem_of_stable_interval_values. tauto.
Qed.

Lemma stable_filter_Ok (l : list Z) :
  stable_filter system l = Ok (filter (λ i, quality_of system i = STABLE) l).
Proof using Hv.
  induction l as [|i l IH]; [reflexivity |]. simpl.
  rewrite get_quality_Ok by done. simpl. rewrite IH. simpl.
  rewrite filter_cons. by repeat case_decide; case_bool_decide.
Qed.

Lemma stable_members_spec (X : gset Z) :
  ∃ S : gset Z, stable_members system X = Ok S
    ∧ ((0 < size S)%nat ↔ ∃ m, m ∈ X ∧ quality_at system m = Some STABLE).
Proof using Hv.
  unfold stable_members. rewrite stable_filter_Ok. simpl.
  eexists. split; [reflexivity |]. split.
  - intros Hs. apply size_pos_elem_of in Hs as [m Hm].
    apply elem_of_list_to_set, list_elem_of_filter in Hm as [Hq Hm].
    exists m. split; [by apply elem_of_elements |]. by apply quality_of_at.
  - intros (m & Hm & Hq).
    assert (m ∈ (list_to_set (filter (λ i, quality_of system i = STABLE) (elements X))
                 : gset Z)) as Hin.
    { apply elem_of_list_to_set, list_elem_of_filter.
      split; [by apply quality_of_at | by apply elem_of_elements]. }
    destruct (decide (size ((list_to_set (filter (λ i, quality_of system i = STABLE)
                (elements X))) : gset Z) = 0%nat)) as [H0|H0]; [| lia].
    apply size_empty_iff in H0. set_solver.
Qed.

Lemma is_dominant_shell_spec (X : gset Z) :
  ∃ b, is_dominant_shell X system = Ok b
       ∧ (b = true ↔ (∃ m, m ∈ X ∧ quality_at system m = Some STABLE)
                     ∧ (0 ∉ X)
                     ∧ ¬ ∃ x y, stable_pair system X x y).
Proof using Hv.
  unfold is_dominant_shell.
  destruct (stable_members_spec X) as (S & -> & HS). simpl.
  destruct (has_internal_stable_spec X) as (i & -> & Hi). simpl.
  eexists. split; [reflexivity |].
  rewrite !andb_true_iff, negb_true_iff, !bool_decide_eq_true, HS.
  rewrite <- Hi. destruct i; intuition congruence.
Qed.

End shell.

(** ** The classifier reads only the structural data *)

Section extensionality.
Context (s1 s2 : EDOSystem).
Context (He : edo s1 = edo s2).

Lemma mod_set_ext (X : gset Z) : mod_set s1 X = mod_set s2 X.
Proof using He. unfold mod_set. by rewrite He. Qed.

Context (Ht : leading_targets s1 = leading_targets s2).

Lemma target_absent_ext (R : gset Z) (m : Z) :
  target_absent s1 R m = target_absent s2 R m.
Proof using He Ht. unfold target_absent. by rewrite He, Ht. Qed.

Context (Hd : dominant_leading_intervals s1 = dominant_leading_intervals s2).

Lemma has_dominant_leading_ext (X : gset Z) :
  has_dominant_leading s1 X = has_dominant_leading s2 X.
Proof using He Ht Hd.
  unfold has_dominant_leading. rewrite mod_set_ext.
  destruct (mod_set s2 X) as [R|]; [simpl | reflexivity].
  induction (elements X) as [|m l IH]; [reflexivity |]. simpl.
  by rewrite He, Hd, target_absent_ext, IH.
Qed.

Context (Hq : interval_qualities s1 = interval_qualities s2).

Lemma get_quality_ext (i : Z) : get_quality s1 i = get_quality s2 i.
Proof using He Hq. unfold get_quality. by rewrite He, Hq. Qed.

Lemma has_quality_ext (X : gset Z) (q : Quality) :
  has_quality s1 X q = has_quality s2 X q.
Proof using He Hq.
  unfold has_quality, get_qualities.
  assert (∀ l, mapM (get_quality s1) l = mapM (get_quality s2) l) as ->;
    [| reflexivity].
  induction l as [|i l IH]; [reflexivity |]. simpl.
  by rewrite get_quality_ext, IH.
Qed.

Lemma has_active_leading_ext (X : gset Z) :
  has_active_leading s1 X = has_active_leading s2 X.
Proof using He Ht Hq.
  unfold has_active_leading. rewrite mod_set_ext.
  destruct (mod_set s2 X) as [R|]; [simpl | reflexivity].
  induction (elements X) as [|m l IH]; [reflexivity |]. simpl.
  by rewrite get_quality_ext, target_absent_ext, IH.
Qed.

Lemma is_dominant_shell_ext (X : gset Z) :
  is_dominant_shell X s1 = is_dominant_shell X s2.
Proof using He Hq.
  unfold is_dominant_shell, stable_members, has_internal_stable.
  assert (∀ l, stable_filter s1 l = stable_filter s2 l) as ->.
  { induction l as [|i l IH]; [reflexivity |]. simpl.
    by rewrite get_quality_ext, IH. }
  assert (∀ V x l, any_after s1 V x l = any_after s2 V x l) as Ha.
  { intros V x. induction l as [|y l IH]; [reflexivity |]. simpl.
    by rewrite He, IH. }
  assert (∀ V l, any_pair s1 V l = any_pair s2 V l) as ->.
  { intros V. induction l as [|y l IH]; [reflexivity |]. simpl.
    by rewrite Ha, IH. }
  unfold stable_interval_values. by rewrite Hq.
Qed.

Context (Hp : perfect_fifth s1 = perfect_fifth s2).

Lemma classify_chord_ext (X : gset Z) : classify_chord X s1 = classify_chord X s2.
Proof using He Ht Hd Hq Hp.
  unfold classify_chord.
  rewrite !has_quality_ext, has_active_leading_ext, has_dominant_leading_ext,
    is_dominant_shell_ext, mod_set_ext, Hp.
  reflexivity.
Qed.

End extensionality.

Lemma classify_chord_same_structure (s1 s2 : EDOSystem) (X : gset Z) :
  same_structure s1 s2 → classify_chord X s1 = classify_chord X s2.
Proof. intros (He & Ht & Hd & Hq & Hp). by apply classify_chord_ext. Qed.

Lemma check_tables_msg_ext (expected : Z) (msg1 msg2 : string → list string → string)
    (tables : list (string * list string)) :
  (∀ n l, msg1 n l = msg2 n l) →
  check_tables expected msg1 tables = check_tables expected msg2 tables.
Proof.
  intros Hm. induction tables as [|[n l] tables IH]; [reflexivity |].
  simpl. by rewrite Hm, IH.
Qed.

Lemma post_init_with_presentation (self : EDOFields) (system : EDOSystem)
    (notation note_names : string) :
  post_init self = Ok system →
  post_init (with_presentation self notation note_names)
  = Ok (select_presentation system notation note_names).
Proof.
  unfold post_init. simpl.
  case_bool_decide as Hlen; [discriminate |].
  rewrite (check_tables_msg_ext _ (notation_error (with_presentation _ _ _))
             (notation_error self)) by reflexivity.
  rewrite (check_tables_msg_ext _ (note_names_error (with_presentation _ _ _))
             (note_names_error self)) by reflexivity.
  intros H.
  apply bind_Ok in H as (qs & -> & H). simpl.
  apply bind_Ok in H as (c & -> & H). simpl.
  apply bind_Ok in H as (fifth & -> & H). simpl.
  apply bind_Ok in H as ([] & -> & H). simpl.
  apply bind_Ok in H as ([] & -> & H). simpl.
  by injection H as <-.
Qed.

(** ** The rule cascade on a valid system *)

Lemma classify_chord_rules (system : EDOSystem) (X : gset Z) :
  valid system →
  ∃ u h o a d s,
    has_quality system X UNSTABLE = Ok u
    ∧ has_quality system X HOLLOW = Ok h
    ∧ has_quality system X ODD = Ok o
    ∧ has_active_leading system X = Ok a
    ∧ has_dominant_leading system X = Ok d
    ∧ is_dominant_shell X system = Ok s
    ∧ classify_chord X system
      = Ok (rules u h o a d s (bool_decide (0 ∈ X))
              (bool_decide (perfect_fifth system ∈ residues system X))).
Proof.
  intros Hv. unfold classify_chord.
  destruct (has_quality_spec system Hv X UNSTABLE) as (u & Hu & _).
  destruct (has_quality_spec system Hv X HOLLOW) as (h & Hh & _).
  destruct (has_quality_spec system Hv X ODD) as (o & Ho & _).
  destruct (has_active_leading_spec system Hv X) as (a & Ha & _).
  destruct (has_dominant_leading_spec system Hv X) as (d & Hd & _).
  destruct (is_dominant_shell_spec system Hv X) as (s & Hs & _).
  exists u, h, o, a, d, s. repeat (split; [done |]).
  rewrite Hu, Hh, Ho, Ha, Hd, Hs. simpl. rewrite mod_set_Ok by done. simpl.
  unfold rules.
  destruct (d && (u || s)); [reflexivity |].
  destruct (u && negb d); [reflexivity |].
  destruct (negb u && (a || h || o)); [reflexivity |].
  by destruct (bool_decide (0 ∈ X) && _).
Qed.

(** ** Claims about the classifier *)

(** C2. On a constructed system [classify_chord] returns, for every chord,
    exactly one of the four functions, and that value is determined by its
    inputs; selecting other presentation tables, at construction or by
    assignment afterwards, gives a constructed system with the same
    classification of every chord. *)
Theorem classify_chord_total_deterministic
    (self : EDOFields) (system : EDOSystem) (intervals : gset Z) :
  post_init self = Ok system →
  (∃ f, classify_chord intervals system = Ok f
        ∧ (f = TONIC ∨ f = PREDOMINANT ∨ f = DOMINANT ∨ f = MEDIANT)
        ∧ ∀ f', classify_chord intervals system = Ok f' → f' = f)
  ∧ ∀ notation note_names,
      post_init (with_presentation self notation note_names)
      = Ok (select_presentation system notation note_names)
      ∧ classify_chord intervals (select_presentation system notation note_names)
        = classify_chord intervals system.
Proof.
  intros Hinit. split.
  - destruct (classify_chord_rules system intervals) as (u & h & o & a & d & s & H);
      [by exists self |].
    destruct H as (_ & _ & _ & _ & _ & _ & ->).
    eexists. split; [reflexivity |]. split.
    + destruct (rules _ _ _ _ _ _ _ _); auto.
    + by intros f' [= <-].
  - intros notation note_names. split.
    + by apply post_init_with_presentation.
    + by apply classify_chord_same_structure.
Qed.

(** C3. [classify_chord] answers TONIC only for a chord that contains 0
    itself and a member congruent to the perfect fifth; in a constructed
    system with 12 steps the chord {0, 4} is not TONIC. *)
Theorem tonic_requires_root_and_fifth
    (self : EDOFields) (system : EDOSystem) (intervals : gset Z) :
  post_init self = Ok system →
  (classify_chord intervals system = Ok TONIC →
     0 ∈ intervals
     ∧ ∃ m, m ∈ intervals ∧ m `mod` edo system = perfect_fifth system)
  ∧ (edo system = 12 → classify_chord {[0; 4]} system ≠ Ok TONIC).
Proof.
  intros Hinit.
  assert (valid system) as Hv by by exists self.
  assert (∀ X, classify_chord X system = Ok TONIC →
            0 ∈ X ∧ ∃ m, m ∈ X ∧ m `mod` edo system = perfect_fifth system) as Hgen.
  { intros X.
    destruct (classify_chord_rules system X Hv) as (u & h & o & a & d & s & H).
    destruct H as (_ & _ & _ & _ & _ & _ & ->). unfold rules.
    destruct (d && (u || s)); [discriminate |].
    destruct (u && negb d); [discriminate |].
    destruct (negb u && (a || h || o)); [discriminate |].
    case_bool_decide as H0; [| discriminate].
    case_bool_decide as H5; [| discriminate].
    intros _. split; [done |].
    apply elem_of_map in H5 as (m & Hm & Hin). by exists m. }
  split; [apply Hgen |].
  intros H12 Ht. apply Hgen in Ht as (_ & m & Hm & Hfifth).
  apply post_init_inv in Hinit as (<- & _ & qs & c & _ & _ & Hc & Hmin & _).
  rewrite H12 in *.
  remember (perfect_fifth system) as fifth eqn:Efifth. clear Efifth.
  vm_compute in Hc. injection Hc as <-.
  vm_compute in Hmin. injection Hmin as <-.
  apply elem_of_union in Hm as [Hm | Hm]; apply elem_of_singleton in Hm;
    subst m; discriminate Hfifth.
Qed.

(** C4. The dominant-shell flag holds exactly for a chord with a STABLE
    member, without 0 itself, and without two members, the lower first,
    a nonzero STABLE-tagged step apart.  A chord that contains 0 is never
    a dominant shell, so it is classified DOMINANT only when it has an
    UNSTABLE member (and an unresolved dominant-leading member). *)
Theorem root_excludes_dominant_shell
    (self : EDOFields) (system : EDOSystem) (intervals : gset Z) :
  post_init self = Ok system →
  (∃ b, is_dominant_shell intervals system = Ok b
        ∧ (b = true ↔
             (∃ m, m ∈ intervals ∧ quality_at system m = Some STABLE)
             ∧ (0 ∉ intervals)
             ∧ ¬ ∃ a b, stable_pair system intervals a b))
  ∧ (0 ∈ intervals →
       is_dominant_shell intervals system = Ok false
       ∧ (classify_chord intervals system = Ok DOMINANT →
            has_dominant_leading system intervals = Ok true
            ∧ has_quality system intervals UNSTABLE = Ok true
            ∧ ∃ m, m ∈ intervals ∧ quality_at system m = Some UNSTABLE)).
Proof.
  intros Hinit.
  assert (valid system) as Hv by by exists self.
  split; [apply is_dominant_shell_spec, Hv |].
  intros H0.
  assert (is_dominant_shell intervals system = Ok false) as Hshell.
  { destruct (is_dominant_shell_spec system Hv intervals) as ([] & Hb & Hiff);
      [| exact Hb].
    destruct Hiff as [Hiff _]. destruct Hiff as (_ & Hn & _); [done | contradiction]. }
  split; [exact Hshell |].
  destruct (classify_chord_rules system intervals Hv) as (u & h & o & a & d & s & H).
  destruct H as (Hu & _ & _ & _ & Hd & Hs & ->).
  rewrite Hshell in Hs. injection Hs as <-.
  destruct (has_quality_spec system Hv intervals UNSTABLE) as (u' & Hu' & Hiff).
  rewrite Hu in Hu'. injection Hu' as <-.
  unfold rules. rewrite orb_false_r.
  destruct d, u, (a || h || o), (bool_decide (0 ∈ intervals)),
    (bool_decide (perfect_fifth system ∈ residues system intervals));
    simpl; try discriminate;
    intros _; (split; [done |]); (split; [done |]); by apply Hiff.
Qed.

(** C5. [has_dominant_leading] is true exactly when some member has its
    residue among the dominant-leading steps, that residue has a leading
    target, and the target's residue is not a residue of the chord.  It is
    false when no dominant-leading member has a target, and the quality
    table plays no part: any system with the same [edo], targets and
    dominant-leading steps gives the same answer. *)
Theorem has_dominant_leading_iff
    (self : EDOFields) (system : EDOSystem) (intervals : gset Z) :
  post_init self = Ok system →
  ∃ b, has_dominant_leading system intervals = Ok b
    ∧ (b = true ↔
         ∃ m, m ∈ intervals
           ∧ m `mod` edo system ∈ dominant_leading_intervals system
           ∧ ∃ target,
               leading_targets system !! (m `mod` edo system) = Some target
               ∧ target `mod` edo system ∉ residues system intervals)
    ∧ ((∀ m, m ∈ intervals →
             m `mod` edo system ∈ dominant_leading_intervals system →
             leading_targets system !! (m `mod` edo system) = None) →
       b = false)
    ∧ (∀ system' : EDOSystem,
         edo system' = edo system →
         leading_targets system' = leading_targets system →
         dominant_leading_intervals system' = dominant_leading_intervals system →
         has_dominant_leading system' intervals = Ok b).
Proof.
  intros Hinit.
  assert (valid system) as Hv by by exists self.
  destruct (has_dominant_leading_spec system Hv intervals) as (b & Hb & Hiff).
  exists b. split; [exact Hb |]. split; [exact Hiff |]. split.
  - intros Hnone. destruct b; [| reflexivity].
    destruct Hiff as [Hiff _].
    destruct Hiff as (m & Hm & Hdl & target & Ht & _); [done |].
    rewrite (Hnone m Hm Hdl) in Ht. discriminate.
  - intros system' He Ht Hd. rewrite <- Hb. by apply has_dominant_leading_ext.
Qed.

(** C6. On a constructed system [classify_chord] raises for no chord,
    whatever integers it holds: every quality lookup is made at the
    member's residue, which lies in [0, edo) and has an entry; and the
    empty chord is PREDOMINANT. *)
Theorem classify_chord_never_raises (self : EDOFields) (system : EDOSystem) :
  post_init self = Ok system →
  (∀ intervals : gset Z, ∃ f, classify_chord intervals system = Ok f)
  ∧ (∀ i : Z, ∃ q, get_quality system i = Ok q
                   ∧ 0 ≤ i `mod` edo system < edo system
                   ∧ interval_qualities system !! (i `mod` edo system) = Some q)
  ∧ classify_chord ∅ system = Ok PREDOMINANT.
Proof.
  intros Hinit.
  assert (valid system) as Hv by by exists self.
  split; [| split].
  - intros X.
    destruct (classify_chord_rules system X Hv) as (u & h & o & a & d & s & H).
    destruct H as (_ & _ & _ & _ & _ & _ & ->). eauto.
  - intros i. exists (quality_of system i).
    split; [by apply get_quality_Ok |].
    split; [apply Z.mod_pos_bound, valid_edo_pos, Hv |].
    by apply (quality_of_at system Hv).
  - destruct (classify_chord_rules system ∅ Hv) as (u & h & o & a & d & s & H).
    destruct H as (Hu & Hh & Ho & Ha & Hd & _ & ->).
    destruct (has_quality_spec system Hv ∅ UNSTABLE) as (? & Hu' & Hui).
    destruct (has_quality_spec system Hv ∅ HOLLOW) as (? & Hh' & Hhi).
    destruct (has_quality_spec system Hv ∅ ODD) as (? & Ho' & Hoi).
    destruct (has_active_leading_spec system Hv ∅) as (? & Ha' & Hai).
    destruct (has_dominant_leading_spec system Hv ∅) as (? & Hd' & Hdi).
    rewrite Hu in Hu'. rewrite Hh in Hh'. rewrite Ho in Ho'.
    rewrite Ha in Ha'. rewrite Hd in Hd'.
    injection Hu' as <-. injection Hh' as <-. injection Ho' as <-.
    injection Ha' as <-. injection Hd' as <-.
    assert (u = false) as -> by (destruct u; [| done]; set_solver).
    assert (h = false) as -> by (destruct h; [| done]; set_solver).
    assert (o = false) as -> by (destruct o; [| done]; set_solver).
    assert (a = false) as -> by (destruct a; [| done]; set_solver).
    assert (d = false) as -> by (destruct d; [| done]; set_solver).
    unfold rules. simpl. by rewrite bool_decide_eq_false_2 by set_solver.
Qed.

(** ** Congruent chords *)

Lemma bool_eq_iff (b1 b2 : bool) (P : Prop) :
  (b1 = true ↔ P) → (b2 = true ↔ P) → b1 = b2.
Proof.
  destruct b1, b2; intros [H1 H1'] [H2 H2']; try reflexivity.
  - symmetry. apply H2', H1. reflexivity.
  - apply H1', H2. reflexivity.
Qed.

Section congruence.
Context (system : EDOSystem) (Hv : valid system).

Local Abbreviation e := (edo system).

Lemma exists_residue (P : Z → Prop) (X : gset Z) :
  (∃ m, m ∈ X ∧ P (m `mod` e)) ↔ ∃ r, r ∈ residues system X ∧ P r.
Proof.
  unfold residues. split.
  - intros (m & Hm & HP). exists (m `mod` e). split; [| done].
    apply elem_of_map. by exists m.
  - intros (r & Hr & HP). apply elem_of_map in Hr as (m & -> & Hm). by exists m.
Qed.

Lemma residues_set_map (g : Z → Z) (X : gset Z) :
  (∀ m, g m `mod` e = m `mod` e) →
  residues system (set_map g X) = residues system X.
Proof.
  intros Hg. unfold residues. apply set_eq. intros r.
  rewrite !elem_of_map. split.
  - intros (y & -> & Hy). apply elem_of_map in Hy as (m & -> & Hm).
    exists m. by rewrite Hg.
  - intros (m & -> & Hm). exists (g m). rewrite Hg. split; [done |].
    apply elem_of_map. by exists m.
Qed.

Lemma residues_idemp (X : gset Z) :
  residues system (residues system X) = residues system X.
Proof. apply residues_set_map. intros m. apply Zmod_mod. Qed.

Context (X Y : gset Z) (HR : residues system Y = residues system X).

Lemma has_quality_congr (q : Quality) :
  has_quality system Y q = has_quality system X q.
Proof using Hv HR.
  destruct (has_quality_spec system Hv X q) as (bx & -> & Hx).
  destruct (has_quality_spec system Hv Y q) as (by' & -> & Hy).
  f_equal. apply (bool_eq_iff _ _ _ Hy). rewrite Hx.
  unfold quality_at.
  rewrite (exists_residue (λ r, interval_qualities system !! r = Some q) X).
  rewrite (exists_residue (λ r, interval_qualities system !! r = Some q) Y).
  by rewrite HR.
Qed.

Lemma get_qualities_congr : get_qualities system Y = get_qualities system X.
Proof using Hv HR.
  rewrite !get_qualities_Ok by done. f_equal.
  apply set_eq. intros q. rewrite !elem_of_map.
  assert (∀ Z0 : gset Z,
            (∃ m, q = quality_of system m ∧ m ∈ Z0)
            ↔ ∃ r, r ∈ residues system Z0 ∧ interval_qualities system !! r = Some q)
    as Hres.
  { intros Z0.
    rewrite <- (exists_residue (λ r, interval_qualities system !! r = Some q) Z0).
    split; intros (m & H1 & H2); exists m.
    - split; [done |]. by apply quality_of_at.
    - split; [| done]. symmetry. by apply quality_of_at. }
  by rewrite !Hres, HR.
Qed.

Lemma has_active_leading_congr :
  has_active_leading system Y = has_active_leading system X.
Proof using Hv HR.
  destruct (has_active_leading_spec system Hv X) as (bx & -> & Hx).
  destruct (has_active_leading_spec system Hv Y) as (by' & -> & Hy).
  f_equal. apply (bool_eq_iff _ _ _ Hy). rewrite Hx.
  unfold quality_at, unresolved. rewrite HR.
  rewrite (exists_residue
    (λ r, interval_qualities system !! r = Some LEADING
          ∧ ∃ target, leading_targets system !! r = Some target
                      ∧ target `mod` e ∉ residues system X) X).
  rewrite (exists_residue
    (λ r, interval_qualities system !! r = Some LEADING
          ∧ ∃ target, leading_targets system !! r = Some target
                      ∧ target `mod` e ∉ residues system X) Y).
  by rewrite HR.
Qed.

Lemma has_dominant_leading_congr :
  has_dominant_leading system Y = has_dominant_leading system X.
Proof using Hv HR.
  destruct (has_dominant_leading_spec system Hv X) as (bx & -> & Hx).
  destruct (has_dominant_leading_spec system Hv Y) as (by' & -> & Hy).
  f_equal. apply (bool_eq_iff _ _ _ Hy). rewrite Hx.
  unfold unresolved. rewrite HR.
  rewrite (exists_residue
    (λ r, r ∈ dominant_leading_intervals system
          ∧ ∃ target, leading_targets system !! r = Some target
                      ∧ target `mod` e ∉ residues system X) X).
  rewrite (exists_residue
    (λ r, r ∈ dominant_leading_intervals system
          ∧ ∃ target, leading_targets system !! r = Some target
                      ∧ target `mod` e ∉ residues system X) Y).
  by rewrite HR.
Qed.

End congruence.

(** C10. On a constructed system the quality set of a chord,
    [has_quality] for every quality, [has_active_leading] and
    [has_dominant_leading] do not change when every member is replaced by
    its residue, or by any value congruent to it mod [edo]. *)
Theorem predicates_invariant_under_normalization
    (self : EDOFields) (system : EDOSystem) (intervals normalized : gset Z) :
  post_init self = Ok system →
  (normalized = residues system intervals
   ∨ ∃ g : Z → Z, (∀ m, g m `mod` edo system = m `mod` edo system)
                  ∧ normalized = set_map g intervals) →
  get_qualities system normalized = get_qualities system intervals
  ∧ (∀ q, has_quality system normalized q = has_quality system intervals q)
  ∧ has_active_leading system normalized = has_active_leading system intervals
  ∧ has_dominant_leading system normalized = has_dominant_leading system intervals.
Proof.
  intros Hinit Hn.
  assert (valid system) as Hv by by exists self.
  assert (residues system normalized = residues system intervals) as HR.
  { destruct Hn as [-> | (g & Hg & ->)].
    - apply residues_idemp.
    - by apply residues_set_map. }
  split; [by apply get_qualities_congr |].
  split; [intros q; by apply has_quality_congr |].
  split; [by apply has_active_leading_congr | by apply has_dominant_leading_congr].
Qed.

(** ** Classification and normalization *)

Lemma stable_pair_residues (system : EDOSystem) (X : gset Z) :
  valid system →
  (∀ a b, a ∈ X → b ∈ X → a < b → a `mod` edo system ≤ b `mod` edo system) →
  (∃ a b, stable_pair system (residues system X) a b)
  ↔ (∃ a b, stable_pair system X a b).
Proof.
  intros Hv Hmono. unfold stable_pair, residues.
  split; intros (a & b & Ha & Hb & Hlt & Hd & Hq).
  - apply elem_of_map in Ha as (a0 & -> & Ha).
    apply elem_of_map in Hb as (b0 & -> & Hb).
    rewrite <- Zminus_mod in Hd, Hq.
    destruct (Z.lt_trichotomy a0 b0) as [H | [-> | H]].
    + exists a0, b0. by repeat split.
    + lia.
    + specialize (Hmono b0 a0 Hb Ha H). lia.
  - exists (a `mod` edo system), (b `mod` edo system).
    rewrite <- Zminus_mod.
    split; [apply elem_of_map; by exists a |].
    split; [apply elem_of_map; by exists b |].
    split; [| done].
    specialize (Hmono a b Ha Hb Hlt).
    destruct (decide (a `mod` edo system = b `mod` edo system)) as [Heq | Hne]; [| lia].
    exfalso. apply Hd. rewrite Zminus_mod, Heq, Z.sub_diag. apply Zmod_0_l.
Qed.

(** C1, as the code has it.  On a constructed system a chord and the set
    of its residues classify alike whenever the chord holds 0 itself if it
    holds any multiple of [edo], and its members are ordered by value as
    their residues are.  (The root test and the pairing of members for the
    internal-stable test read the raw values.) *)
Theorem classify_chord_residues
    (self : EDOFields) (system : EDOSystem) (intervals : gset Z) :
  post_init self = Ok system →
  (0 ∈ residues system intervals → 0 ∈ intervals) →
  (∀ a b, a ∈ intervals → b ∈ intervals → a < b →
          a `mod` edo system ≤ b `mod` edo system) →
  classify_chord (residues system intervals) system
  = classify_chord intervals system.
Proof.
  intros Hinit Hroot Hmono.
  assert (valid system) as Hv by by exists self.
  pose proof (residues_idemp system intervals) as HR.
  assert (0 ∈ residues system intervals ↔ 0 ∈ intervals) as Hroot'.
  { split; [exact Hroot |]. intros H0. apply elem_of_map. by exists 0. }
  destruct (classify_chord_rules system intervals Hv)
    as (u & h & o & a & d & s & Hu & Hh & Ho & Ha & Hd & Hs & ->).
  destruct (classify_chord_rules system (residues system intervals) Hv)
    as (u' & h' & o' & a' & d' & s' & Hu' & Hh' & Ho' & Ha' & Hd' & Hs' & ->).
  rewrite (has_quality_congr system Hv _ _ HR) in Hu', Hh', Ho'.
  rewrite (has_active_leading_congr system Hv _ _ HR) in Ha'.
  rewrite (has_dominant_leading_congr system Hv _ _ HR) in Hd'.
  rewrite Hu in Hu'. rewrite Hh in Hh'. rewrite Ho in Ho'.
  rewrite Ha in Ha'. rewrite Hd in Hd'.
  injection Hu' as <-. injection Hh' as <-. injection Ho' as <-.
  injection Ha' as <-. injection Hd' as <-.
  assert (s' = s) as ->.
  { destruct (is_dominant_shell_spec system Hv intervals) as (b & Hb & Hiff).
    destruct (is_dominant_shell_spec system Hv (residues system intervals))
      as (b' & Hb' & Hiff').
    rewrite Hs in Hb. rewrite Hs' in Hb'. injection Hb as <-. injection Hb' as <-.
    apply (bool_eq_iff _ _ _ Hiff'). rewrite Hiff.
    rewrite (stable_pair_residues system intervals Hv Hmono), Hroot'.
    unfold quality_at.
    rewrite (exists_residue system
               (λ r, interval_qualities system !! r = Some STABLE) intervals).
    rewrite (exists_residue system
               (λ r, interval_qualities system !! r = Some STABLE)
               (residues system intervals)).
    by rewrite HR. }
  rewrite HR. f_equal. f_equal.
  apply (bool_eq_iff _ _ (0 ∈ intervals)); by rewrite bool_decide_eq_true.
Qed.

(** ** The 12-EDO reference system: instances *)

Lemma EDO_12_constructed : post_init EDO_12_fields = Ok EDO_12.
Proof. vm_compute. reflexivity. Qed.

(** The quality list of the reference system is the generator's. *)
Lemma EDO_12_qualities_generated :
  generate_interval_quality_list 12 = Ok (interval_quality_list EDO_12_fields).
Proof. vm_compute. reflexivity. Qed.

(** The literal 12-EDO scenarios of the test suite. *)
Lemma EDO_12_scenarios :
  classify_chord {[0; 4; 7]} EDO_12 = Ok TONIC
  ∧ classify_chord {[2; 5; 9]} EDO_12 = Ok PREDOMINANT
  ∧ classify_chord {[4; 7; 11]} EDO_12 = Ok MEDIANT
  ∧ classify_chord {[7; 11; 2]} EDO_12 = Ok DOMINANT
  ∧ classify_chord {[9; 0; 4]} EDO_12 = Ok MEDIANT
  ∧ classify_chord {[11; 2; 5]} EDO_12 = Ok DOMINANT
  ∧ classify_chord {[0; 4; 7; 11]} EDO_12 = Ok TONIC
  ∧ classify_chord {[7; 11; 2; 5]} EDO_12 = Ok DOMINANT
  ∧ classify_chord {[8; 0; 3]} EDO_12 = Ok MEDIANT
  ∧ classify_chord {[10; 2; 5]} EDO_12 = Ok PREDOMINANT
  ∧ classify_chord {[1; 5; 8]} EDO_12 = Ok PREDOMINANT.
Proof. repeat split; vm_compute; reflexivity. Qed.

(** C1 fails as stated: {12, 16, 19} reduces to {0, 4, 7} in 12-EDO, yet
    the first is PREDOMINANT (it does not hold 0 itself) and the second is
    TONIC. *)
Lemma classify_chord_octave_counterexample :
  post_init EDO_12_fields = Ok EDO_12
  ∧ residues EDO_12 {[12; 16; 19]} = {[0; 4; 7]}
  ∧ classify_chord {[12; 16; 19]} EDO_12 = Ok PREDOMINANT
  ∧ classify_chord {[0; 4; 7]} EDO_12 = Ok TONIC
  ∧ classify_chord {[12; 16; 19]} EDO_12
    ≠ classify_chord (residues EDO_12 {[12; 16; 19]}) EDO_12.
Proof.
  split; [exact EDO_12_constructed |].
  split; [vm_compute; reflexivity |].
  split; [vm_compute; reflexivity |].
  split; [vm_compute; reflexivity |].
  vm_compute. discriminate.
Qed.

(** The pairing of members reads raw values too: moving one member up an
    octave turns a MEDIANT chord into a dominant shell. *)
Lemma classify_chord_pairing_example :
  residues EDO_12 {[7; 11; 16]} = {[4; 7; 11]}
  ∧ classify_chord {[7; 11; 16]} EDO_12 = Ok DOMINANT
  ∧ classify_chord {[4; 7; 11]} EDO_12 = Ok MEDIANT.
Proof. repeat split; vm_compute; reflexivity. Qed.

Lemma classify_chord_residues_witness :
  post_init EDO_12_fields = Ok EDO_12
  ∧ classify_chord (residues EDO_12 {[13; 16; 19]}) EDO_12
    = classify_chord {[13; 16; 19]} EDO_12.
Proof.
  split; [vm_compute; reflexivity |].
  apply (classify_chord_residues EDO_12_fields EDO_12 {[13; 16; 19]}).
  - vm_compute. reflexivity.
  - intros H. exfalso. revert H. apply (bool_decide_unpack _). vm_compute. reflexivity.
  - intros a b Ha Hb Hlt. simpl.
    set_unfold. destruct Ha as [[-> | ->] | ->], Hb as [[-> | ->] | ->];
      first [lia | by vm_compute].
Defined.

Lemma classify_chord_total_deterministic_witness :
  post_init EDO_12_fields = Ok EDO_12
  ∧ (∃ f, classify_chord {[7; 11; 2]} EDO_12 = Ok f
          ∧ (f = TONIC ∨ f = PREDOMINANT ∨ f = DOMINANT ∨ f = MEDIANT)
          ∧ ∀ f', classify_chord {[7; 11; 2]} EDO_12 = Ok f' → f' = f).
Proof.
  split; [vm_compute; reflexivity |].
  apply (classify_chord_total_deterministic EDO_12_fields EDO_12 {[7; 11; 2]}).
  vm_compute. reflexivity.
Defined.

Lemma tonic_requires_root_and_fifth_witness :
  post_init EDO_12_fields = Ok EDO_12
  ∧ (0 ∈ ({[0; 4; 7]} : gset Z)
     ∧ ∃ m, m ∈ ({[0; 4; 7]} : gset Z) ∧ m `mod` 12 = 7)
  ∧ classify_chord {[0; 4]} EDO_12 ≠ Ok TONIC.
Proof.
  split; [vm_compute; reflexivity |].
  destruct (tonic_requires_root_and_fifth EDO_12_fields EDO_12 {[0; 4; 7]})
    as [Ht H04]; [vm_compute; reflexivity |].
  split; [apply Ht; vm_compute; reflexivity | apply H04; reflexivity].
Defined.

Lemma root_excludes_dominant_shell_witness :
  (post_init EDO_12_fields = Ok EDO_12
   ∧ is_dominant_shell {[0; 7; 11]} EDO_12 = Ok false)
  ∧ (post_init EDO_12_fourth_fields = Ok EDO_12_fourth
     ∧ classify_chord {[0; 5; 7]} EDO_12_fourth = Ok DOMINANT
     ∧ has_quality EDO_12_fourth {[0; 5; 7]} UNSTABLE = Ok true).
Proof.
  split.
  - split; [vm_compute; reflexivity |].
    destruct (root_excludes_dominant_shell EDO_12_fields EDO_12 {[0; 7; 11]})
      as [_ H0]; [vm_compute; reflexivity |].
    apply H0. apply (bool_decide_unpack _). vm_compute. reflexivity.
  - split; [vm_compute; reflexivity |].
    split; [vm_compute; reflexivity |].
    destruct (root_excludes_dominant_shell EDO_12_fourth_fields EDO_12_fourth {[0; 5; 7]})
      as [_ H0]; [vm_compute; reflexivity |].
    destruct H0 as [_ Hdom]; [apply (bool_decide_unpack _); vm_compute; reflexivity |].
    apply Hdom. vm_compute. reflexivity.
Defined.

Lemma has_dominant_leading_iff_witness :
  post_init EDO_12_fields = Ok EDO_12
  ∧ ∃ b, has_dominant_leading EDO_12 {[7; 11; 2]} = Ok b
      ∧ (b = true ↔
           ∃ m, m ∈ ({[7; 11; 2]} : gset Z)
             ∧ m `mod` 12 ∈ dominant_leading_intervals EDO_12
             ∧ ∃ target,
                 leading_targets EDO_12 !! (m `mod` 12) = Some target
                 ∧ target `mod` 12 ∉ residues EDO_12 {[7; 11; 2]}).
Proof.
  split; [vm_compute; reflexivity |].
  destruct (has_dominant_leading_iff EDO_12_fields EDO_12 {[7; 11; 2]})
    as (b & Hb & Hiff & _); [vm_compute; reflexivity |].
  exists b. split; [exact Hb | exact Hiff].
Defined.

Lemma classify_chord_never_raises_witness :
  post_init EDO_12_fields = Ok EDO_12
  ∧ (∃ f, classify_chord {[-5; 26; 7]} EDO_12 = Ok f)
  ∧ classify_chord ∅ EDO_12 = Ok PREDOMINANT.
Proof.
  split; [vm_compute; reflexivity |].
  destruct (classify_chord_never_raises EDO_12_fields EDO_12)
    as (Htotal & _ & Hempty); [vm_compute; reflexivity |].
  split; [apply Htotal | exact Hempty].
Defined.

Lemma predicates_invariant_under_normalization_witness :
  post_init EDO_12_fields = Ok EDO_12
  ∧ has_dominant_leading EDO_12 (set_map (λ m, m + 12) ({[11; 2; 5]} : gset Z))
    = has_dominant_leading EDO_12 {[11; 2; 5]}.
Proof.
  split; [vm_compute; reflexivity |].
  apply (predicates_invariant_under_normalization EDO_12_fields EDO_12 {[11; 2; 5]}).
  - vm_compute. reflexivity.
  - right. exists (λ m, m + 12). split; [| reflexivity].
    intros m. simpl. change (m + 12) with (m + 1 * 12). apply Z_mod_plus_full.
Defined.

(** ** Converting small integers to floats *)

Lemma digits2_pos_le (p : positive) (k : Z) :
  0 ≤ k → Z.pos p < 2 ^ k → Z.pos (digits2_pos p) ≤ k.
Proof.
  revert k. induction p as [p IH | p IH |]; intros k Hk Hp; simpl.
  - assert (k ≠ 0) by (intros ->; simpl in Hp; lia).
    replace k with (Z.succ (k - 1)) in Hp by lia.
    rewrite Z.pow_succ_r in Hp by lia.
    rewrite Pos2Z.inj_succ. specialize (IH (k - 1)). lia.
  - assert (k ≠ 0) by (intros ->; simpl in Hp; lia).
    replace k with (Z.succ (k - 1)) in Hp by lia.
    rewrite Z.pow_succ_r in Hp by lia.
    rewrite Pos2Z.inj_succ. specialize (IH (k - 1)). lia.
  - assert (k ≠ 0) by (intros ->; simpl in Hp; lia). lia.
Qed.

Lemma digits2_pos_iter (p : positive) (n : positive) :
  digits2_pos (Pos.iter xO p n) = (digits2_pos p + n)%positive.
Proof.
  induction n as [|n IH] using Pos.peano_ind.
  - simpl. lia.
  - rewrite Pos.iter_succ. simpl. rewrite IH. lia.
Qed.

Lemma binary_round_aux_exact (s : bool) (m : positive) (e : Z) :
  Z.pos (digits2_pos m) = 53 → -1021 ≤ e ≤ 971 →
  binary_round_aux prec emax s (Z.pos m) e loc_Exact = S754_finite s m e.
Proof.
  intros Hd He. unfold binary_round_aux, shr_fexp. simpl Zdigits2. rewrite Hd.
  replace (fexp prec emax (53 + e) - e) with 0
    by (unfold fexp, emin, prec, emax; lia).
  simpl. rewrite Hd.
  replace (fexp prec emax (53 + e) - e) with 0
    by (unfold fexp, emin, prec, emax; lia).
  simpl. replace (e <=? emax - prec) with true; [done |].
  symmetry. apply Z.leb_le. unfold emax, prec. lia.
Qed.

Lemma lit_small (p : positive) :
  Z.pos p < 2 ^ 53 →
  ∃ m e, lit (Z.pos p) = S754_finite false m e
         ∧ Z.pos (digits2_pos m) = 53 ∧ -52 ≤ e ≤ 0.
Proof.
  intros Hp. apply digits2_pos_le in Hp; [| lia].
  unfold lit, binary_normalize, binary_round.
  pose proof (Pos2Z.is_pos (digits2_pos p)) as Hpos.
  replace (fexp prec emax (Z.pos (digits2_pos p) + 0)) with (Z.pos (digits2_pos p) - 53)
    by (unfold fexp, emin, prec, emax; lia).
  unfold shl_align.
  destruct (Z.pos (digits2_pos p) - 53 - 0) as [|d|d] eqn:Hd; [| lia |].
  - rewrite binary_round_aux_exact by lia. exists p, 0. repeat split; lia.
  - assert (Z.pos (digits2_pos (Pos.iter xO p d)) = 53) as Hd'.
    { rewrite digits2_pos_iter. lia. }
    rewrite binary_round_aux_exact by lia.
    eexists _, _. split; [reflexivity |]. split; [done | lia].
Qed.

(** ** The order of floats *)

Ltac compare_cases :=
  repeat match goal with
  | |- context [Pos.compare_cont Eq ?x ?y] =>
      change (Pos.compare_cont Eq x y) with (Pos.compare x y);
      destruct (Pos.compare_spec x y)
  | |- context [Z.compare ?x ?y] => destruct (Z.compare_spec x y)
  end.

Lemma SFcompare_rank (a b : spec_float) :
  is_nan a = false → is_nan b = false →
  match SFcompare a b with
  | Some Lt => lt3 (rank a) (rank b)
  | Some Eq => eq3 (rank a) (rank b)
  | Some Gt => lt3 (rank b) (rank a)
  | None => False
  end.
Proof.
  destruct a as [sa|sa| |sa ma ea], b as [sb|sb| |sb mb eb]; try discriminate;
    intros _ _; unfold SFcompare, lt3, eq3;
    try destruct sa; try destruct sb; simpl; try lia;
    compare_cases; simpl; lia.
Qed.

Lemma SFcompare_nan (a b : spec_float) :
  SFcompare a b = None ↔ is_nan a = true ∨ is_nan b = true.
Proof.
  destruct a as [sa|sa| |sa ma ea], b as [sb|sb| |sb mb eb]; simpl;
    try destruct sa; try destruct sb;
    split; try discriminate; try (intros [|]; discriminate); auto.
Qed.

Lemma float_lt_spec (a b : spec_float) :
  float_lt a b = true ↔ is_nan a = false ∧ is_nan b = false ∧ lt3 (rank a) (rank b).
Proof.
  unfold float_lt, SFltb.
  destruct (is_nan a) eqn:Ha.
  { replace (SFcompare a b) with (@None comparison).
    - split; [discriminate | intros [? _]; discriminate].
    - symmetry. apply SFcompare_nan. by left. }
  destruct (is_nan b) eqn:Hb.
  { replace (SFcompare a b) with (@None comparison).
    - split; [discriminate | intros (_ & ? & _); discriminate].
    - symmetry. apply SFcompare_nan. by right. }
  pose proof (SFcompare_rank a b Ha Hb) as H.
  destruct (SFcompare a b) as [[]|]; unfold lt3, eq3 in *; split; try done;
    try (intros (_ & _ & ?); lia).
Qed.

Lemma float_le_spec (a b : spec_float) :
  float_le a b = true
  ↔ is_nan a = false ∧ is_nan b = false ∧ (lt3 (rank a) (rank b) ∨ eq3 (rank a) (rank b)).
Proof.
  unfold float_le, SFleb.
  destruct (is_nan a) eqn:Ha.
  { replace (SFcompare a b) with (@None comparison).
    - split; [discriminate | intros [? _]; discriminate].
    - symmetry. apply SFcompare_nan. by left. }
  destruct (is_nan b) eqn:Hb.
  { replace (SFcompare a b) with (@None comparison).
    - split; [discriminate | intros (_ & ? & _); discriminate].
    - symmetry. apply SFcompare_nan. by right. }
  pose proof (SFcompare_rank a b Ha Hb) as H.
  destruct (SFcompare a b) as [[]|]; unfold lt3, eq3 in *; split; try done;
    try (intros (_ & _ & ?); lia); try (intros _; repeat split; try done; lia).
Qed.

Ltac float_order :=
  repeat match goal with
  | H : float_lt _ _ = true |- _ => apply float_lt_spec in H
  | H : float_le _ _ = true |- _ => apply float_le_spec in H
  | H : float_lt _ _ = false |- _ => apply not_true_iff_false in H; rewrite float_lt_spec in H
  | H : float_le _ _ = false |- _ => apply not_true_iff_false in H; rewrite float_le_spec in H
  | |- float_lt _ _ = false => apply not_true_iff_false; rewrite float_lt_spec
  | |- float_le _ _ = false => apply not_true_iff_false; rewrite float_le_spec
  | |- float_lt _ _ = true => apply float_lt_spec
  | |- float_le _ _ = true => apply float_le_spec
  end;
  unfold lt3, eq3 in *;
  repeat match goal with
  | |- context [rank ?a] => destruct (rank a) as [[? ?] ?]
  | H : context [rank ?a] |- _ => destruct (rank a) as [[? ?] ?]
  end; simpl in *.

Lemma float_lt_trans a b c :
  float_lt a b = true → float_lt b c = true → float_lt a c = true.
Proof. intros H1 H2. float_order. intuition lia. Qed.

Lemma float_le_lt_trans a b c :
  float_le a b = true → float_lt b c = true → float_lt a c = true.
Proof. intros H1 H2. float_order. intuition lia. Qed.

Lemma float_lt_le_trans a b c :
  float_lt a b = true → float_le b c = true → float_lt a c = true.
Proof. intros H1 H2. float_order. intuition lia. Qed.

Lemma float_lt_not_le a b : float_lt a b = true → float_le b a = false.
Proof. intros H1. float_order. intuition lia. Qed.

Lemma float_lt_not_lt a b : float_lt a b = true → float_lt b a = false.
Proof. intros H1. float_order. intuition lia. Qed.

Lemma float_not_lt_le a b :
  is_nan a = false → is_nan b = false → float_lt a b = false → float_le b a = true.
Proof. intros Ha Hb H1. float_order. intuition lia. Qed.

Lemma float_not_le_lt a b :
  is_nan a = false → is_nan b = false → float_le a b = false → float_lt b a = true.
Proof. intros Ha Hb H1. float_order. intuition lia. Qed.

(** ** Rounding: never NaN, and no overflow for small quotients *)

Lemma shr_1_bounds (mrs : shr_record) :
  0 ≤ shr_m mrs → 0 ≤ shr_m (shr_1 mrs) ≤ shr_m mrs.
Proof. destruct mrs as [[|[p|p|]|p] r s]; simpl; lia. Qed.

Lemma iter_shr_1_bounds (n : positive) (mrs : shr_record) :
  0 ≤ shr_m mrs → 0 ≤ shr_m (SpecFloat.iter_pos shr_1 n mrs) ≤ shr_m mrs.
Proof.
  revert mrs. induction n as [n IH | n IH |]; intros mrs Hm; simpl.
  - pose proof (shr_1_bounds mrs Hm).
    pose proof (IH (shr_1 mrs) ltac:(lia)).
    pose proof (IH (SpecFloat.iter_pos shr_1 n (shr_1 mrs)) ltac:(lia)). lia.
  - pose proof (IH mrs Hm).
    pose proof (IH (SpecFloat.iter_pos shr_1 n mrs) ltac:(lia)). lia.
  - by apply shr_1_bounds.
Qed.

Lemma shr_m_of_loc (m : Z) (l : location) : shr_m (shr_record_of_loc m l) = m.
Proof. by destruct l as [|[]]. Qed.

Lemma shr_fexp_bounds (m e : Z) (l : location) :
  0 ≤ m →
  0 ≤ shr_m (shr_fexp prec emax m e l).1 ≤ m
  ∧ ((shr_fexp prec emax m e l).2 = e
     ∨ (shr_fexp prec emax m e l).2 = fexp prec emax (Zdigits2 m + e)).
Proof.
  intros Hm. unfold shr_fexp, shr.
  destruct (fexp prec emax (Zdigits2 m + e) - e) as [|n|n] eqn:Hn; simpl;
    rewrite ?shr_m_of_loc; try (split; [lia | by left]).
  split; [| right; lia].
  pose proof (iter_shr_1_bounds n (shr_record_of_loc m l)) as H.
  rewrite shr_m_of_loc in H. by apply H.
Qed.

Lemma round_nearest_even_bounds (m : Z) (l : location) :
  0 ≤ m → 0 ≤ round_nearest_even m l ≤ m + 1.
Proof. intros Hm. destruct l as [|[]]; simpl; try lia. destruct (Z.even m); lia. Qed.

Lemma binary_round_aux_not_nan (s : bool) (m e : Z) (l : location) :
  0 ≤ m → is_nan (binary_round_aux prec emax s m e l) = false.
Proof.
  intros Hm. unfold binary_round_aux.
  pose proof (shr_fexp_bounds m e l Hm) as [H1 _].
  destruct (shr_fexp prec emax m e l) as [mrs' e']. simpl in H1.
  pose proof (round_nearest_even_bounds (shr_m mrs') (loc_of_shr_record mrs')
                ltac:(lia)) as H2.
  pose proof (shr_fexp_bounds _ e' loc_Exact (proj1 H2)) as [H3 _].
  destruct (shr_fexp prec emax _ e' loc_Exact) as [mrs'' e'']. simpl in H3.
  destruct (shr_m mrs'') as [|p|p]; [done | | lia].
  by destruct (e'' <=? emax - prec).
Qed.

Lemma Zdigits2_le (m k : Z) : 0 ≤ k → 0 ≤ m < 2 ^ k → Zdigits2 m ≤ k.
Proof.
  intros Hk Hm. destruct m as [|p|p]; simpl; [lia | | lia].
  apply digits2_pos_le; lia.
Qed.

Lemma binary_round_aux_small (s : bool) (m e k : Z) (l : location) :
  0 ≤ k ≤ 200 → 0 ≤ m < 2 ^ k → e ≤ 100 →
  is_finite_or_zero (binary_round_aux prec emax s m e l) = true.
Proof.
  intros Hk Hm He. unfold binary_round_aux.
  pose proof (shr_fexp_bounds m e l ltac:(lia)) as [H1 H1e].
  pose proof (Zdigits2_le m k ltac:(lia) Hm) as Hd.
  destruct (shr_fexp prec emax m e l) as [mrs' e']. simpl in H1, H1e.
  assert (e' ≤ 247) as He' by (unfold fexp, emin, prec, emax in H1e; lia).
  pose proof (round_nearest_even_bounds (shr_m mrs') (loc_of_shr_record mrs')
                ltac:(lia)) as H2.
  set (mr := round_nearest_even (shr_m mrs') (loc_of_shr_record mrs')) in *.
  assert (0 ≤ mr < 2 ^ (k + 1)) as Hmr.
  { rewrite Z.pow_add_r, Z.pow_1_r by lia. lia. }
  pose proof (Zdigits2_le mr (k + 1) ltac:(lia) Hmr) as Hdr.
  pose proof (shr_fexp_bounds mr e' loc_Exact ltac:(lia)) as [H3 H3e].
  destruct (shr_fexp prec emax mr e' loc_Exact) as [mrs'' e'']. simpl in H3, H3e.
  assert (e'' ≤ 971) as He'' by (unfold fexp, emin, prec, emax in H3e; lia).
  destruct (shr_m mrs'') as [|p|p]; [done | | lia].
  replace (e'' <=? emax - prec) with true; [done |].
  symmetry. apply Z.leb_le. unfold emax, prec. lia.
Qed.

Lemma cent_per_step_finite (md : positive) (ed : Z) :
  Z.pos (digits2_pos md) = 53 → -52 ≤ ed ≤ 0 →
  is_finite_or_zero (SFdiv prec emax (lit 1200) (S754_finite false md ed)) = true.
Proof.
  intros Hd He.
  change (lit 1200) with (S754_finite false 5277655813324800 (-42)).
  unfold SFdiv, SFdiv_core_binary.
  change (Zdigits2 (Z.pos 5277655813324800)) with 53.
  simpl Zdigits2. rewrite Hd.
  replace (Z.min (fexp prec emax (53 + -42 - (53 + ed))) (-42 - ed)) with (-95 - ed)
    by (unfold fexp, emin, prec, emax; lia).
  replace (-42 - ed - (-95 - ed)) with 53 by lia.
  set (a := Z.shiftl 5277655813324800 53).
  assert (Z.div_eucl a (Z.pos md) = (a / Z.pos md, a `mod` Z.pos md)) as ->.
  { unfold Z.div, Z.modulo. by destruct (Z.div_eucl a (Z.pos md)). }
  assert (0 ≤ a < 2 ^ 106) as Ha by (split; vm_compute; congruence).
  apply (binary_round_aux_small _ _ _ 106); [lia | | lia].
  split; [apply Z.div_pos; lia |].
  apply Z.div_lt_upper_bound; [lia |].
  pose proof (Pos2Z.is_pos md). nia.
Qed.

Lemma float_of_int_small (z : Z) :
  0 ≤ z < 2 ^ 53 →
  float_of_int z = Ok (lit z) ∧ is_finite_or_zero (lit z) = true.
Proof.
  intros Hz. destruct z as [|p|p]; [done | | lia].
  destruct (lit_small p) as (m & e & Hlit & _); [lia |].
  unfold float_of_int. fold (lit (Z.pos p)). by rewrite Hlit.
Qed.

Lemma cent_per_step_of_Ok (n : Z) :
  1 ≤ n < 2 ^ 53 →
  ∃ c, cent_per_step_of n = Ok c ∧ is_finite_or_zero c = true.
Proof.
  intros Hn. destruct n as [|p|p]; [lia | | lia].
  destruct (lit_small p) as (m & e & Hlit & Hd & He); [lia |].
  unfold cent_per_step_of, float_of_int. fold (lit (Z.pos p)). rewrite Hlit. simpl.
  eexists. split; [reflexivity |]. by apply cent_per_step_finite.
Qed.

Lemma binary_normalize_not_nan (m e : Z) (sz : bool) :
  is_nan (binary_normalize prec emax m e sz) = false.
Proof.
  destruct m as [|p|p]; [done | |]; simpl; unfold binary_round;
    destruct (shl_align _ _ _) as [mz ez]; by apply binary_round_aux_not_nan.
Qed.

Lemma fifth_key_Ok (c : spec_float) (i : Z) :
  0 ≤ i < 2 ^ 53 → ∃ k, fifth_key c i = Ok k.
Proof.
  intros Hi. unfold fifth_key.
  destruct (float_of_int_small i Hi) as [-> _]. simpl. eauto.
Qed.

Lemma fifth_key_not_nan (c : spec_float) (i : Z) (k : spec_float) :
  is_finite_or_zero c = true → 0 ≤ i < 2 ^ 53 →
  fifth_key c i = Ok k → is_nan k = false.
Proof.
  intros Hc Hi. unfold fifth_key.
  destruct (float_of_int_small i Hi) as [-> Hfi]. simpl. intros [= <-].
  assert (is_nan (float_mul (lit i) c) = false) as Hmul.
  { unfold float_mul.
    destruct (lit i) as [s| | |s m e], c as [s'| | |s' m' e']; try done.
    simpl. by apply binary_round_aux_not_nan. }
  change (lit 702) with (S754_finite false 6174857301590016 (-43)).
  unfold float_abs, float_sub.
  destruct (float_mul (lit i) c) as [s|s| |s m e]; try done.
  simpl.
  match goal with
  | |- context [binary_normalize ?p ?q ?a ?b ?sz] =>
      pose proof (binary_normalize_not_nan a b sz) as Hn;
      destruct (binary_normalize p q a b sz)
  end; done.
Qed.

(** ** [min] with a key *)

Lemma min_loop_Ok (key : Z → result spec_float) (l : list Z) (best : Z)
    (best_key : spec_float) :
  (∀ x, x ∈ l → ∃ k, key x = Ok k) → ∃ r, min_loop key best best_key l = Ok r.
Proof.
  revert best best_key. induction l as [|x l IH]; intros best best_key Hkey; simpl.
  - eauto.
  - destruct (Hkey x) as [v ->]; [by left |]. simpl.
    destruct (float_lt v best_key); apply IH; intros y Hy; apply Hkey; by right.
Qed.

Lemma py_min_Ok (key : Z → result spec_float) (l : list Z) :
  l ≠ [] → (∀ x, x ∈ l → ∃ k, key x = Ok k) → ∃ r, py_min key l = Ok r.
Proof.
  intros Hne Hkey. destruct l as [|x l]; [done |]. simpl.
  destruct (Hkey x) as [v ->]; [by left |]. simpl.
  apply min_loop_Ok. intros y Hy. apply Hkey. by right.
Qed.

(** ** The validation loops *)

Lemma check_tables_spec (expected : Z) (msg : string → list string → string)
    (tables : list (string * list string)) :
  (Forall (λ t, ¬ bad_table expected t) tables
   ∧ check_tables expected msg tables = Ok ())
  ∨ (∃ name entries,
       (name, entries) ∈ tables
       ∧ len entries ≠ expected
       ∧ check_tables expected msg tables = Raise (ValueError (msg name entries))).
Proof.
  induction tables as [|[name entries] tables IH]; simpl.
  - left. by split.
  - case_bool_decide as Hlen.
    + right. exists name, entries. split; [by left | done].
    + destruct IH as [[Hall Hok] | (name' & entries' & Hin & Hbad & Hraise)].
      * left. split; [| done]. constructor; [| done]. unfold bad_table. simpl. lia.
      * right. exists name', entries'. split; [by right | done].
Qed.

Lemma check_tables_Ok (expected : Z) (msg : string → list string → string)
    (tables : list (string * list string)) :
  Forall (λ t, ¬ bad_table expected t) tables →
  check_tables expected msg tables = Ok ().
Proof.
  intros Hall.
  destruct (check_tables_spec expected msg tables)
    as [[_ Hok] | (name & entries & Hin & Hbad & _)]; [done |].
  rewrite Forall_forall in Hall. by destruct (Hall _ Hin).
Qed.

Lemma check_tables_Raise (expected : Z) (msg : string → list string → string)
    (tables : list (string * list string)) :
  Exists (bad_table expected) tables →
  ∃ name entries,
    (name, entries) ∈ tables
    ∧ len entries ≠ expected
    ∧ check_tables expected msg tables = Raise (ValueError (msg name entries)).
Proof.
  intros Hex.
  destruct (check_tables_spec expected msg tables) as [[Hall _] | H]; [| done].
  apply Exists_exists in Hex as (t & Hin & Hbad).
  rewrite Forall_forall in Hall. by destruct (Hall _ Hin).
Qed.

Lemma quality_map_known (q : string) :
  known_code q → ∃ v, quality_map q = Ok v ∧ Quality_value v = q.
Proof.
  unfold known_code. intros Hq.
  repeat (apply elem_of_cons in Hq as [-> | Hq]; [by eexists |]).
  by apply elem_of_nil in Hq.
Qed.

Lemma mapM_quality_map_Ok (l : list string) :
  Forall known_code l → ∃ qs, mapM quality_map l = Ok qs.
Proof.
  induction 1 as [|q l Hq _ [qs IH]]; simpl; [by eexists |].
  destruct (quality_map_known q Hq) as (v & -> & _). simpl.
  rewrite IH. simpl. by eexists.
Qed.

Lemma post_init_checks (self : EDOFields) :
  len (interval_quality_list self) = edo self →
  1 ≤ edo self < 2 ^ 53 →
  Forall known_code (interval_quality_list self) →
  ∃ qs fifth,
    post_init self
    = (_ ← check_tables (len (chord_intervals self)) (notation_error self)
             (chord_notation_systems self);
       _ ← check_tables (edo self) (note_names_error self) (note_name_systems self);
       Ok {| fields := self; interval_qualities := map_seqZ 0 qs;
             perfect_fifth := fifth |}).
Proof.
  intros Hlen Hedo Hcodes. unfold post_init.
  rewrite bool_decide_eq_false_2 by lia.
  destruct (mapM_quality_map_Ok _ Hcodes) as [qs ->]. simpl.
  destruct (cent_per_step_of_Ok _ Hedo) as (c & -> & _). simpl.
  destruct (py_min_Ok (fifth_key c) (seqZ 0 (edo self))) as [fifth ->].
  { rewrite seqZ_cons by lia. done. }
  { intros i Hi. apply elem_of_seqZ in Hi. apply fifth_key_Ok. lia. }
  simpl. by exists qs, fifth.
Qed.

(** C7, as the code has it.  A quality list whose length is not [edo]
    raises [ValueError] with both lengths.  When the list has [edo]
    entries, all of them known codes, and [edo] is at least 1 (and below
    2^53): a notation table whose length is not the number of chord shapes
    raises [ValueError] naming such a table with both lengths; failing
    that, a note-name table whose length is not [edo] does; and when no
    table is off construction succeeds. *)
Theorem post_init_validation (self : EDOFields) :
  (len (interval_quality_list self) ≠ edo self →
     post_init self = Raise (ValueError (qualities_error self)))
  ∧ (len (interval_quality_list self) = edo self →
     1 ≤ edo self < 2 ^ 53 →
     Forall known_code (interval_quality_list self) →
     (Exists (bad_table (len (chord_intervals self))) (chord_notation_systems self) →
        ∃ name entries,
          (name, entries) ∈ chord_notation_systems self
          ∧ len entries ≠ len (chord_intervals self)
          ∧ post_init self = Raise (ValueError (notation_error self name entries)))
     ∧ (Forall (λ t, ¬ bad_table (len (chord_intervals self)) t)
               (chord_notation_systems self) →
        Exists (bad_table (edo self)) (note_name_systems self) →
        ∃ name entries,
          (name, entries) ∈ note_name_systems self
          ∧ len entries ≠ edo self
          ∧ post_init self = Raise (ValueError (note_names_error self name entries)))
     ∧ (Forall (λ t, ¬ bad_table (len (chord_intervals self)) t)
               (chord_notation_systems self) →
        Forall (λ t, ¬ bad_table (edo self) t) (note_name_systems self) →
        ∃ system, post_init self = Ok system
                  ∧ fields system = self)).
Proof.
  split.
  - intros Hlen. unfold post_init. by rewrite bool_decide_eq_true_2.
  - intros Hlen Hedo Hcodes.
    destruct (post_init_checks self Hlen Hedo Hcodes) as (qs & fifth & Hpost).
    split; [| split].
    + intros Hex.
      destruct (check_tables_Raise _ (notation_error self) _ Hex)
        as (name & entries & Hin & Hbad & Hraise).
      exists name, entries. split; [done |]. split; [done |].
      rewrite Hpost, Hraise. reflexivity.
    + intros Hall Hex.
      destruct (check_tables_Raise _ (note_names_error self) _ Hex)
        as (name & entries & Hin & Hbad & Hraise).
      exists name, entries. split; [done |]. split; [done |].
      rewrite Hpost, (check_tables_Ok _ _ _ Hall), Hraise. reflexivity.
    + intros Hnot Hnames.
      rewrite Hpost, (check_tables_Ok _ _ _ Hnot), (check_tables_Ok _ _ _ Hnames).
      simpl. by eexists.
Qed.

(** C7 fails as stated.  With a misspelt quality code a table of the
    wrong length is not reported: the failure is the [KeyError] of the
    code.  And with [edo = 0] all three length invariants hold and every
    code is known, yet construction fails, dividing by zero. *)
Lemma post_init_validation_counterexample :
  (len (interval_quality_list unknown_code_fields) = edo unknown_code_fields
   ∧ Exists (bad_table (len (chord_intervals unknown_code_fields)))
            (chord_notation_systems unknown_code_fields)
   ∧ post_init unknown_code_fields = Raise (KeyError "x"))
  ∧ (len (interval_quality_list zero_edo_fields) = edo zero_edo_fields
     ∧ Forall known_code (interval_quality_list zero_edo_fields)
     ∧ Forall (λ t, ¬ bad_table (len (chord_intervals zero_edo_fields)) t)
              (chord_notation_systems zero_edo_fields)
     ∧ Forall (λ t, ¬ bad_table (edo zero_edo_fields) t)
              (note_name_systems zero_edo_fields)
     ∧ post_init zero_edo_fields = Raise ZeroDivisionError).
Proof.
  split.
  - split; [reflexivity |]. split; [| reflexivity].
    apply Exists_cons_hd. unfold bad_table. simpl. discriminate.
  - repeat split; constructor.
Qed.

(** The messages of the three length failures, on small descriptions. *)
Lemma post_init_messages :
  post_init EDO_12_truncated
  = Raise (ValueError "Note name system 'numbers' has 11 names but edo is 12")
  ∧ post_init (with_presentation unknown_code_fields "full" "default")
    = Raise (KeyError "x")
  ∧ post_init {| edo := 3; interval_quality_list := ["s"; "m"];
                 leading_targets := ∅; dominant_leading_intervals := ∅;
                 chord_intervals := []; chord_notation_systems := [];
                 note_name_systems := []; current_notation := "full";
                 current_note_names := "default" |}
    = Raise (ValueError "Expected 3 qualities, got 2")
  ∧ post_init {| edo := 2; interval_quality_list := ["s"; "m"];
                 leading_targets := ∅; dominant_leading_intervals := ∅;
                 chord_intervals := [[0; 1]]; chord_notation_systems := [("full", [])];
                 note_name_systems := []; current_notation := "full";
                 current_note_names := "default" |}
    = Raise (ValueError "Notation system 'full' has 0 names but 1 chord intervals").
Proof. repeat split; vm_compute; reflexivity. Qed.

Lemma post_init_validation_witness :
  (∃ name entries,
     (name, entries) ∈ note_name_systems EDO_12_truncated
     ∧ len entries ≠ 12
     ∧ post_init EDO_12_truncated
       = Raise (ValueError (note_names_error EDO_12_truncated name entries)))
  ∧ (∃ system, post_init EDO_12_fields = Ok system ∧ fields system = EDO_12_fields).
Proof.
  split.
  - destruct (post_init_validation EDO_12_truncated) as [_ H].
    destruct H as (_ & H & _).
    + reflexivity.
    + split; [simpl; lia | reflexivity].
    + apply (bool_decide_unpack _). vm_compute. reflexivity.
    + apply H.
      * apply (bool_decide_unpack _). vm_compute. reflexivity.
      * apply (bool_decide_unpack _). vm_compute. reflexivity.
  - destruct (post_init_validation EDO_12_fields) as [_ H].
    destruct H as (_ & _ & H).
    + reflexivity.
    + split; [simpl; lia | reflexivity].
    + apply (bool_decide_unpack _). vm_compute. reflexivity.
    + apply H.
      * apply (bool_decide_unpack _). vm_compute. reflexivity.
      * apply (bool_decide_unpack _). vm_compute. reflexivity.
Defined.

(** ** The generator *)



Lemma cents_of_small (c : spec_float) (step : Z) :
  0 ≤ step < 2 ^ 53 → cents_of c step = Ok (float_mul (lit step) c).
Proof.
  intros Hs. unfold cents_of. by destruct (float_of_int_small step Hs) as [-> _].
Qed.

Lemma generate_interval_quality_list_Ok (n : Z) :
  1 ≤ n < 2 ^ 53 →
  ∃ c, cent_per_step_of n = Ok c
       ∧ generate_interval_quality_list n
         = Ok ((λ step, step_quality step (float_mul (lit step) c)) <$> seqZ 0 n).
Proof.
  intros Hn. destruct (cent_per_step_of_Ok n Hn) as (c & Hc & _).
  exists c. split; [done |]. unfold generate_interval_quality_list.
  rewrite Hc. simpl. apply mapM_Ok_fmap.
  intros step Hstep. apply elem_of_seqZ in Hstep.
  by rewrite cents_of_small by lia.
Qed.




(** ** The perfect fifth *)

Lemma StronglySorted_seqZ (m n : Z) : StronglySorted Z.lt (seqZ m n).
Proof.
  remember (Z.to_nat n) as k eqn:Hk. revert m n Hk.
  induction k as [|k IH]; intros m n Hk.
  - rewrite seqZ_nil by lia. constructor.
  - rewrite seqZ_cons by lia. constructor.
    + apply IH. lia.
    + apply Forall_seqZ. lia.
Qed.

Lemma min_loop_sorted (key : Z → result spec_float) (l : list Z) (best : Z)
    (best_key : spec_float) (r : Z) :
  key best = Ok best_key →
  StronglySorted Z.lt (best :: l) →
  min_loop key best best_key l = Ok r →
  ∃ kr, key r = Ok kr
    ∧ (r = best ∨ (r ∈ l ∧ float_lt kr best_key = true))
    ∧ ∀ x, x ∈ best :: l →
        ∃ kx, key x = Ok kx
          ∧ float_lt kx kr = false
          ∧ (x < r → float_le kx kr = false).
Proof.
  revert best best_key. induction l as [|x l IH]; intros best best_key Hbest Hs; simpl.
  - intros [= <-]. exists best_key. split; [done |]. split; [by left |].
    intros x Hx. apply list_elem_of_singleton in Hx as ->.
    exists best_key. split; [done |]. split; [| lia].
    destruct (float_lt best_key best_key) eqn:E; [| done].
    by rewrite (float_lt_not_lt _ _ E) in E.
  - intros H. apply bind_Ok in H as (v & Hv & H).
    apply StronglySorted_inv in Hs as [Hs Hall].
    apply Forall_cons in Hall as [Hbx Hall].
    destruct (float_lt v best_key) eqn:Hlt.
    + destruct (IH x v Hv Hs H) as (kr & Hr & Hcase & Hmin).
      assert (float_lt kr best_key = true) as Hrb.
      { destruct Hcase as [-> | [_ Hrv]].
        - rewrite Hv in Hr. by injection Hr as <-.
        - by apply (float_lt_trans _ v). }
      exists kr. split; [done |]. split.
      { right. split; [| done]. destruct Hcase as [-> | [Hin _]]; [by left | by right]. }
      intros y Hy. apply elem_of_cons in Hy as [-> | Hy]; [| by apply Hmin].
      exists best_key. split; [done |].
      split; [by apply float_lt_not_lt | intros _; by apply float_lt_not_le].
    + assert (StronglySorted Z.lt (best :: l)) as Hs'.
      { apply StronglySorted_inv in Hs as [Hs _]. by constructor. }
      destruct (IH best best_key Hbest Hs' H) as (kr & Hr & Hcase & Hmin).
      exists kr. split; [done |]. split.
      { destruct Hcase as [-> | [Hin Hrb]]; [by left | right; split; [by right | done]]. }
      intros y Hy. apply elem_of_cons in Hy as [-> | Hy].
      { apply Hmin. by left. }
      apply elem_of_cons in Hy as [-> | Hy]; [| apply Hmin; by right].
      exists v. split; [done |].
      destruct Hcase as [-> | [Hin Hrb]].
      * rewrite Hbest in Hr. injection Hr as <-. split; [done | lia].
      * split.
        -- destruct (float_lt v kr) eqn:E; [| done].
           by rewrite (float_lt_trans _ _ _ E Hrb) in Hlt.
        -- intros _. destruct (float_le v kr) eqn:E; [| done].
           by rewrite (float_le_lt_trans _ _ _ E Hrb) in Hlt.
Qed.

Lemma py_min_seqZ (key : Z → result spec_float) (n r : Z) :
  py_min key (seqZ 0 n) = Ok r →
  0 ≤ r < n
  ∧ ∃ kr, key r = Ok kr
      ∧ ∀ i, 0 ≤ i < n →
          ∃ ki, key i = Ok ki
            ∧ float_lt ki kr = false
            ∧ (i < r → float_le ki kr = false).
Proof.
  intros H.
  assert (0 < n) as Hn.
  { destruct (decide (0 < n)); [done |]. by rewrite seqZ_nil in H by lia. }
  pose proof (StronglySorted_seqZ 0 n) as Hs.
  rewrite seqZ_cons in H, Hs by lia. simpl in H.
  apply bind_Ok in H as (v & Hv & H).
  destruct (min_loop_sorted key _ 0 v r Hv Hs H) as (kr & Hr & Hcase & Hmin).
  split.
  - destruct Hcase as [-> | [Hin _]]; [lia |]. apply elem_of_seqZ in Hin. lia.
  - exists kr. split; [done |]. intros i Hi. apply Hmin.
    rewrite <- seqZ_cons by lia. apply elem_of_seqZ. lia.
Qed.

(** C9, as the code has it.  The perfect fifth of a constructed system is
    an index of [0, edo) whose key, the double
    [abs(i * (1200.0 / edo) - 702)], no index undercuts and no lower index
    equals; for [edo] below 2^53 the keys are not NaN, so the key is at
    most every other and strictly below that of every lower index. *)
Theorem perfect_fifth_minimizes (self : EDOFields) (system : EDOSystem) :
  post_init self = Ok system →
  0 ≤ perfect_fifth system < edo system
  ∧ ∃ c kmin,
      cent_per_step_of (edo system) = Ok c
      ∧ fifth_key c (perfect_fifth system) = Ok kmin
      ∧ ∀ i, 0 ≤ i < edo system →
          ∃ ki, fifth_key c i = Ok ki
            ∧ float_lt ki kmin = false
            ∧ (i < perfect_fifth system → float_le ki kmin = false)
            ∧ (edo system < 2 ^ 53 →
                 float_le kmin ki = true
                 ∧ (i < perfect_fifth system → float_lt kmin ki = true)).
Proof.
  intros Hinit.
  assert (0 < edo system) as Hpos by (apply valid_edo_pos; by exists self).
  apply post_init_inv in Hinit as (<- & _ & qs & c & _ & _ & Hc & Hmin & _).
  apply py_min_seqZ in Hmin as (Hrange & kmin & Hkmin & Hall).
  split; [done |]. exists c, kmin. split; [done |]. split; [done |].
  intros i Hi. destruct (Hall i Hi) as (ki & Hki & Hlt & Hle).
  exists ki. split; [done |]. split; [done |]. split; [done |].
  intros Hsmall.
  destruct (cent_per_step_of_Ok (edo system)) as (c' & Hc' & Hfin); [lia |].
  rewrite Hc in Hc'. injection Hc' as <-.
  assert (is_nan ki = false) as Hni
    by (apply (fifth_key_not_nan c i); [done | lia | done]).
  assert (is_nan kmin = false) as Hnm
    by (apply (fifth_key_not_nan c (perfect_fifth system)); [done | lia | done]).
  split; [by apply float_not_lt_le |].
  intros Hlow. apply float_not_le_lt; auto.
Qed.

(** C9 fails as stated: in 500-EDO steps 292 and 293 lie 1.2 cents below
    and above 702, no step is closer, and the lowest of the two is 292;
    in doubles the key of 293 is the smaller and construction picks 293. *)
Lemma perfect_fifth_tie_counterexample :
  (exact_distance 500 292 == exact_distance 500 293)%Q
  ∧ forallb (λ i, Qle_bool (exact_distance 500 292) (exact_distance 500 i))
            (seqZ 0 500) = true
  ∧ stated_fifth 500 = 292
  ∧ constructed_fifth 500 = Ok 293.
Proof. repeat split; vm_compute; reflexivity. Qed.

Lemma perfect_fifth_minimizes_witness :
  post_init EDO_12_fields = Ok EDO_12
  ∧ 0 ≤ perfect_fifth EDO_12 < 12.
Proof.
  split; [vm_compute; reflexivity |].
  destruct (perfect_fifth_minimizes EDO_12_fields EDO_12) as [H _].
  - vm_compute. reflexivity.
  - exact H.
Defined.

(** ** The octave shift in every 12-EDO system with the generated qualities *)

(** Whatever the leading targets and dominant-leading steps of the
    description are, {12, 16, 19} is PREDOMINANT and {0, 4, 7} is TONIC. *)
Lemma octave_shift_in_any_12_edo (self : EDOFields) (system : EDOSystem) :
  post_init self = Ok system →
  edo self = 12 →
  interval_quality_list self = interval_quality_list EDO_12_fields →
  classify_chord {[12; 16; 19]} system = Ok PREDOMINANT
  ∧ classify_chord {[0; 4; 7]} system = Ok TONIC.
Proof.
  intros Hinit He Hl.
  assert (valid system) as Hv by by exists self.
  apply post_init_inv in Hinit as (Hf & _ & qs & c & Hqs & Hiq & Hc & Hmin & _).
  assert (edo system = 12) as He' by by rewrite Hf.
  rewrite Hl in Hqs. vm_compute in Hqs. injection Hqs as <-.
  rewrite He in Hc, Hmin.
  remember (perfect_fifth system) as fifth eqn:Efifth.
  vm_compute in Hc. injection Hc as <-.
  vm_compute in Hmin. injection Hmin as <-.
  assert (∀ m, quality_at system m
               = map_seqZ (M := gmap Z Quality) 0
                   [STABLE; ODD; UNSTABLE; MODAL; MODAL; UNSTABLE; ODD; STABLE;
                    LEADING; HOLLOW; HOLLOW; LEADING] !! (m `mod` 12)) as Hq.
  { intros m. unfold quality_at. by rewrite Hiq, He'. }
  assert (∀ (X : gset Z) (q : Quality) (b : bool),
            has_quality system X q = Ok b →
            (∀ m, m ∈ X → quality_at system m ≠ Some q) → b = false) as Hnoq.
  { intros X q b Hb Hno.
    destruct (has_quality_spec system Hv X q) as (b' & Hb' & Hiff).
    rewrite Hb in Hb'. injection Hb' as <-.
    destruct b; [| done]. destruct Hiff as [(m & Hm & Hmq) _]; [done |].
    by destruct (Hno m Hm). }
  assert (∀ (X : gset Z) (b : bool),
            has_active_leading system X = Ok b →
            (∀ m, m ∈ X → quality_at system m ≠ Some LEADING) → b = false) as Hnoa.
  { intros X b Hb Hno.
    destruct (has_active_leading_spec system Hv X) as (b' & Hb' & Hiff).
    rewrite Hb in Hb'. injection Hb' as <-.
    destruct b; [| done]. destruct Hiff as [(m & Hm & Hmq & _) _]; [done |].
    by destruct (Hno m Hm). }
  assert (∀ (X : gset Z) (b : bool) (x y : Z),
            is_dominant_shell X system = Ok b →
            0 ∈ X ∨ stable_pair system X x y → b = false) as Hnos.
  { intros X b x y Hb Hno.
    destruct (is_dominant_shell_spec system Hv X) as (b' & Hb' & Hiff).
    rewrite Hb in Hb'. injection Hb' as <-.
    destruct b; [| done]. destruct Hiff as [(_ & H0 & Hpair) _]; [done |].
    destruct Hno as [H | H]; [contradiction |]. destruct Hpair. by exists x, y. }
  split.
  - destruct (classify_chord_rules system {[12; 16; 19]} Hv)
      as (u & h & o & a & d & s & Hu & Hh & Ho & Ha & Hd & Hs & ->).
    rewrite (Hnoq _ _ _ Hu), (Hnoq _ _ _ Hh), (Hnoq _ _ _ Ho), (Hnoa _ _ Ha),
      (Hnos _ _ 12 19 Hs).
    + unfold rules. rewrite andb_false_r. simpl. by rewrite bool_decide_eq_false_2.
    + right. unfold stable_pair. rewrite Hiq, He'.
      by repeat split; try set_solver.
    + intros m Hm. rewrite Hq. set_unfold. by destruct Hm as [[-> | ->] | ->].
    + intros m Hm. rewrite Hq. set_unfold. by destruct Hm as [[-> | ->] | ->].
    + intros m Hm. rewrite Hq. set_unfold. by destruct Hm as [[-> | ->] | ->].
    + intros m Hm. rewrite Hq. set_unfold. by destruct Hm as [[-> | ->] | ->].
  - destruct (classify_chord_rules system {[0; 4; 7]} Hv)
      as (u & h & o & a & d & s & Hu & Hh & Ho & Ha & Hd & Hs & ->).
    rewrite (Hnoq _ _ _ Hu), (Hnoq _ _ _ Hh), (Hnoq _ _ _ Ho), (Hnoa _ _ Ha),
      (Hnos _ _ 0 0 Hs).
    + unfold rules. rewrite andb_false_r. simpl.
      rewrite bool_decide_eq_true_2 by set_solver.
      rewrite bool_decide_eq_true_2; [done |].
      apply elem_of_map. exists 7. rewrite He'. split; [done | set_solver].
    + left. set_solver.
    + intros m Hm. rewrite Hq. set_unfold. by destruct Hm as [[-> | ->] | ->].
    + intros m Hm. rewrite Hq. set_unfold. by destruct Hm as [[-> | ->] | ->].
    + intros m Hm. rewrite Hq. set_unfold. by destruct Hm as [[-> | ->] | ->].
    + intros m Hm. rewrite Hq. set_unfold. by destruct Hm as [[-> | ->] | ->].
Qed.

(** ** The two numeric claims on the sizes in use *)

(** On the sizes of the registry no step lies on a bucket bound that
    rounding crosses, and no two steps tie around 702 cents: there the
    generator and the constructor agree with the exact reading. *)
Lemma registry_sizes_exact :
  forallb generator_matches_table registry_sizes = true
  ∧ Forall (λ n, constructed_fifth n = Ok (stated_fifth n)) registry_sizes.
Proof.
  split; [vm_compute; reflexivity |].
  repeat constructor; vm_compute; reflexivity.
Qed.

(** ** The classifier, free of iteration order *)

(** The six flags are properties of the chord as a set, so the answer
    does not depend on the order in which its members are visited. *)
Lemma classify_chord_by_rules (system : EDOSystem) (X : gset Z) :
  valid system →
  ∃ u h o a d s : bool,
    (u = true ↔ ∃ m, m ∈ X ∧ quality_at system m = Some UNSTABLE)
    ∧ (h = true ↔ ∃ m, m ∈ X ∧ quality_at system m = Some HOLLOW)
    ∧ (o = true ↔ ∃ m, m ∈ X ∧ quality_at system m = Some ODD)
    ∧ (a = true ↔ ∃ m, m ∈ X ∧ quality_at system m = Some LEADING
                       ∧ unresolved system X m)
    ∧ (d = true ↔ ∃ m, m ∈ X
                       ∧ m `mod` edo system ∈ dominant_leading_intervals system
                       ∧ unresolved system X m)
    ∧ (s = true ↔ (∃ m, m ∈ X ∧ quality_at system m = Some STABLE)
                  ∧ (0 ∉ X)
                  ∧ ¬ ∃ x y, stable_pair system X x y)
    ∧ classify_chord X system
      = Ok (rules u h o a d s (bool_decide (0 ∈ X))
              (bool_decide (perfect_fifth system ∈ residues system X))).
Proof.
  intros Hv.
  destruct (classify_chord_rules system X Hv)
    as (u & h & o & a & d & s & Hu & Hh & Ho & Ha & Hd & Hs & Hc).
  destruct (has_quality_spec system Hv X UNSTABLE) as (u' & Hu' & Hui).
  destruct (has_quality_spec system Hv X HOLLOW) as (h' & Hh' & Hhi).
  destruct (has_quality_spec system Hv X ODD) as (o' & Ho' & Hoi).
  destruct (has_active_leading_spec system Hv X) as (a' & Ha' & Hai).
  destruct (has_dominant_leading_spec system Hv X) as (d' & Hd' & Hdi).
  destruct (is_dominant_shell_spec system Hv X) as (s' & Hs' & Hsi).
  rewrite Hu in Hu'. rewrite Hh in Hh'. rewrite Ho in Ho'.
  rewrite Ha in Ha'. rewrite Hd in Hd'. rewrite Hs in Hs'.
  injection Hu' as <-. injection Hh' as <-. injection Ho' as <-.
  injection Ha' as <-. injection Hd' as <-. injection Hs' as <-.
  exists u, h, o, a, d, s.
  split; [exact Hui |]. split; [exact Hhi |]. split; [exact Hoi |].
  split; [exact Hai |]. split; [exact Hdi |]. split; [exact Hsi | exact Hc].
Qed.

(** * Further properties of the code *)

(** ** Construction: the quality table *)

Lemma quality_map_value (q : Quality) : quality_map (Quality_value q) = Ok q.
Proof. by destruct q. Qed.

Lemma quality_map_Ok_inv (s : string) (q : Quality) :
  quality_map s = Ok q → s = Quality_value q.
Proof.
  unfold quality_map.
  repeat (case_bool_decide; [subst s; by intros [= <-] |]). discriminate.
Qed.

Lemma mapM_Ok_lookup_inv {A B} (f : A → result B) (l : list A) (k : list B)
    (i : nat) (y : B) :
  mapM f l = Ok k → k !! i = Some y → ∃ x, l !! i = Some x ∧ f x = Ok y.
Proof.
  intros Hm Hk.
  destruct (l !! i) as [x|] eqn:Hl.
  - destruct (mapM_Ok_lookup f l k i x Hm Hl) as (y' & Hy' & Hk').
    rewrite Hk in Hk'. injection Hk' as <-. by exists x.
  - apply lookup_ge_None in Hl. apply lookup_lt_Some in Hk.
    rewrite (mapM_Ok_length f l k Hm) in Hk. lia.
Qed.

(** X1. The quality table of a constructed system has an entry exactly
    for the steps 0 .. edo-1, and the entry of step [i] is the quality
    whose code stands at position [i] of the quality list. *)
Theorem interval_qualities_round_trip
    (self : EDOFields) (system : EDOSystem) (i : Z) (q : Quality) :
  post_init self = Ok system →
  (interval_qualities system !! i = Some q
   ↔ 0 ≤ i < edo system
     ∧ interval_quality_list system !! Z.to_nat i = Some (Quality_value q)).
Proof.
  intros Hinit.
  apply post_init_inv in Hinit as (<- & Hlen & qs & c & Hqs & -> & _).
  unfold len in Hlen. rewrite lookup_map_seqZ_Some, Z.sub_0_r. split.
  - intros [Hi Hq].
    destruct (mapM_Ok_lookup_inv _ _ _ _ _ Hqs Hq) as (s & Hs & Hmap).
    apply quality_map_Ok_inv in Hmap as ->.
    pose proof (lookup_lt_Some _ _ _ Hs). split; [lia | done].
  - intros [Hi Hs]. split; [lia |].
    destruct (mapM_Ok_lookup _ _ _ _ _ Hqs Hs) as (q' & Hmap & Hq').
    rewrite quality_map_value in Hmap. by injection Hmap as <-.
Qed.

Lemma interval_qualities_round_trip_witness :
  post_init EDO_12_fields = Ok EDO_12
  ∧ (interval_qualities EDO_12 !! 8 = Some LEADING
     ↔ 0 ≤ 8 < 12 ∧ interval_quality_list EDO_12 !! 8%nat = Some "l").
Proof.
  split; [vm_compute; reflexivity |].
  apply (interval_qualities_round_trip EDO_12_fields EDO_12 8 LEADING).
  vm_compute. reflexivity.
Defined.

(** ** Construction: which failure is reported *)

Lemma mapM_quality_map_first_unknown (pre post : list string) (q : string) :
  Forall known_code pre → ¬ known_code q →
  mapM quality_map (pre ++ q :: post) = Raise (KeyError q).
Proof.
  intros Hpre Hq. induction Hpre as [|p pre Hp _ IH]; simpl.
  - assert (quality_map q = Raise (KeyError q)) as ->; [| done].
    unfold quality_map, known_code in *.
    repeat (case_bool_decide; [subst q; exfalso; apply Hq; set_solver |]). done.
  - destruct (quality_map_known p Hp) as (v & -> & _). simpl. by rewrite IH.
Qed.

(** X2. When the quality list has [edo] entries, the first entry that
    is not one of the six codes is the key of the [KeyError] that
    construction raises, whatever the tables hold. *)
Theorem post_init_first_unknown_code
    (self : EDOFields) (pre post : list string) (q : string) :
  len (interval_quality_list self) = edo self →
  interval_quality_list self = pre ++ q :: post →
  Forall known_code pre →
  ¬ known_code q →
  post_init self = Raise (KeyError q).
Proof.
  intros Hlen Hl Hpre Hq. unfold post_init.
  rewrite bool_decide_eq_false_2 by lia.
  by rewrite Hl, mapM_quality_map_first_unknown.
Qed.

Lemma post_init_first_unknown_code_witness :
  post_init unknown_code_fields = Raise (KeyError "x").
Proof.
  apply (post_init_first_unknown_code unknown_code_fields ["s"] [] "x").
  - reflexivity.
  - reflexivity.
  - apply (bool_decide_unpack _). vm_compute. reflexivity.
  - apply (bool_decide_unpack _). vm_compute. reflexivity.
Defined.

Lemma check_tables_first_bad (expected : Z) (msg : string → list string → string)
    (pre post : list (string * list string)) (name : string) (entries : list string) :
  Forall (λ t, ¬ bad_table expected t) pre →
  len entries ≠ expected →
  check_tables expected msg (pre ++ (name, entries) :: post)
  = Raise (ValueError (msg name entries)).
Proof.
  intros Hpre Hbad. induction Hpre as [|[n e] pre Hp _ IH]; simpl.
  - by rewrite bool_decide_eq_true_2.
  - unfold bad_table in Hp. simpl in Hp.
    rewrite bool_decide_eq_false_2 by done. exact IH.
Qed.

(** X3. With a quality list of [edo] known codes and [edo] from 1 (below
    2^53), construction reports the first table of the wrong length in
    insertion order, the notation tables before the note-name tables:
    the message names that table, with its length and the expected one. *)
Theorem post_init_first_bad_table
    (self : EDOFields) (pre post : list (string * list string))
    (name : string) (entries : list string) :
  len (interval_quality_list self) = edo self →
  1 ≤ edo self < 2 ^ 53 →
  Forall known_code (interval_quality_list self) →
  (chord_notation_systems self = pre ++ (name, entries) :: post →
   Forall (λ t, ¬ bad_table (len (chord_intervals self)) t) pre →
   len entries ≠ len (chord_intervals self) →
   post_init self = Raise (ValueError (notation_error self name entries)))
  ∧ (Forall (λ t, ¬ bad_table (len (chord_intervals self)) t)
            (chord_notation_systems self) →
     note_name_systems self = pre ++ (name, entries) :: post →
     Forall (λ t, ¬ bad_table (edo self) t) pre →
     len entries ≠ edo self →
     post_init self = Raise (ValueError (note_names_error self name entries))).
Proof.
  intros Hlen Hedo Hcodes.
  destruct (post_init_checks self Hlen Hedo Hcodes) as (qs & fifth & ->).
  split.
  - intros Hl Hpre Hbad. by rewrite Hl, check_tables_first_bad.
  - intros Hnot Hl Hpre Hbad.
    rewrite (check_tables_Ok _ _ _ Hnot). simpl.
    by rewrite Hl, check_tables_first_bad.
Qed.

Lemma post_init_first_bad_table_witness :
  post_init EDO_12_truncated
  = Raise (ValueError (note_names_error EDO_12_truncated "numbers"
             ["0"; "1"; "2"; "3"; "4"; "5"; "6"; "7"; "8"; "9"; "10"])).
Proof.
  destruct (post_init_first_bad_table EDO_12_truncated
              [("default", ["C"; "C#"; "D"; "D#"; "E"; "F"; "F#"; "G"; "G#"; "A";
                            "A#"; "B"])]
              [] "numbers" ["0"; "1"; "2"; "3"; "4"; "5"; "6"; "7"; "8"; "9"; "10"])
    as [_ H].
  - reflexivity.
  - split; [simpl; lia | reflexivity].
  - apply (bool_decide_unpack _). vm_compute. reflexivity.
  - apply H.
    + apply (bool_decide_unpack _). vm_compute. reflexivity.
    + reflexivity.
    + apply (bool_decide_unpack _). vm_compute. reflexivity.
    + simpl. discriminate.
Defined.

(** X4. No description with [edo] at or below 0 constructs: a negative
    [edo], or [edo = 0] with a quality list that is not empty, fails the
    length test; [edo = 0] with the empty list divides by zero. *)
Theorem post_init_nonpositive_edo (self : EDOFields) :
  edo self ≤ 0 →
  post_init self
  = if bool_decide (edo self = 0 ∧ interval_quality_list self = [])
    then Raise ZeroDivisionError
    else Raise (ValueError (qualities_error self)).
Proof.
  intros Hedo.
  destruct (decide (edo self = 0 ∧ interval_quality_list self = [])) as [[H0 Hl] | Hz].
  - rewrite bool_decide_eq_true_2 by done.
    unfold post_init. rewrite Hl, H0. reflexivity.
  - rewrite bool_decide_eq_false_2 by done.
    unfold post_init. rewrite bool_decide_eq_true_2; [done |].
    unfold len. intros Hlen. apply Hz.
    destruct (interval_quality_list self); [| simpl in Hlen; lia].
    simpl in Hlen. split; [lia | done].
Qed.

Lemma post_init_nonpositive_edo_witness :
  post_init zero_edo_fields = Raise ZeroDivisionError
  ∧ post_init (with_presentation zero_edo_fields "full" "default")
    = Raise ZeroDivisionError.
Proof.
  split; [vm_compute; reflexivity |].
  rewrite (post_init_nonpositive_edo (with_presentation zero_edo_fields "full" "default"));
    [reflexivity | simpl; lia].
Defined.

(** ** The generator: codes and edge cases *)

Lemma step_quality_known (step : Z) (cents : spec_float) :
  known_code (step_quality step cents).
Proof.
  unfold step_quality, known_code.
  repeat (case_match; [set_solver |]). set_solver.
Qed.

(** X5. For [edo] from 1 (below 2^53) every code the generator writes is
    one of the six that [quality_map] knows, so the description made of
    the generated list alone constructs, with that [edo] and that list. *)
Theorem generated_description_constructs (n : Z) :
  1 ≤ n < 2 ^ 53 →
  ∃ qs self system,
    generate_interval_quality_list n = Ok qs
    ∧ Forall known_code qs
    ∧ generated_fields n = Ok self
    ∧ post_init self = Ok system
    ∧ edo system = n
    ∧ interval_quality_list system = qs.
Proof.
  intros Hn.
  destruct (generate_interval_quality_list_Ok n Hn) as (c & Hc & Hqs).
  set (qs := (λ step, step_quality step (float_mul (lit step) c)) <$> seqZ 0 n) in *.
  assert (Forall known_code qs) as Hknown.
  { apply Forall_fmap, Forall_forall. intros step _. apply step_quality_known. }
  set (self := {| edo := n; interval_quality_list := qs; leading_targets := ∅;
                  dominant_leading_intervals := ∅; chord_intervals := [];
                  chord_notation_systems := []; note_name_systems := [];
                  current_notation := "full"; current_note_names := "default" |}).
  assert (len (interval_quality_list self) = edo self) as Hlen.
  { unfold len, self, qs. simpl. rewrite length_fmap, length_seqZ. lia. }
  destruct (post_init_checks self Hlen Hn Hknown) as (iq & fifth & Hpost).
  exists qs, self. eexists.
  split; [exact Hqs |]. split; [exact Hknown |].
  split; [unfold generated_fields; by rewrite Hqs |].
  split; [exact Hpost |]. by split.
Qed.

Lemma generated_description_constructs_witness :
  ∃ qs self system,
    generate_interval_quality_list 27 = Ok qs
    ∧ Forall known_code qs
    ∧ generated_fields 27 = Ok self
    ∧ post_init self = Ok system
    ∧ edo system = 27
    ∧ interval_quality_list system = qs.
Proof.
  apply (generated_description_constructs 27). split; [lia | reflexivity].
Defined.

Lemma float_of_int_small_neg (p : positive) :
  Z.pos p < 2 ^ 53 →
  ∃ m e, float_of_int (Z.neg p) = Ok (S754_finite true m e).
Proof.
  intros Hp. apply digits2_pos_le in Hp; [| lia].
  unfold float_of_int, binary_normalize, binary_round.
  pose proof (Pos2Z.is_pos (digits2_pos p)) as Hpos.
  replace (fexp prec emax (Z.pos (digits2_pos p) + 0)) with (Z.pos (digits2_pos p) - 53)
    by (unfold fexp, emin, prec, emax; lia).
  unfold shl_align.
  destruct (Z.pos (digits2_pos p) - 53 - 0) as [|d|d] eqn:Hd; [| lia |].
  - rewrite binary_round_aux_exact by lia. by eexists _, _.
  - assert (Z.pos (digits2_pos (Pos.iter xO p d)) = 53) as Hd'.
    { rewrite digits2_pos_iter. lia. }
    rewrite binary_round_aux_exact by lia. by eexists _, _.
Qed.

(** X6. The generator divides by zero for [edo = 0], and for a negative
    [edo] (above -2^53) it returns the empty list without complaint. *)
Theorem generate_interval_quality_list_nonpositive (n : Z) :
  - 2 ^ 53 < n ≤ 0 →
  generate_interval_quality_list n
  = if bool_decide (n = 0) then Raise ZeroDivisionError else Ok [].
Proof.
  intros Hn. case_bool_decide as H0; [by subst n |].
  destruct n as [|p|p]; [done | lia |].
  destruct (float_of_int_small_neg p) as (m & e & Hf); [lia |].
  unfold generate_interval_quality_list, cent_per_step_of.
  rewrite Hf, seqZ_nil by lia. reflexivity.
Qed.

Lemma generate_interval_quality_list_nonpositive_witness :
  generate_interval_quality_list 0 = Raise ZeroDivisionError
  ∧ generate_interval_quality_list (-12) = Ok [].
Proof.
  split.
  - apply (generate_interval_quality_list_nonpositive 0). split; [reflexivity | lia].
  - apply (generate_interval_quality_list_nonpositive (-12)).
    split; [reflexivity | lia].
Defined.

(** ** The classifier: what decides the answer *)

Lemma classify_chord_flags (system : EDOSystem) (X : gset Z) :
  valid system →
  ∃ u h o a d s : bool,
    has_dominant_leading system X = Ok d
    ∧ has_active_leading system X = Ok a
    ∧ (u = true ↔ ∃ m, m ∈ X ∧ quality_at system m = Some UNSTABLE)
    ∧ (h = true ↔ ∃ m, m ∈ X ∧ quality_at system m = Some HOLLOW)
    ∧ (o = true ↔ ∃ m, m ∈ X ∧ quality_at system m = Some ODD)
    ∧ (a = true ↔ ∃ m, m ∈ X ∧ quality_at system m = Some LEADING
                       ∧ unresolved system X m)
    ∧ (d = true ↔ ∃ m, m ∈ X
                       ∧ m `mod` edo system ∈ dominant_leading_intervals system
                       ∧ unresolved system X m)
    ∧ (s = true → 0 ∉ X)
    ∧ classify_chord X system
      = Ok (rules u h o a d s (bool_decide (0 ∈ X))
              (bool_decide (perfect_fifth system ∈ residues system X))).
Proof.
  intros Hv.
  destruct (classify_chord_rules system X Hv)
    as (u & h & o & a & d & s & Hu & Hh & Ho & Ha & Hd & Hs & Hc).
  destruct (has_quality_spec system Hv X UNSTABLE) as (u' & Hu' & Hui).
  destruct (has_quality_spec system Hv X HOLLOW) as (h' & Hh' & Hhi).
  destruct (has_quality_spec system Hv X ODD) as (o' & Ho' & Hoi).
  destruct (has_active_leading_spec system Hv X) as (a' & Ha' & Hai).
  destruct (has_dominant_leading_spec system Hv X) as (d' & Hd' & Hdi).
  destruct (is_dominant_shell_spec system Hv X) as (s' & Hs' & Hsi).
  rewrite Hu in Hu'. rewrite Hh in Hh'. rewrite Ho in Ho'.
  rewrite Ha in Ha'. rewrite Hd in Hd'. rewrite Hs in Hs'.
  injection Hu' as <-. injection Hh' as <-. injection Ho' as <-.
  injection Ha' as <-. injection Hd' as <-. injection Hs' as <-.
  exists u, h, o, a, d, s.
  split; [exact Hd |]. split; [exact Ha |].
  split; [exact Hui |]. split; [exact Hhi |]. split; [exact Hoi |].
  split; [exact Hai |]. split; [exact Hdi |].
  split; [| exact Hc]. intros Hst. by apply Hsi in Hst as (_ & H0 & _).
Qed.

(** X7. A chord is TONIC exactly when it contains 0 itself, has a member
    congruent to the perfect fifth, has no UNSTABLE, HOLLOW or ODD
    member, and every LEADING member with a target has that target
    sounding: rule 4 as the docstring of [classify_chord] words it. *)
Theorem classify_chord_tonic_iff
    (self : EDOFields) (system : EDOSystem) (intervals : gset Z) :
  post_init self = Ok system →
  (classify_chord intervals system = Ok TONIC
   ↔ 0 ∈ intervals
     ∧ perfect_fifth system ∈ residues system intervals
     ∧ (∀ m, m ∈ intervals →
          quality_at system m ≠ Some UNSTABLE
          ∧ quality_at system m ≠ Some HOLLOW
          ∧ quality_at system m ≠ Some ODD)
     ∧ (∀ m, m ∈ intervals → quality_at system m = Some LEADING →
          ¬ unresolved system intervals m)).
Proof.
  intros Hinit.
  assert (valid system) as Hv by by exists self.
  destruct (classify_chord_flags system intervals Hv)
    as (u & h & o & a & d & s & _ & _ & Hu & Hh & Ho & Ha & _ & Hs & ->).
  unfold rules. split.
  - intros Ht.
    assert (u = false ∧ h = false ∧ o = false ∧ a = false
            ∧ bool_decide (0 ∈ intervals) = true
            ∧ bool_decide (perfect_fifth system ∈ residues system intervals) = true)
      as (-> & -> & -> & -> & H0 & H5).
    { destruct u, h, o, a, d, s, (bool_decide (0 ∈ intervals)),
        (bool_decide (perfect_fifth system ∈ residues system intervals));
        simpl in Ht; try discriminate; done. }
    apply bool_decide_eq_true in H0, H5.
    split; [done |]. split; [done |]. split.
    + intros m Hm. repeat split; intros Hq.
      * assert (false = true) as [=]. apply Hu. by exists m.
      * assert (false = true) as [=]. apply Hh. by exists m.
      * assert (false = true) as [=]. apply Ho. by exists m.
    + intros m Hm Hq Hun. assert (false = true) as [=]. apply Ha. by exists m.
  - intros (H0 & H5 & Hno & Hres).
    assert (u = false) as ->.
    { destruct u; [| done]. destruct Hu as [(m & Hm & Hq) _]; [done |].
      by destruct (Hno m Hm) as (? & _). }
    assert (h = false) as ->.
    { destruct h; [| done]. destruct Hh as [(m & Hm & Hq) _]; [done |].
      by destruct (Hno m Hm) as (_ & ? & _). }
    assert (o = false) as ->.
    { destruct o; [| done]. destruct Ho as [(m & Hm & Hq) _]; [done |].
      by destruct (Hno m Hm) as (_ & _ & ?). }
    assert (a = false) as ->.
    { destruct a; [| done]. destruct Ha as [(m & Hm & Hq & Hun) _]; [done |].
      by destruct (Hres m Hm Hq). }
    assert (s = false) as ->.
    { destruct s; [| done]. by destruct (Hs eq_refl). }
    rewrite andb_false_r. simpl.
    by rewrite !bool_decide_eq_true_2.
Qed.

Lemma classify_chord_tonic_iff_witness :
  post_init EDO_12_fields = Ok EDO_12
  ∧ (∀ m, m ∈ ({[0; 4; 7; 11]} : gset Z) → quality_at EDO_12 m = Some LEADING →
       ¬ unresolved EDO_12 {[0; 4; 7; 11]} m).
Proof.
  split; [vm_compute; reflexivity |].
  destruct (classify_chord_tonic_iff EDO_12_fields EDO_12 {[0; 4; 7; 11]})
    as [H _]; [vm_compute; reflexivity |].
  destruct H as (_ & _ & _ & H); [vm_compute; reflexivity | exact H].
Defined.

(** X8. A chord with an UNSTABLE member is DOMINANT when it has an
    unresolved dominant-leading member and PREDOMINANT otherwise; it is
    never TONIC or MEDIANT. *)
Theorem unstable_chord_function
    (self : EDOFields) (system : EDOSystem) (intervals : gset Z) :
  post_init self = Ok system →
  (∃ m, m ∈ intervals ∧ quality_at system m = Some UNSTABLE) →
  ∃ d : bool,
    has_dominant_leading system intervals = Ok d
    ∧ classify_chord intervals system = Ok (if d then DOMINANT else PREDOMINANT).
Proof.
  intros Hinit Hun.
  assert (valid system) as Hv by by exists self.
  destruct (classify_chord_flags system intervals Hv)
    as (u & h & o & a & d & s & Hd & _ & Hu & _ & _ & _ & _ & _ & ->).
  apply Hu in Hun as ->. exists d. split; [exact Hd |].
  unfold rules. by destruct d.
Qed.

Lemma unstable_chord_function_witness :
  post_init EDO_12_fields = Ok EDO_12
  ∧ ∃ d : bool,
      has_dominant_leading EDO_12 {[2; 5; 9]} = Ok d
      ∧ classify_chord {[2; 5; 9]} EDO_12 = Ok (if d then DOMINANT else PREDOMINANT).
Proof.
  split; [vm_compute; reflexivity |].
  apply (unstable_chord_function EDO_12_fields EDO_12 {[2; 5; 9]}).
  - vm_compute. reflexivity.
  - exists 2. split; [set_solver | vm_compute; reflexivity].
Defined.

Lemma classify_chord_dominant_needs_leading (system : EDOSystem) (X : gset Z) :
  valid system →
  has_dominant_leading system X = Ok false →
  classify_chord X system ≠ Ok DOMINANT.
Proof.
  intros Hv Hd.
  destruct (classify_chord_rules system X Hv)
    as (u & h & o & a & d & s & _ & _ & _ & _ & Hd' & _ & ->).
  rewrite Hd in Hd'. injection Hd' as <-. unfold rules. simpl.
  by destruct u, (a || h || o), (bool_decide (0 ∈ X) && _).
Qed.

(** X9. A chord in which the leading target of every member is sounding
    (some member is congruent to it) has no active leading and no
    dominant leading, and is not DOMINANT. *)
Theorem resolved_chord_not_dominant
    (self : EDOFields) (system : EDOSystem) (intervals : gset Z) :
  post_init self = Ok system →
  (∀ m target, m ∈ intervals →
     leading_targets system !! (m `mod` edo system) = Some target →
     ∃ x, x ∈ intervals ∧ x `mod` edo system = target `mod` edo system) →
  has_active_leading system intervals = Ok false
  ∧ has_dominant_leading system intervals = Ok false
  ∧ classify_chord intervals system ≠ Ok DOMINANT.
Proof.
  intros Hinit Hres.
  assert (valid system) as Hv by by exists self.
  assert (∀ m, m ∈ intervals → ¬ unresolved system intervals m) as Hno.
  { intros m Hm (target & Ht & Habs).
    destruct (Hres m target Hm Ht) as (x & Hx & Heq).
    apply Habs. apply elem_of_map. exists x. by split. }
  destruct (has_active_leading_spec system Hv intervals) as (a & Ha & Hai).
  destruct (has_dominant_leading_spec system Hv intervals) as (d & Hd & Hdi).
  assert (a = false) as ->.
  { destruct a; [| done]. destruct Hai as [(m & Hm & _ & Hun) _]; [done |].
    by destruct (Hno m Hm). }
  assert (d = false) as ->.
  { destruct d; [| done]. destruct Hdi as [(m & Hm & _ & Hun) _]; [done |].
    by destruct (Hno m Hm). }
  split; [done |]. split; [done |].
  by apply classify_chord_dominant_needs_leading.
Qed.

Lemma resolved_chord_not_dominant_witness :
  post_init EDO_12_fields = Ok EDO_12
  ∧ has_active_leading EDO_12 {[0; 4; 7; 11]} = Ok false
  ∧ has_dominant_leading EDO_12 {[0; 4; 7; 11]} = Ok false
  ∧ classify_chord {[0; 4; 7; 11]} EDO_12 ≠ Ok DOMINANT.
Proof.
  split; [vm_compute; reflexivity |].
  apply (resolved_chord_not_dominant EDO_12_fields EDO_12 {[0; 4; 7; 11]}).
  - vm_compute. reflexivity.
  - intros m target Hm. simpl. set_unfold.
    destruct Hm as [[[-> | ->] | ->] | ->]; vm_compute; intros [= <-].
    exists 0. split; [auto | reflexivity].
Defined.

(** X10. A system whose description has no leading targets, or no
    dominant-leading steps (the parser's defaults when the blocks are
    absent), has dominant leading in no chord and classifies no chord
    as DOMINANT; without leading targets no chord has active leading. *)
Theorem no_dominant_without_leading_data
    (self : EDOFields) (system : EDOSystem) (intervals : gset Z) :
  post_init self = Ok system →
  leading_targets system = ∅ ∨ dominant_leading_intervals system = ∅ →
  has_dominant_leading system intervals = Ok false
  ∧ classify_chord intervals system ≠ Ok DOMINANT
  ∧ (leading_targets system = ∅ →
     has_active_leading system intervals = Ok false).
Proof.
  intros Hinit Hempty.
  assert (valid system) as Hv by by exists self.
  destruct (has_active_leading_spec system Hv intervals) as (a & Ha & Hai).
  destruct (has_dominant_leading_spec system Hv intervals) as (d & Hd & Hdi).
  assert (d = false) as ->.
  { destruct d; [| done].
    destruct Hdi as [(m & Hm & Hdl & target & Ht & _) _]; [done |].
    destruct Hempty as [He | He]; rewrite He in *.
    - by rewrite lookup_empty in Ht.
    - by apply not_elem_of_empty in Hdl. }
  split; [done |]. split; [by apply classify_chord_dominant_needs_leading |].
  intros He. destruct a; [| done].
  destruct Hai as [(m & Hm & _ & target & Ht & _) _]; [done |].
  rewrite He in Ht. by rewrite lookup_empty in Ht.
Qed.

Lemma no_dominant_without_leading_data_witness :
  post_init EDO_12_bare_fields = Ok EDO_12_bare
  ∧ has_dominant_leading EDO_12_bare {[7; 11; 2]} = Ok false
  ∧ classify_chord {[7; 11; 2]} EDO_12_bare ≠ Ok DOMINANT.
Proof.
  split; [vm_compute; reflexivity |].
  destruct (no_dominant_without_leading_data EDO_12_bare_fields EDO_12_bare {[7; 11; 2]})
    as (Hd & Hc & _).
  - vm_compute. reflexivity.
  - left. reflexivity.
  - by split.
Defined.

(** X11. Two constructed systems with the same [edo], quality list,
    leading targets and dominant-leading steps classify every chord
    alike: the chord shapes and the display tables play no part. *)
Theorem classification_reads_four_fields
    (self1 self2 : EDOFields) (system1 system2 : EDOSystem) (intervals : gset Z) :
  post_init self1 = Ok system1 →
  post_init self2 = Ok system2 →
  edo self1 = edo self2 →
  interval_quality_list self1 = interval_quality_list self2 →
  leading_targets self1 = leading_targets self2 →
  dominant_leading_intervals self1 = dominant_leading_intervals self2 →
  classify_chord intervals system1 = classify_chord intervals system2.
Proof.
  intros H1 H2 He Hl Ht Hd.
  apply post_init_inv in H1 as (Hf1 & _ & qs1 & c1 & Hqs1 & Hiq1 & Hc1 & Hmin1 & _).
  apply post_init_inv in H2 as (Hf2 & _ & qs2 & c2 & Hqs2 & Hiq2 & Hc2 & Hmin2 & _).
  rewrite Hl, Hqs2 in Hqs1. injection Hqs1 as <-.
  rewrite He, Hc2 in Hc1. injection Hc1 as <-.
  rewrite He, Hmin2 in Hmin1. injection Hmin1 as Hp.
  apply classify_chord_same_structure. unfold same_structure.
  rewrite Hf1, Hf2, Hiq1, Hiq2. by repeat split.
Qed.

Lemma classification_reads_four_fields_witness :
  classify_chord {[7; 11; 2]} EDO_12 = classify_chord {[7; 11; 2]} EDO_12_no_tables.
Proof.
  apply (classification_reads_four_fields EDO_12_fields EDO_12_no_tables_fields);
    vm_compute; reflexivity.
Defined.

(** X12. [has_quality] of a union of two chords is the disjunction of
    [has_quality] of the two, and it is false of the empty chord. *)
Theorem has_quality_union
    (self : EDOFields) (system : EDOSystem) (X Y : gset Z) (q : Quality) :
  post_init self = Ok system →
  ∃ bx by' : bool,
    has_quality system X q = Ok bx
    ∧ has_quality system Y q = Ok by'
    ∧ has_quality system (X ∪ Y) q = Ok (bx || by')
    ∧ has_quality system ∅ q = Ok false.
Proof.
  intros Hinit.
  assert (valid system) as Hv by by exists self.
  destruct (has_quality_spec system Hv X q) as (bx & Hx & Hxi).
  destruct (has_quality_spec system Hv Y q) as (by' & Hy & Hyi).
  destruct (has_quality_spec system Hv (X ∪ Y) q) as (bu & Hu & Hui).
  destruct (has_quality_spec system Hv ∅ q) as (be & He & Hei).
  exists bx, by'. split; [done |]. split; [done |]. split.
  - rewrite Hu. f_equal. apply (bool_eq_iff _ _ _ Hui).
    rewrite orb_true_iff, Hxi, Hyi. split.
    + intros [(m & Hm & Hq) | (m & Hm & Hq)]; exists m;
        (split; [apply elem_of_union; auto | done]).
    + intros (m & Hm & Hq). apply elem_of_union in Hm as [Hm | Hm];
        [left | right]; by exists m.
  - rewrite He. f_equal. destruct be; [| done].
    destruct Hei as [(m & Hm & _) _]; [done |]. by apply not_elem_of_empty in Hm.
Qed.

Lemma has_quality_union_witness :
  ∃ bx by' : bool,
    has_quality EDO_12 {[0; 4]} UNSTABLE = Ok bx
    ∧ has_quality EDO_12 {[5; 9]} UNSTABLE = Ok by'
    ∧ has_quality EDO_12 ({[0; 4]} ∪ {[5; 9]}) UNSTABLE = Ok (bx || by')
    ∧ has_quality EDO_12 ∅ UNSTABLE = Ok false.
Proof.
  apply (has_quality_union EDO_12_fields EDO_12). vm_compute. reflexivity.
Defined.

(** ** [analyze_chord] *)

Lemma analyze_chord_qualities_Ok (system : EDOSystem) (l : list Z) :
  valid system →
  mapM (λ i, q ← get_quality system i; Ok (i, q)) l
  = Ok ((λ i, (i, quality_of system i)) <$> l).
Proof.
  intros Hv. apply mapM_Ok_fmap. intros i _. by rewrite get_quality_Ok.
Qed.

Lemma analyze_chord_flag (system : EDOSystem) (X : gset Z) (q : Quality) :
  valid system →
  has_quality system X q
  = Ok (bool_decide
          (q ∈ (list_to_set
                  (((λ i, (i, quality_of system i))
                      <$> merge_sort Z.le (elements X)).*2) : gset Quality))).
Proof.
  intros Hv. unfold has_quality. rewrite get_qualities_Ok by done. simpl.
  f_equal. apply bool_decide_ext.
  rewrite elem_of_map, elem_of_list_to_set, <- list_fmap_compose, list_elem_of_fmap.
  split.
  - intros (m & -> & Hm). exists m. split; [done |].
    by apply elem_of_sorted_elements.
  - intros (m & -> & Hm). exists m. split; [done |].
    by apply elem_of_sorted_elements in Hm.
Qed.

Lemma analyze_chord_Ok (system : EDOSystem) (intervals : gset Z) (name : string) :
  valid system →
  ∃ a d f,
    has_active_leading system intervals = Ok a
    ∧ has_dominant_leading system intervals = Ok d
    ∧ classify_chord intervals system = Ok f
    ∧ analyze_chord intervals system name
      = let qualities := (λ i, (i, quality_of system i))
                           <$> merge_sort Z.le (elements intervals) in
        let quality_set : gset Quality := list_to_set (qualities.*2) in
        Ok {| Analysis.name := name;
              Analysis.intervals := merge_sort Z.le (elements intervals);
              Analysis.qualities := qualities;
              Analysis.has_unstable := bool_decide (UNSTABLE ∈ quality_set);
              Analysis.has_active_leading := a;
              Analysis.has_hollow := bool_decide (HOLLOW ∈ quality_set);
              Analysis.has_odd := bool_decide (ODD ∈ quality_set);
              Analysis.has_dominant_leading := d;
              Analysis.function := f |}.
Proof.
  intros Hv.
  destruct (classify_chord_rules system intervals Hv)
    as (u & h & o & a & d & s & _ & _ & _ & Ha & Hd & _ & Hc).
  eexists a, d, _. split; [exact Ha |]. split; [exact Hd |].
  split; [exact Hc |].
  unfold analyze_chord.
  rewrite analyze_chord_qualities_Ok by done. simpl.
  rewrite Ha, Hd, Hc. reflexivity.
Qed.

(** X13. On a constructed system [analyze_chord] returns, for every
    chord and label, an analysis whose intervals are the members of the
    chord in strictly ascending order, whose qualities pair each of them,
    in that order, with the quality of its residue, whose flags are the
    results of the predicates and whose function is [classify_chord]'s. *)
Theorem analyze_chord_agrees
    (self : EDOFields) (system : EDOSystem) (intervals : gset Z) (name : string) :
  post_init self = Ok system →
  ∃ a, analyze_chord intervals system name = Ok a
    ∧ Analysis.name a = name
    ∧ StronglySorted Z.lt (Analysis.intervals a)
    ∧ (∀ x, x ∈ Analysis.intervals a ↔ x ∈ intervals)
    ∧ (Analysis.qualities a).*1 = Analysis.intervals a
    ∧ (∀ i q, (i, q) ∈ Analysis.qualities a → quality_at system i = Some q)
    ∧ has_quality system intervals UNSTABLE = Ok (Analysis.has_unstable a)
    ∧ has_quality system intervals HOLLOW = Ok (Analysis.has_hollow a)
    ∧ has_quality system intervals ODD = Ok (Analysis.has_odd a)
    ∧ has_active_leading system intervals = Ok (Analysis.has_active_leading a)
    ∧ has_dominant_leading system intervals = Ok (Analysis.has_dominant_leading a)
    ∧ classify_chord intervals system = Ok (Analysis.function a).
Proof.
  intros Hinit.
  assert (valid system) as Hv by by exists self.
  destruct (analyze_chord_Ok system intervals name Hv)
    as (a & d & f & Ha & Hd & Hc & Han).
  eexists. split; [exact Han |]. simpl.
  split; [done |].
  split; [apply sorted_elements_lt |].
  split; [apply elem_of_sorted_elements |].
  split.
  { rewrite <- list_fmap_compose. apply list_fmap_id. }
  split.
  { intros i q Hiq. apply list_elem_of_fmap in Hiq as (j & [= -> ->] & _).
    by apply quality_of_at. }
  rewrite !analyze_chord_flag by done. by repeat split.
Qed.

Lemma analyze_chord_agrees_witness :
  ∃ a, analyze_chord {[7; 11; 2]} EDO_12 "V" = Ok a
    ∧ Analysis.intervals a = [2; 7; 11]
    ∧ Analysis.function a = DOMINANT.
Proof.
  destruct (analyze_chord_agrees EDO_12_fields EDO_12 {[7; 11; 2]} "V")
    as (a & Ha & _); [vm_compute; reflexivity |].
  exists a. split; [exact Ha |].
  vm_compute in Ha. injection Ha as <-. by split.
Defined.

(** X14. The function of an analysis can be read off its own flags: with
    [has_unstable] it is DOMINANT or PREDOMINANT according to
    [has_dominant_leading]; with neither flag it is MEDIANT when any of
    [has_active_leading], [has_hollow], [has_odd] is set, and otherwise it
    is TONIC when the intervals hold 0 and a member congruent to the
    perfect fifth, and PREDOMINANT when they do not. *)
Theorem analysis_function_from_flags
    (self : EDOFields) (system : EDOSystem) (intervals : gset Z) (name : string)
    (a : Analysis.t) :
  post_init self = Ok system →
  analyze_chord intervals system name = Ok a →
  (Analysis.has_unstable a = true →
   Analysis.function a
   = if Analysis.has_dominant_leading a then DOMINANT else PREDOMINANT)
  ∧ (Analysis.has_unstable a = false →
     Analysis.has_dominant_leading a = false →
     Analysis.function a
     = if Analysis.has_active_leading a || Analysis.has_hollow a || Analysis.has_odd a
       then MEDIANT
       else if bool_decide (0 ∈ Analysis.intervals a)
               && bool_decide (Exists (λ m, m `mod` edo system = perfect_fifth system)
                                      (Analysis.intervals a))
            then TONIC
            else PREDOMINANT).
Proof.
  intros Hinit Han.
  assert (valid system) as Hv by by exists self.
  destruct (analyze_chord_Ok system intervals name Hv)
    as (al & d & f & Hact & Hdom & Hc & Hval).
  rewrite Han in Hval. simpl in Hval. injection Hval as ->. simpl.
  destruct (classify_chord_rules system intervals Hv)
    as (u & h & o & al' & d' & s & Hu' & Hh' & Ho' & Ha' & Hd' & _ & Hc').
  rewrite analyze_chord_flag in Hu', Hh', Ho' by done.
  rewrite Hact in Ha'. rewrite Hdom in Hd'. rewrite Hc in Hc'.
  injection Hu' as <-. injection Hh' as <-. injection Ho' as <-.
  injection Ha' as <-. injection Hd' as <-. injection Hc' as ->.
  unfold rules. split.
  - intros ->. by destruct d.
  - intros -> ->. simpl.
    match goal with |- context [if ?b then MEDIANT else _] => destruct b end;
      [done |].
    assert (bool_decide (0 ∈ intervals)
            = bool_decide (0 ∈ merge_sort Z.le (elements intervals))) as ->.
    { apply bool_decide_ext. by rewrite elem_of_sorted_elements. }
    assert (bool_decide (perfect_fifth system ∈ residues system intervals)
            = bool_decide (Exists (λ m, m `mod` edo system = perfect_fifth system)
                                  (merge_sort Z.le (elements intervals)))) as ->;
      [| done].
    apply bool_decide_ext. unfold residues. rewrite elem_of_map, Exists_exists.
    split; intros (m & H1 & H2); exists m; split; try done;
      by apply elem_of_sorted_elements.
Qed.

Lemma analysis_function_from_flags_witness :
  ∃ a, analyze_chord {[2; 5; 9]} EDO_12 "ii" = Ok a
    ∧ Analysis.function a
      = if Analysis.has_dominant_leading a then DOMINANT else PREDOMINANT.
Proof.
  destruct (analyze_chord_Ok EDO_12 {[2; 5; 9]} "ii")
    as (al & d & f & _ & _ & _ & Ha); [exists EDO_12_fields; vm_compute; reflexivity |].
  eexists. split; [exact Ha |].
  destruct (analysis_function_from_flags EDO_12_fields EDO_12 {[2; 5; 9]} "ii" _
              ltac:(vm_compute; reflexivity) Ha)
    as [Hu _].
  apply Hu. vm_compute. reflexivity.
Defined.

(** ** Dictionaries in insertion order *)

Lemma dict_lookup_Ok_elem {V} (d : list (string * V)) (k : string) (v : V) :
  dict_lookup d k = Ok v → (k, v) ∈ d.
Proof.
  induction d as [|[k' v'] d IH]; simpl; [discriminate |].
  case_bool_decide as Hk.
  - intros [= <-]. subst k'. by left.
  - intros H. right. by apply IH.
Qed.

Lemma dict_lookup_missing {V} (d : list (string * V)) (k : string) :
  k ∉ d.*1 → dict_lookup d k = Raise (KeyError k).
Proof.
  induction d as [|[k' v'] d IH]; simpl; [done |].
  intros Hk. apply not_elem_of_cons in Hk as [Hne Hk].
  rewrite bool_decide_eq_false_2 by done. by apply IH.
Qed.

Lemma dict_lookup_present {V} (d : list (string * V)) (k : string) :
  k ∈ d.*1 → ∃ v, dict_lookup d k = Ok v.
Proof.
  induction d as [|[k' v'] d IH]; simpl; [by intros ?%elem_of_nil |].
  intros Hk. case_bool_decide as Hkk; [by eexists |].
  apply elem_of_cons in Hk as [-> | Hk]; [done | by apply IH].
Qed.

Lemma dict_set_fresh {V} (d : list (string * V)) (k : string) (v : V) :
  k ∉ d.*1 → dict_set d k v = d ++ [(k, v)].
Proof.
  induction d as [|[k' v'] d IH]; simpl; [done |].
  intros Hk. apply not_elem_of_cons in Hk as [Hne Hk].
  rewrite bool_decide_eq_false_2 by done. by rewrite IH.
Qed.

Lemma dict_set_keys {V} (d : list (string * V)) (k : string) (v : V) :
  (dict_set d k v).*1 = if decide (k ∈ d.*1) then d.*1 else d.*1 ++ [k].
Proof.
  induction d as [|[k' v'] d IH].
  - destruct (decide (k ∈ ([] : list (string * V)).*1)) as [Hin | _]; [| done].
    by apply elem_of_nil in Hin.
  - cbn [dict_set]. case_bool_decide as Hk.
    + subst k'. destruct (decide (k ∈ ((k, v') :: d).*1)) as [_ | Hn]; [done |].
      exfalso. apply Hn. by left.
    + rewrite fmap_cons, IH. cbn [fst].
      destruct (decide (k ∈ d.*1)) as [Hin | Hin];
        destruct (decide (k ∈ ((k', v') :: d).*1)) as [Hin' | Hin']; try done.
      * exfalso. apply Hin'. by right.
      * exfalso. rewrite fmap_cons in Hin'. cbn [fst] in Hin'.
        apply elem_of_cons in Hin' as [-> | ?]; done.
Qed.

Lemma dict_set_elem {V} (d : list (string * V)) (k : string) (v : V) (kv : string * V) :
  kv ∈ dict_set d k v → kv ∈ d ∨ kv = (k, v).
Proof.
  induction d as [|[k' v'] d IH]; simpl.
  - intros ->%list_elem_of_singleton. by right.
  - case_bool_decide as Hk.
    + subst k'. intros [-> | H]%elem_of_cons; [by right | left; by right].
    + intros [-> | H]%elem_of_cons; [left; by left |].
      destruct (IH H) as [? | ?]; [left; by right | by right].
Qed.

Lemma dict_fold_spec {V} (pairs acc : list (string * V)) :
  NoDup acc.*1 →
  let d := foldl (λ d kv, dict_set d kv.1 kv.2) acc pairs in
  NoDup d.*1
  ∧ (∀ k, k ∈ d.*1 ↔ k ∈ acc.*1 ∨ k ∈ pairs.*1)
  ∧ (∀ kv, kv ∈ d → kv ∈ acc ∨ kv ∈ pairs)
  ∧ (NoDup (acc.*1 ++ pairs.*1) → d = acc ++ pairs).
Proof.
  revert acc. induction pairs as [|[k v] pairs IH]; intros acc Hacc; simpl.
  - split; [done |]. split; [intros k; rewrite elem_of_nil; tauto |].
    split; [auto |]. intros _. by rewrite app_nil_r.
  - assert (NoDup (dict_set acc k v).*1) as Hnd.
    { rewrite dict_set_keys. case_decide; [done |].
      apply NoDup_app. split; [done |]. split; [| apply NoDup_singleton].
      intros x Hx ->%list_elem_of_singleton. done. }
    destruct (IH (dict_set acc k v) Hnd) as (H1 & H2 & H3 & H4).
    split; [exact H1 |]. split; [| split].
    + intros k'. rewrite H2, dict_set_keys, elem_of_cons.
      case_decide as Hin.
      * split; [tauto |]. intros [? | [-> | ?]]; auto.
      * rewrite elem_of_app, list_elem_of_singleton. tauto.
    + intros kv Hkv. destruct (H3 kv Hkv) as [Hs | Hp]; [| right; by right].
      destruct (dict_set_elem _ _ _ _ Hs) as [? | ->]; [by left | right; by left].
    + intros Hall.
      assert (k ∉ acc.*1) as Hfresh.
      { apply NoDup_app in Hall as (_ & Hdis & _).
        intros Hin. apply (Hdis k Hin). by left. }
      rewrite dict_set_fresh in * by done.
      rewrite H4; [by rewrite <- app_assoc |].
      rewrite fmap_app. simpl. rewrite <- app_assoc. exact Hall.
Qed.

Lemma check_tables_Ok_inv (expected : Z) (msg : string → list string → string)
    (tables : list (string * list string)) (name : string) (entries : list string) :
  check_tables expected msg tables = Ok () →
  (name, entries) ∈ tables → len entries = expected.
Proof.
  intros Hok Hin.
  destruct (check_tables_spec expected msg tables)
    as [[Hall _] | (n & e & _ & _ & Hraise)]; [| by rewrite Hok in Hraise].
  rewrite Forall_forall in Hall. specialize (Hall _ Hin).
  unfold bad_table in Hall. simpl in Hall. lia.
Qed.

(** ** The display methods *)

(** X15. On a constructed system [chord_types] raises [KeyError] when
    [current_notation] names no notation table (construction does not
    check it).  Otherwise the selected table has one name per chord
    shape, and the result has each of its names once, paired with a
    shape that stands beside that name; when the names are distinct it
    is the list of (name, shape) pairs in order, one per chord shape. *)
Theorem chord_types_spec (self : EDOFields) (system : EDOSystem) :
  post_init self = Ok system →
  (current_notation system ∉ (chord_notation_systems system).*1 →
   chord_types system = Raise (KeyError (current_notation system)))
  ∧ (∀ names,
       dict_lookup (chord_notation_systems system) (current_notation system) = Ok names →
       length names = length (chord_intervals system)
       ∧ ∃ d, chord_types system = Ok d
           ∧ NoDup d.*1
           ∧ (∀ k, k ∈ d.*1 ↔ k ∈ names)
           ∧ (∀ kv, kv ∈ d → kv ∈ zip names (chord_intervals system))
           ∧ (NoDup names → d = zip names (chord_intervals system))).
Proof.
  intros Hinit.
  apply post_init_inv in Hinit as (<- & _ & qs & c & _ & _ & _ & _ & Hnot & _).
  split.
  - intros Hk. unfold chord_types. by rewrite dict_lookup_missing.
  - intros names Hnames.
    assert (length names = length (chord_intervals system)) as Hlen.
    { apply dict_lookup_Ok_elem in Hnames.
      pose proof (check_tables_Ok_inv _ _ _ _ _ Hnot Hnames) as H.
      unfold len in H. lia. }
    split; [exact Hlen |].
    unfold chord_types. rewrite Hnames. simpl. eexists. split; [reflexivity |].
    destruct (dict_fold_spec (zip names (chord_intervals system)) [])
      as (H1 & H2 & H3 & H4); [constructor |].
    assert ((zip names (chord_intervals system)).*1 = names) as Hfst
      by (apply fst_zip; lia).
    rewrite Hfst in H2, H4.
    split; [exact H1 |]. split; [| split].
    + intros k. rewrite (H2 k), elem_of_nil. tauto.
    + intros kv Hkv. destruct (H3 kv Hkv) as [?%elem_of_nil | ?]; done.
    + intros Hnd. by apply H4.
Qed.

Lemma chord_types_spec_witness :
  (post_init EDO_12_fields = Ok EDO_12
   ∧ chord_types EDO_12 = Ok [("maj", [0; 4; 7]); ("min", [0; 3; 7])])
  ∧ (post_init EDO_12_no_tables_fields = Ok EDO_12_no_tables
     ∧ chord_types EDO_12_no_tables = Raise (KeyError "full")).
Proof.
  split.
  - split; [vm_compute; reflexivity |].
    destruct (chord_types_spec EDO_12_fields EDO_12) as [_ H];
      [vm_compute; reflexivity |].
    destruct (H ["maj"; "min"]) as (_ & d & Hd & _ & _ & _ & Heq);
      [vm_compute; reflexivity |].
    rewrite Hd, Heq; [reflexivity |].
    apply (bool_decide_unpack _). vm_compute. reflexivity.
  - split; [vm_compute; reflexivity |].
    destruct (chord_types_spec EDO_12_no_tables_fields EDO_12_no_tables) as [H _];
      [vm_compute; reflexivity |].
    apply H. simpl. apply not_elem_of_nil.
Defined.

(** X16. On a constructed system [get_note_names] raises [KeyError]
    when [current_note_names] names no note-name table; otherwise it
    returns a list of exactly [edo] names, so that every step of
    [0, edo) has one. *)
Theorem get_note_names_spec (self : EDOFields) (system : EDOSystem) :
  post_init self = Ok system →
  (current_note_names system ∉ (note_name_systems system).*1 →
   get_note_names system = Raise (KeyError (current_note_names system)))
  ∧ (current_note_names system ∈ (note_name_systems system).*1 →
     ∃ names, get_note_names system = Ok names
       ∧ len names = edo system
       ∧ ∀ i, 0 ≤ i < edo system → is_Some (names !! Z.to_nat i)).
Proof.
  intros Hinit.
  apply post_init_inv in Hinit as (<- & _ & qs & c & _ & _ & _ & _ & _ & Hnames).
  unfold get_note_names. split; [apply dict_lookup_missing |].
  intros Hk. destruct (dict_lookup_present _ _ Hk) as [names Hl].
  exists names. split; [exact Hl |].
  apply dict_lookup_Ok_elem in Hl.
  pose proof (check_tables_Ok_inv _ _ _ _ _ Hnames Hl) as Hlen.
  split; [exact Hlen |]. intros i Hi. apply lookup_lt_is_Some.
  unfold len in Hlen. lia.
Qed.

Lemma get_note_names_spec_witness :
  (post_init EDO_12_fields = Ok EDO_12
   ∧ ∃ names, get_note_names EDO_12 = Ok names ∧ len names = 12)
  ∧ (post_init EDO_12_no_tables_fields = Ok EDO_12_no_tables
     ∧ get_note_names EDO_12_no_tables = Raise (KeyError "default")).
Proof.
  split.
  - split; [vm_compute; reflexivity |].
    destruct (get_note_names_spec EDO_12_fields EDO_12) as [_ H];
      [vm_compute; reflexivity |].
    destruct H as (names & Hn & Hlen & _).
    + apply (bool_decide_unpack _). vm_compute. reflexivity.
    + exists names. by split.
  - split; [vm_compute; reflexivity |].
    destruct (get_note_names_spec EDO_12_no_tables_fields EDO_12_no_tables) as [H _];
      [vm_compute; reflexivity |].
    apply H. simpl. apply not_elem_of_nil.
Defined.

(** ** The cells of the function tables *)

Lemma transposed_chord_Ok (system : EDOSystem) (root : Z) (shape : list Z) :
  valid system →
  transposed_chord system root shape
  = Ok (list_to_set ((λ i, (root + i) `mod` edo system) <$> shape)).
Proof.
  intros Hv. unfold transposed_chord.
  rewrite (mapM_Ok_fmap _ (λ i, (root + i) `mod` edo system)); [done |].
  intros i _. apply py_mod_Ok. pose proof (valid_edo_pos system Hv). lia.
Qed.

(** X17. On a constructed system the chord of a table cell is built
    without error for every root and shape; its members are the tones
    [(root + i) mod edo], all of them in [0, edo), so the chord is its
    own residue set, and classifying it returns a function. *)
Theorem table_cell_chord_normalised
    (self : EDOFields) (system : EDOSystem) (root : Z) (shape : list Z) :
  post_init self = Ok system →
  ∃ X f, transposed_chord system root shape = Ok X
    ∧ (∀ m, m ∈ X ↔ ∃ i, i ∈ shape ∧ m = (root + i) `mod` edo system)
    ∧ (∀ m, m ∈ X → 0 ≤ m < edo system)
    ∧ residues system X = X
    ∧ table_cell system root shape = Ok f
    ∧ classify_chord X system = Ok f.
Proof.
  intros Hinit.
  assert (valid system) as Hv by by exists self.
  pose proof (valid_edo_pos system Hv) as Hpos.
  set (X := list_to_set ((λ i, (root + i) `mod` edo system) <$> shape) : gset Z).
  assert (∀ m, m ∈ X ↔ ∃ i, i ∈ shape ∧ m = (root + i) `mod` edo system) as Hmem.
  { intros m. unfold X. rewrite elem_of_list_to_set, list_elem_of_fmap.
    split; intros (i & H1 & H2); exists i; done. }
  assert (∀ m, m ∈ X → 0 ≤ m < edo system) as Hrange.
  { intros m (i & _ & ->)%Hmem. apply Z.mod_pos_bound. lia. }
  destruct (classify_chord_rules system X Hv)
    as (u & h & o & a & d & s & _ & _ & _ & _ & _ & _ & Hc).
  eexists X, _. split; [by apply transposed_chord_Ok |].
  split; [exact Hmem |]. split; [exact Hrange |]. split; [| split].
  - apply set_eq. intros r. unfold residues. rewrite elem_of_map. split.
    + intros (m & -> & Hm). rewrite Z.mod_small by by apply Hrange. done.
    + intros Hr. exists r. split; [| done].
      by rewrite Z.mod_small by by apply Hrange.
  - unfold table_cell. rewrite transposed_chord_Ok by done. exact Hc.
  - exact Hc.
Qed.

Lemma table_cell_chord_normalised_witness :
  ∃ X f, transposed_chord EDO_12 7 [0; 4; 7] = Ok X
    ∧ (∀ m, m ∈ X ↔ ∃ i, i ∈ [0; 4; 7] ∧ m = (7 + i) `mod` edo EDO_12)
    ∧ (∀ m, m ∈ X → 0 ≤ m < edo EDO_12)
    ∧ residues EDO_12 X = X
    ∧ table_cell EDO_12 7 [0; 4; 7] = Ok f
    ∧ classify_chord X EDO_12 = Ok f.
Proof.
  apply (table_cell_chord_normalised EDO_12_fields). vm_compute. reflexivity.
Defined.

(** X18. A table cell depends only on the root modulo [edo] and on the
    set of residues of the chord shape: roots that differ by a multiple
    of [edo], and shapes with the same residues (reordered, repeated or
    octave-shifted tones), give the same cell. *)
Theorem table_cell_periodic
    (self : EDOFields) (system : EDOSystem) (root root' : Z) (shape shape' : list Z) :
  post_init self = Ok system →
  root `mod` edo system = root' `mod` edo system →
  (∀ r, r ∈ (λ i, i `mod` edo system) <$> shape
        ↔ r ∈ (λ i, i `mod` edo system) <$> shape') →
  transposed_chord system root shape = transposed_chord system root' shape'
  ∧ table_cell system root shape = table_cell system root' shape'.
Proof.
  intros Hinit Hroot Hshape.
  assert (valid system) as Hv by by exists self.
  assert (transposed_chord system root shape = transposed_chord system root' shape')
    as Heq; [| split; [exact Heq | unfold table_cell; by rewrite Heq]].
  rewrite !transposed_chord_Ok by done. f_equal.
  assert (∀ r s i, r `mod` edo system = s `mod` edo system →
                   (r + i) `mod` edo system
                   = (s + i `mod` edo system) `mod` edo system) as Hadd.
  { intros r s i Hrs.
    rewrite (Z.add_mod r i), Hrs, <- (Z.add_mod_idemp_l s)
      by (pose proof (valid_edo_pos system Hv); lia).
    done. }
  assert (∀ (r s : Z) (k k' : list Z),
            r `mod` edo system = s `mod` edo system →
            (∀ x, x ∈ (λ i, i `mod` edo system) <$> k
                  → x ∈ (λ i, i `mod` edo system) <$> k') →
            ∀ m, m ∈ (λ i, (r + i) `mod` edo system) <$> k
                 → m ∈ (λ i, (s + i) `mod` edo system) <$> k') as Hsub.
  { intros r s k k' Hrs Hk m (i & -> & Hi)%list_elem_of_fmap.
    destruct (proj1 (list_elem_of_fmap _ _ _)
                (Hk (i `mod` edo system)
                    (proj2 (list_elem_of_fmap _ _ _) (ex_intro _ i (conj eq_refl Hi)))))
      as (j & Hj & Hjin).
    apply list_elem_of_fmap. exists j. split; [| done].
    rewrite (Hadd r s i Hrs), Hj. symmetry. by apply Hadd. }
  apply set_eq. intros m. rewrite !elem_of_list_to_set. split.
  - apply Hsub; [done |]. intros x. apply Hshape.
  - apply Hsub; [done |]. intros x. apply Hshape.
Qed.

Lemma table_cell_periodic_witness :
  transposed_chord EDO_12 7 [0; 4; 7] = transposed_chord EDO_12 (-5) [19; 0; 12; 16]
  ∧ table_cell EDO_12 7 [0; 4; 7] = table_cell EDO_12 (-5) [19; 0; 12; 16].
Proof.
  apply (table_cell_periodic EDO_12_fields); [vm_compute; reflexivity .. |].
  intros r. change (edo EDO_12) with 12. simpl.
  rewrite !elem_of_cons, !elem_of_nil. tauto.
Defined.

(** ** [generate_all_triads] *)

Lemma modal_thirds_elem (qualities : list string) (t : Z) :
  t ∈ modal_thirds qualities ↔ 0 < t ∧ qualities !! Z.to_nat t = Some "m".
Proof.
  unfold modal_thirds. rewrite list_elem_of_fmap. split.
  - intros ([t' q] & -> & Hin).
    apply list_elem_of_filter in Hin as [[Hq Hpos] Hz]. simpl in *.
    apply elem_of_lookup_zip_with in Hz as (i & x & y & [= -> ->] & Hx & Hy).
    apply lookup_seqZ in Hx as [-> Hi]. split; [lia |].
    replace (Z.to_nat (0 + Z.of_nat i)) with i by lia. by subst.
  - intros [Hpos Hq]. exists (t, "m"). split; [done |].
    apply list_elem_of_filter. split; [done |].
    apply elem_of_lookup_zip_with. exists (Z.to_nat t), t, "m".
    split; [done |]. split; [| done].
    apply lookup_seqZ. split; [lia |].
    apply lookup_lt_Some in Hq. unfold len. lia.
Qed.

Lemma modal_thirds_bound (qualities : list string) (t : Z) :
  t ∈ modal_thirds qualities → 0 < t < len qualities.
Proof.
  intros [Hpos Hq]%modal_thirds_elem. apply lookup_lt_Some in Hq.
  unfold len. lia.
Qed.

Lemma NoDup_filter_fst {A B} (P : A * B → Prop) `{!∀ x, Decision (P x)}
    (l : list (A * B)) :
  NoDup l.*1 → NoDup (filter P l).*1.
Proof.
  induction l as [|x l IH]; [done |].
  rewrite fmap_cons, NoDup_cons. intros [Hx Hl].
  rewrite filter_cons. case_decide; [| by apply IH].
  rewrite fmap_cons, NoDup_cons. split; [| by apply IH].
  intros (y & Hy & Hin)%list_elem_of_fmap. apply Hx.
  apply list_elem_of_fmap. exists y. split; [done |].
  by apply list_elem_of_filter in Hin as [_ ?].
Qed.

Lemma modal_thirds_NoDup (qualities : list string) : NoDup (modal_thirds qualities).
Proof.
  unfold modal_thirds. apply NoDup_filter_fst.
  rewrite fst_zip by (rewrite length_seqZ; unfold len; lia).
  apply NoDup_seqZ.
Qed.

Lemma concat_fmap_bind {A B} (f : A → list B) (l : list A) :
  concat (f <$> l) = l ≫= f.
Proof.
  induction l as [|x l IH]; [done |].
  rewrite fmap_cons, bind_cons, <- IH. reflexivity.
Qed.

(** The triads before sorting, as the source's nested loops list them. *)
Lemma stacked_triads_Ok (edo : Z) (thirds : list Z) :
  edo ≠ 0 →
  stacked_triads edo thirds
  = Ok (thirds ≫= λ third1,
          (λ third2, (0, third1, (third1 + third2) `mod` edo)) <$> thirds).
Proof.
  intros Hedo. unfold stacked_triads.
  rewrite (mapM_Ok_fmap _
             (λ third1, (λ third2, (0, third1, (third1 + third2) `mod` edo))
                          <$> thirds)).
  - simpl. by rewrite concat_fmap_bind.
  - intros third1 _. apply mapM_Ok_fmap. intros third2 _.
    by rewrite py_mod_Ok.
Qed.

Lemma length_bind_const {A B} (f : A → list B) (n : nat) (l : list A) :
  (∀ x, length (f x) = n) → length (l ≫= f) = (length l * n)%nat.
Proof.
  intros Hf. induction l as [|x l IH]; [done |].
  rewrite bind_cons, length_app, Hf, IH. simpl. lia.
Qed.

Lemma triad_key_le_trans : Transitive triad_key_le.
Proof. intros a b c. unfold triad_key_le. lia. Qed.

Lemma triad_key_le_total : Total triad_key_le.
Proof. intros a b. unfold triad_key_le. lia. Qed.

(** Triads with the same root are ordered by their keys in one way only. *)
Lemma triad_sorted_unique (l1 l2 : list (Z * Z * Z)) :
  Forall (λ x, x.1.1 = 0) l1 →
  StronglySorted triad_key_le l1 → StronglySorted triad_key_le l2 →
  l1 ≡ₚ l2 → l1 = l2.
Proof.
  intros H0 Hl1. revert l2 H0.
  induction Hl1 as [|x1 l1 ? IH Hx1]; intros l2 H0 Hl2 E.
  { by apply Permutation_nil_l in E. }
  destruct Hl2 as [|x2 l2 ? Hx2].
  { by apply Permutation_nil_r in E. }
  assert (x1 = x2) as ->.
  { rewrite Forall_forall in Hx1, Hx2.
    assert (x2 ∈ x1 :: l1) as Hx2' by (by rewrite E; left).
    assert (x1 ∈ x2 :: l2) as Hx1' by (by rewrite <- E; left).
    rewrite Forall_forall in H0.
    pose proof (H0 x1 ltac:(by left)) as Hr1.
    pose proof (H0 x2 Hx2') as Hr2.
    apply elem_of_cons in Hx1' as [? | Hx1']; [done |].
    apply elem_of_cons in Hx2' as [? | Hx2']; [done |].
    specialize (Hx1 _ Hx2'). specialize (Hx2 _ Hx1').
    destruct x1 as [[r1 t1] f1], x2 as [[r2 t2] f2].
    unfold triad_key_le in Hx1, Hx2. simpl in *.
    f_equal; [f_equal |]; lia. }
  f_equal. apply IH; [by apply Forall_cons in H0 as [_ ?] | done |].
  by apply (inj (x2 ::.)).
Qed.

Lemma stacked_triads_NoDup (edo : Z) (thirds : list Z) :
  (∀ t, t ∈ thirds → 0 < t < edo) → NoDup thirds →
  NoDup (thirds ≫= λ third1,
           (λ third2, (0, third1, (third1 + third2) `mod` edo)) <$> thirds).
Proof.
  intros Hrange Hnd. apply NoDup_bind; [| | done].
  - intros x1 x2 y _ _ (a & -> & _)%list_elem_of_fmap (b & [= -> _] & _)%list_elem_of_fmap.
    done.
  - intros third1 H1. apply NoDup_fmap_2_strong; [| done].
    intros x y Hx Hy [= Heq].
    pose proof (Hrange _ Hx). pose proof (Hrange _ Hy). pose proof (Hrange _ H1).
    pose proof (Z.div_mod (third1 + x) edo ltac:(lia)) as Ex.
    pose proof (Z.div_mod (third1 + y) edo ltac:(lia)) as Ey.
    rewrite Heq in Ex.
    assert ((third1 + x) `div` edo = (third1 + y) `div` edo) as Hq by nia.
    rewrite Hq in Ex. lia.
Qed.

Lemma generate_all_triads_Some (edo : Z) (qualities : list string) :
  edo ≠ 0 →
  generate_all_triads edo (Some qualities)
  = Ok (merge_sort triad_key_le
          (modal_thirds qualities ≫= λ third1,
             (λ third2, (0, third1, (third1 + third2) `mod` edo))
               <$> modal_thirds qualities)).
Proof.
  intros Hedo. unfold generate_all_triads. simpl.
  by rewrite stacked_triads_Ok.
Qed.

Lemma generate_all_triads_27 : generate_all_triads 27 None = Ok triads_27.
Proof. vm_compute. reflexivity. Qed.

(** X19. For a nonzero [edo] and a given quality list,
    [generate_all_triads] returns a list sorted by fifth, then third,
    with one entry per ordered pair of modal thirds (a modal third is a
    position greater than 0 holding [m]): the triads [(0, t, f)] in it
    are those where [t] is a modal third and [f] is [t] plus a modal
    third, reduced mod [edo].  No other arrangement of the same triads
    is sorted, so the result does not depend on the sorting algorithm. *)
Theorem generate_all_triads_spec (edo : Z) (qualities : list string) :
  edo ≠ 0 →
  ∃ triads, generate_all_triads edo (Some qualities) = Ok triads
    ∧ StronglySorted triad_key_le triads
    ∧ length triads
      = (length (modal_thirds qualities) * length (modal_thirds qualities))%nat
    ∧ (∀ r t f, (r, t, f) ∈ triads
         ↔ r = 0
           ∧ (0 < t ∧ qualities !! Z.to_nat t = Some "m")
           ∧ ∃ t2, (0 < t2 ∧ qualities !! Z.to_nat t2 = Some "m")
                   ∧ f = (t + t2) `mod` edo)
    ∧ (∀ l, l ≡ₚ triads → StronglySorted triad_key_le l → l = triads).
Proof.
  intros Hedo. eexists. split; [by apply generate_all_triads_Some |].
  assert (∀ r t f,
            (r, t, f) ∈ merge_sort triad_key_le
              (modal_thirds qualities ≫= λ third1,
                 (λ third2, (0, third1, (third1 + third2) `mod` edo))
                   <$> modal_thirds qualities)
            ↔ r = 0 ∧ t ∈ modal_thirds qualities
              ∧ ∃ t2, t2 ∈ modal_thirds qualities ∧ f = (t + t2) `mod` edo)
    as Hmem.
  { intros r t f. rewrite merge_sort_Permutation, list_elem_of_bind. split.
    - intros (t1 & (t2 & [= -> -> ->] & H2)%list_elem_of_fmap & H1).
      split; [done |]. split; [done |]. by exists t2.
    - intros (-> & H1 & t2 & H2 & ->). exists t. split; [| done].
      apply list_elem_of_fmap. by exists t2. }
  assert (StronglySorted triad_key_le
            (merge_sort triad_key_le
               (modal_thirds qualities ≫= λ third1,
                  (λ third2, (0, third1, (third1 + third2) `mod` edo))
                    <$> modal_thirds qualities))) as Hsorted.
  { apply (@StronglySorted_merge_sort _ triad_key_le _
             triad_key_le_trans triad_key_le_total). }
  split; [exact Hsorted |]. split; [| split].
  - rewrite merge_sort_Permutation.
    apply length_bind_const. intros x. by rewrite length_fmap.
  - intros r t f. rewrite Hmem, !modal_thirds_elem.
    split.
    + intros (-> & Ht & t2 & Ht2%modal_thirds_elem & ->). eauto.
    + intros (-> & Ht & t2 & Ht2 & ->). split; [done |]. split; [done |].
      exists t2. by rewrite modal_thirds_elem.
  - intros l Hperm Hl. symmetry. apply triad_sorted_unique; [| done | done | done].
    apply Forall_forall. intros [[r t] f] Hin. by apply Hmem in Hin as [-> _].
Qed.

Lemma generate_all_triads_spec_witness :
  ∃ triads, generate_all_triads 12 (Some ["s"; "u"; "l"; "m"; "m"; "s"]) = Ok triads
    ∧ StronglySorted triad_key_le triads
    ∧ length triads = 4%nat
    ∧ (0, 3, 7) ∈ triads.
Proof.
  destruct (generate_all_triads_spec 12 ["s"; "u"; "l"; "m"; "m"; "s"])
    as (triads & Hg & Hs & Hlen & Hmem & _); [lia |].
  exists triads. split; [exact Hg |]. split; [exact Hs |].
  split; [exact Hlen |].
  apply Hmem. split; [done |]. split; [by split |].
  exists 4. split; [by split | reflexivity].
Defined.

(** X20. With [edo = 0] and a given quality list, [generate_all_triads]
    returns the empty list when there is no modal third and raises
    [ZeroDivisionError] at the first pair otherwise; with the quality
    list omitted it raises [ZeroDivisionError] while generating one. *)
Theorem generate_all_triads_zero_edo (qualities : list string) :
  generate_all_triads 0 (Some qualities)
  = (if bool_decide (modal_thirds qualities = [])
     then Ok [] else Raise ZeroDivisionError)
  ∧ generate_all_triads 0 None = Raise ZeroDivisionError.
Proof.
  split; [| reflexivity].
  unfold generate_all_triads, stacked_triads. simpl.
  destruct (modal_thirds qualities) as [|t thirds]; reflexivity.
Qed.

(** X21. For a positive [edo] and a quality list of at most [edo]
    entries, no triad is listed twice, every third lies in (0, edo) and
    every fifth in [0, edo). *)
Theorem generate_all_triads_distinct (edo : Z) (qualities : list string) :
  0 < edo → len qualities ≤ edo →
  ∃ triads, generate_all_triads edo (Some qualities) = Ok triads
    ∧ NoDup triads
    ∧ ∀ r t f, (r, t, f) ∈ triads → r = 0 ∧ 0 < t < edo ∧ 0 ≤ f < edo.
Proof.
  intros Hedo Hlen. eexists.
  split; [apply generate_all_triads_Some; lia |].
  assert (∀ t, t ∈ modal_thirds qualities → 0 < t < edo) as Hrange.
  { intros t Ht%modal_thirds_bound. lia. }
  split.
  - rewrite merge_sort_Permutation.
    apply stacked_triads_NoDup; [done | apply modal_thirds_NoDup].
  - intros r t f. rewrite merge_sort_Permutation, list_elem_of_bind.
    intros (t1 & (t2 & [= -> -> ->] & H2)%list_elem_of_fmap & H1).
    split; [done |]. split; [by apply Hrange |].
    apply Z.mod_pos_bound. lia.
Qed.

Lemma generate_all_triads_distinct_witness :
  ∃ triads, generate_all_triads 12 (Some ["s"; "u"; "l"; "m"; "m"; "s"]) = Ok triads
    ∧ NoDup triads
    ∧ ∀ r t f, (r, t, f) ∈ triads → r = 0 ∧ 0 < t < 12 ∧ 0 ≤ f < 12.
Proof.
  apply (generate_all_triads_distinct 12 ["s"; "u"; "l"; "m"; "m"; "s"]).
  - lia.
  - vm_compute. discriminate.
Defined.

(** X22. With the quality list omitted and [1 ≤ edo < 2^53],
    [generate_all_triads] returns without error the triads of the
    generated quality list of [edo] entries; none is listed twice, and
    thirds and fifths are steps of the EDO. *)
Theorem generate_all_triads_default (edo : Z) :
  1 ≤ edo < 2 ^ 53 →
  ∃ qualities triads,
    generate_interval_quality_list edo = Ok qualities
    ∧ len qualities = edo
    ∧ generate_all_triads edo None = Ok triads
    ∧ generate_all_triads edo (Some qualities) = Ok triads
    ∧ NoDup triads
    ∧ ∀ r t f, (r, t, f) ∈ triads → r = 0 ∧ 0 < t < edo ∧ 0 ≤ f < edo.
Proof.
  intros Hedo.
  destruct (generate_interval_quality_list_Ok edo Hedo) as (c & _ & Hgen).
  assert (len ((λ step, step_quality step (float_mul (lit step) c)) <$> seqZ 0 edo)
          = edo) as Hlen.
  { unfold len. rewrite length_fmap, length_seqZ. lia. }
  eexists _, (merge_sort triad_key_le _).
  split; [exact Hgen |]. split; [exact Hlen |].
  assert (∀ t, t ∈ modal_thirds
                 ((λ step, step_quality step (float_mul (lit step) c)) <$> seqZ 0 edo)
               → 0 < t < edo) as Hrange.
  { intros t Ht%modal_thirds_bound. lia. }
  split; [| split; [apply generate_all_triads_Some; lia |] ].
  - unfold generate_all_triads. rewrite Hgen. simpl.
    rewrite stacked_triads_Ok by lia. reflexivity.
  - split.
    + rewrite merge_sort_Permutation.
      apply stacked_triads_NoDup; [done | apply modal_thirds_NoDup].
    + intros r t f. rewrite merge_sort_Permutation, list_elem_of_bind.
      intros (t1 & (t2 & [= -> -> ->] & H2)%list_elem_of_fmap & H1).
      split; [done |]. split; [by apply Hrange |].
      apply Z.mod_pos_bound. lia.
Qed.

Lemma generate_all_triads_default_witness :
  ∃ qualities triads,
    generate_interval_quality_list 27 = Ok qualities
    ∧ generate_all_triads 27 None = Ok triads
    ∧ triads = triads_27
    ∧ NoDup triads.
Proof.
  destruct (generate_all_triads_default 27)
    as (qualities & triads & Hq & _ & Hg & _ & Hnd & _); [lia |].
  exists qualities, triads. split; [exact Hq |]. split; [exact Hg |].
  split; [| exact Hnd].
  rewrite generate_all_triads_27 in Hg. by injection Hg as <-.
Defined.

(** ** The two leading predicates *)

(** X23. On a constructed system [has_active_leading] returns [True]
    exactly when some member of the chord has a residue tagged LEADING
    and a resolution target whose residue is not a residue of the chord;
    a LEADING member without an entry in [leading_targets] never makes
    the chord active. *)
Theorem has_active_leading_iff
    (self : EDOFields) (system : EDOSystem) (intervals : gset Z) :
  post_init self = Ok system →
  ∃ b, has_active_leading system intervals = Ok b
    ∧ (b = true ↔
         ∃ m, m ∈ intervals
           ∧ interval_qualities system !! (m `mod` edo system) = Some LEADING
           ∧ ∃ target,
               leading_targets system !! (m `mod` edo system) = Some target
               ∧ target `mod` edo system ∉ residues system intervals)
    ∧ ((∀ m, m ∈ intervals →
             interval_qualities system !! (m `mod` edo system) = Some LEADING →
             leading_targets system !! (m `mod` edo system) = None) →
       b = false).
Proof.
  intros Hinit.
  assert (valid system) as Hv by by exists self.
  destruct (has_active_leading_spec system Hv intervals) as (b & Hb & Hiff).
  exists b. split; [exact Hb |]. split; [exact Hiff |].
  intros Hnone. destruct b; [| done].
  destruct (proj1 Hiff eq_refl) as (m & Hm & Hq & t & Ht & _).
  unfold quality_at in Hq. by rewrite (Hnone m Hm Hq) in Ht.
Qed.

Lemma has_active_leading_iff_witness :
  ∃ b, has_active_leading EDO_12 {[7; 11; 2]} = Ok b
    ∧ (b = true ↔
         ∃ m, m ∈ ({[7; 11; 2]} : gset Z)
           ∧ interval_qualities EDO_12 !! (m `mod` edo EDO_12) = Some LEADING
           ∧ ∃ target,
               leading_targets EDO_12 !! (m `mod` edo EDO_12) = Some target
               ∧ target `mod` edo EDO_12 ∉ residues EDO_12 {[7; 11; 2]})
    ∧ ((∀ m, m ∈ ({[7; 11; 2]} : gset Z) →
             interval_qualities EDO_12 !! (m `mod` edo EDO_12) = Some LEADING →
             leading_targets EDO_12 !! (m `mod` edo EDO_12) = None) →
       b = false).
Proof.
  apply (has_active_leading_iff EDO_12_fields). vm_compute. reflexivity.
Defined.

(** X24. [has_dominant_leading] tests membership in
    [dominant_leading_intervals], not the LEADING tag.  When every
    dominant leading interval is tagged LEADING, a chord with a dominant
    leading tone also has an active leading tone. *)
Theorem dominant_leading_is_active
    (self : EDOFields) (system : EDOSystem) (intervals : gset Z) :
  post_init self = Ok system →
  (∀ d, d ∈ dominant_leading_intervals system →
        interval_qualities system !! d = Some LEADING) →
  has_dominant_leading system intervals = Ok true →
  has_active_leading system intervals = Ok true.
Proof.
  intros Hinit Htag Hdom.
  assert (valid system) as Hv by by exists self.
  destruct (has_dominant_leading_spec system Hv intervals) as (d & Hd & Hdiff).
  rewrite Hd in Hdom. injection Hdom as ->.
  destruct (proj1 Hdiff eq_refl) as (m & Hm & Hin & Hun).
  destruct (has_active_leading_spec system Hv intervals) as (a & Ha & Haiff).
  rewrite Ha. f_equal. apply Haiff. exists m. split; [done |].
  split; [| done]. unfold quality_at. by apply Htag.
Qed.

Lemma dominant_leading_is_active_witness :
  has_dominant_leading EDO_12 {[7; 11; 2]} = Ok true
  ∧ has_active_leading EDO_12 {[7; 11; 2]} = Ok true.
Proof.
  split; [vm_compute; reflexivity |].
  apply (dominant_leading_is_active EDO_12_fields).
  - vm_compute. reflexivity.
  - intros d Hd. change (d ∈ ({[11]} : gset Z)) in Hd.
    apply elem_of_singleton in Hd as ->. vm_compute. reflexivity.
  - vm_compute. reflexivity.
Defined.

(** ** The report of [print_generated_triads] *)

Lemma unique_loop_NoDup (seen : gset (Z * Z * Z)) (triads : list (Z * Z * Z)) :
  NoDup triads → (∀ x, x ∈ triads → x ∉ seen) → unique_loop seen triads = triads.
Proof.
  revert seen. induction triads as [|t l IH]; intros seen Hnd Hseen; [done |].
  apply NoDup_cons in Hnd as [Ht Hl]. simpl.
  rewrite bool_decide_eq_false_2 by (apply Hseen; by left).
  f_equal. apply IH; [done |].
  intros x Hx [->%elem_of_singleton | Hin]%elem_of_union; [done |].
  apply (Hseen x); [by right | done].
Qed.

Lemma StronglySorted_filter_fst {A B} (R : relation A) (P : A * B → Prop)
    `{!∀ x, Decision (P x)} (l : list (A * B)) :
  StronglySorted R l.*1 → StronglySorted R (filter P l).*1.
Proof.
  induction l as [|x l IH]; [done |].
  rewrite fmap_cons. intros Hs. apply StronglySorted_inv in Hs as [Hl Hx].
  rewrite filter_cons. case_decide; [| by apply IH].
  rewrite fmap_cons. constructor; [by apply IH |].
  rewrite Forall_forall in Hx |- *. intros y (z & -> & Hz)%list_elem_of_fmap.
  apply Hx. apply list_elem_of_fmap. exists z. split; [done |].
  by apply list_elem_of_filter in Hz as [_ ?].
Qed.

Lemma modal_thirds_sorted (qualities : list string) :
  StronglySorted Z.lt (modal_thirds qualities).
Proof.
  unfold modal_thirds. apply StronglySorted_filter_fst.
  rewrite fst_zip by (rewrite length_seqZ; unfold len; lia).
  apply StronglySorted_seqZ.
Qed.

Lemma second_third_found (edo third1 fifth : Z) (thirds_list : list Z) :
  edo ≠ 0 →
  (∃ t2, t2 ∈ thirds_list ∧ (third1 + t2) `mod` edo = fifth) →
  ∃ t2, second_third edo third1 fifth thirds_list = Ok (Some t2)
        ∧ t2 ∈ thirds_list ∧ (third1 + t2) `mod` edo = fifth.
Proof.
  intros Hedo. induction thirds_list as [|t l IH]; intros (t2 & Hin & Heq).
  { by apply elem_of_nil in Hin. }
  simpl. rewrite py_mod_Ok by done. simpl. case_bool_decide as Ht.
  - exists t. split; [done |]. split; [by left | done].
  - apply elem_of_cons in Hin as [-> | Hin]; [done |].
    destruct IH as (t' & Hs & Hin' & Heq'); [by exists t2 |].
    exists t'. split; [done |]. split; [by right | done].
Qed.

(** X25. For a positive [edo] and a quality list of at most [edo]
    entries, the report of [print_generated_triads] is consistent: the
    loop that drops repeated triads drops none, so the number of unique
    triads is the square of the number of thirds; the thirds read back
    from the triads are the modal thirds in ascending order; and for
    every row the search for the second third succeeds, so no row is
    printed with a question mark. *)
Theorem generated_triads_report
    (edo : Z) (qualities : list string) (triads : list (Z * Z * Z)) :
  0 < edo → len qualities ≤ edo →
  generate_all_triads edo (Some qualities) = Ok triads →
  unique_triads triads = triads
  ∧ thirds_used triads = modal_thirds qualities
  ∧ length (unique_triads triads)
    = (length (thirds_used triads) * length (thirds_used triads))%nat
  ∧ ∀ root third1 fifth, (root, third1, fifth) ∈ unique_triads triads →
      ∃ third2,
        second_third edo third1 fifth (modal_thirds qualities) = Ok (Some third2)
        ∧ third2 ∈ modal_thirds qualities
        ∧ (third1 + third2) `mod` edo = fifth.
Proof.
  intros Hedo Hlen Hgen.
  rewrite generate_all_triads_Some in Hgen by lia. injection Hgen as <-.
  set (stacked := modal_thirds qualities ≫= λ third1,
         (λ third2, (0, third1, (third1 + third2) `mod` edo))
           <$> modal_thirds qualities).
  assert (∀ r t f, (r, t, f) ∈ merge_sort triad_key_le stacked
            ↔ r = 0 ∧ t ∈ modal_thirds qualities
              ∧ ∃ t2, t2 ∈ modal_thirds qualities ∧ f = (t + t2) `mod` edo)
    as Hmem.
  { intros r t f. unfold stacked.
    rewrite merge_sort_Permutation, list_elem_of_bind. split.
    - intros (t1 & (t2 & [= -> -> ->] & H2)%list_elem_of_fmap & H1).
      split; [done |]. split; [done |]. by exists t2.
    - intros (-> & H1 & t2 & H2 & ->). exists t. split; [| done].
      apply list_elem_of_fmap. by exists t2. }
  assert (NoDup (merge_sort triad_key_le stacked)) as Hnd.
  { rewrite merge_sort_Permutation. apply stacked_triads_NoDup.
    - intros t Ht%modal_thirds_bound. lia.
    - apply modal_thirds_NoDup. }
  assert (unique_triads (merge_sort triad_key_le stacked)
          = merge_sort triad_key_le stacked) as Huniq.
  { apply unique_loop_NoDup; [done |]. intros x _. apply not_elem_of_empty. }
  assert (thirds_used (merge_sort triad_key_le stacked) = modal_thirds qualities)
    as Hthirds.
  { apply (@StronglySorted_unique _ Z.lt).
    - intros x y ? ?. lia.
    - apply sorted_elements_lt.
    - apply modal_thirds_sorted.
    - apply NoDup_Permutation.
      + unfold thirds_used. rewrite merge_sort_Permutation. apply NoDup_elements.
      + apply modal_thirds_NoDup.
      + intros x. unfold thirds_used.
        rewrite elem_of_sorted_elements, elem_of_list_to_set, list_elem_of_fmap.
        split.
        * intros ([[r t] f] & -> & Hin). by apply Hmem in Hin as (_ & ? & _).
        * intros Hx. exists (0, x, (x + x) `mod` edo). split; [done |].
          apply Hmem. split; [done |]. split; [done |]. by exists x. }
  split; [exact Huniq |]. split; [exact Hthirds |]. split.
  - rewrite Huniq, Hthirds, merge_sort_Permutation.
    apply length_bind_const. intros x. by rewrite length_fmap.
  - intros root third1 fifth. rewrite Huniq.
    intros (_ & _ & t2 & Ht2 & ->)%Hmem.
    apply second_third_found; [lia |]. by exists t2.
Qed.

Lemma generated_triads_report_witness :
  generate_all_triads 12 (Some ["s"; "u"; "l"; "m"; "m"; "s"])
  = Ok [(0, 3, 6); (0, 3, 7); (0, 4, 7); (0, 4, 8)]
  ∧ unique_triads [(0, 3, 6); (0, 3, 7); (0, 4, 7); (0, 4, 8)]
    = [(0, 3, 6); (0, 3, 7); (0, 4, 7); (0, 4, 8)]
  ∧ thirds_used [(0, 3, 6); (0, 3, 7); (0, 4, 7); (0, 4, 8)] = [3; 4].
Proof.
  split; [vm_compute; reflexivity |].
  destruct (generated_triads_report 12 ["s"; "u"; "l"; "m"; "m"; "s"]
              [(0, 3, 6); (0, 3, 7); (0, 4, 7); (0, 4, 8)])
    as (Hu & Ht & _ & _);
    [lia | vm_compute; discriminate | vm_compute; reflexivity |].
  split; [exact Hu |]. rewrite Ht. vm_compute. reflexivity.
Defined.
